(** * PocketFlow [mermaid.visualize]: a shallow embedding and its properties

    The Python function [visualize] inspects a graph of nodes and flows and
    prints it as a Mermaid flowchart.  Objects are compared by identity
    ([id(obj)]) only, so the object graph is modelled as a heap: a list of
    objects whose index is the identity, with references between objects
    stored as identities.  Python dictionaries keyed by identity are [gmap]s,
    Python sets are [gset]s (their iteration order is [elements], an order
    the proofs know nothing about), and the lists stay lists. *)

From Stdlib Require Import ZArith Lia.
From stdpp Require Import base option list gmap fin_sets fin_maps strings sorting pretty.

Local Open Scope string_scope.
Local Open Scope list_scope.

(** ** Data model *)

Abbreviation obj_id := nat (only parsing).

(** One Python object as the code can see it: its class name, whether it is
    an instance of [Flow], [getattr(obj, "start_node", None)] and the
    [successors] dictionary (an absent or [None] dictionary is the empty
    one, as [getattr(obj, "successors", None) or {}] makes it).  A value
    of [successors] may be [None]. *)
Record obj := Obj {
  cls : string;
  is_flow : bool;
  start_node : option obj_id;
  successors : gmap string (option obj_id);
}.

Abbreviation heap := (list obj) (only parsing).

(** A reference always points to an object.  An identity outside the heap
    reads as a plain object without successors. *)
Definition plain_object : obj := Obj "object" false None ∅.

Definition get (h : heap) (i : obj_id) : obj := default plain_object (h !! i).

(** An edge [(id(src), str(action), id(tgt))]. *)
Abbreviation edge := (obj_id * string * obj_id)%type (only parsing).

(** ** Failures

    [ValueError], [RuntimeError] and [KeyError] are the exceptions the code
    can raise; [OutOfFuel] is not a Python outcome: it marks a loop of the
    model that ran out of its iteration budget, and is proved never to
    happen. *)
Inductive failure :=
  | ValueError (msg : string)
  | RuntimeError (msg : string)
  | KeyError (key : obj_id)
  | OutOfFuel.

Inductive result (A : Type) :=
  | Ok (a : A)
  | Fail (e : failure).
Arguments Ok {A} a.
Arguments Fail {A} e.

Definition result_bind {A B} (f : A → result B) (m : result A) : result B :=
  match m with
  | Ok a => f a
  | Fail e => Fail e
  end.

#[export] Instance result_mbind : MBind result := @result_bind.
#[export] Instance result_mret : MRet result := @Ok.

Definition is_ok {A} (m : result A) : Prop :=
  match m with Ok _ => True | Fail _ => False end.

(** [d[k]] on a dictionary keyed by identity. *)
Definition getitem {V} (d : gmap obj_id V) (k : obj_id) : result V :=
  match d !! k with
  | Some v => Ok v
  | None => Fail (KeyError k)
  end.

(** ** [_sort_keys] and the successors of an object *)

Definition str_le (a b : string) : Prop := String.leb a b = true.

#[export] Instance str_le_dec a b : Decision (str_le a b).
Proof. unfold str_le. apply _. Defined.

(** [_sort_keys(d)] for a dictionary whose keys are all of type [str], the
    only dictionaries of this model: [sorted(d)] compares strings and does
    not raise, so the [except] branch, which sorts by [str(x)], is not
    taken, and [str(act)] is [act].  The keys come in increasing order.  A
    dictionary with a key of another type is not modelled. *)
Definition _sort_keys {V} (d : gmap string V) : list string :=
  merge_sort str_le (elements (dom d)).

(** The pairs [(act, nxt)] for which the body of
    [for act in _sort_keys(succ): if (nxt := succ.get(act)) is not None]
    runs, in the order of the loop. *)
Definition live_successors (o : obj) : list (string * obj_id) :=
  omap (λ act, (λ nxt, (act, nxt)) <$> mjoin (successors o !! act))
       (_sort_keys (successors o)).

(** [succ] is truthy: the dictionary is not empty. *)
Definition has_successors (o : obj) : bool :=
  bool_decide (successors o ≠ ∅).

(** ** Real start *)

(** [isinstance(x, Flow) and getattr(x, "start_node", None) is not None] *)
Definition delegates (h : heap) (x : obj_id) : bool :=
  is_flow (get h x) && bool_decide (start_node (get h x) ≠ None).

(** The [while] loop of [_real_start].  [None] for the whole result means
    that the fuel ran out; [Some r] is the value the function returns. *)
Fixpoint real_start_loop (fuel : nat) (h : heap) (x : option obj_id)
    (seen : gset obj_id) : option (option obj_id) :=
  match fuel with
  | 0 => None
  | S fuel' =>
      match x with
      | Some xid =>
          if delegates h xid then
            if decide (xid ∈ seen) then Some None
            else real_start_loop fuel' h (start_node (get h xid)) ({[xid]} ∪ seen)
          else Some x
      | None => Some None
      end
  end.

(** [_real_start(flow_obj)].  The loop reads the heap only, so the value
    kept in [real_start_cache] is the value computed here
    (see [real_start_cached_ok]). *)
Definition _real_start (h : heap) (fid : obj_id) : option obj_id :=
  mjoin (real_start_loop (S (length h)) h (start_node (get h fid)) ∅).

(** [_real_start] with its cache, as the code has it. *)
Definition real_start_cached (h : heap) (cache : gmap obj_id (option obj_id))
    (fid : obj_id) : option obj_id * gmap obj_id (option obj_id) :=
  match cache !! fid with
  | Some r => (r, cache)
  | None => let r := _real_start h fid in (r, <[fid := r]> cache)
  end.

(** [_is_expanded_flow(obj)]; the argument [None] is Python's [None]. *)
Definition _is_expanded_flow (h : heap) (o : option obj_id) : bool :=
  match o with
  | Some i =>
      is_flow (get h i) && bool_decide (start_node (get h i) ≠ None)
      && bool_decide (_real_start h i ≠ None)
  | None => false
  end.

(** [_entry_oid(obj)] *)
Definition _entry_oid (h : heap) (i : obj_id) : obj_id :=
  if _is_expanded_flow h (Some i) then
    match _real_start h i with
    | Some rs => rs
    | None => i
    end
  else i.

(** ** 1) Discovery of the global nodes and edges *)

(** What one iteration of the discovery loop appends to the queue: the
    [start_node] of a flow (when truthy; every object is), then the live
    successors in sorted action order. *)
Definition flow_start (o : obj) : list obj_id :=
  if is_flow o then
    match start_node o with
    | Some sn => [sn]
    | None => []
    end
  else [].

(** The [for act in _sort_keys(succ)] loop of the discovery: every live
    successor adds an edge and is queued. *)
Definition scan_successors (cid : obj_id) (o : obj) (edges : gset edge)
    (queue : list obj_id) : gset edge * list obj_id :=
  foldl (λ '(es, q) '(act, nxt), ({[ (cid, act, nxt) ]} ∪ es, q ++ [nxt]))
        (edges, queue) (live_successors o).

Record discovery := Discovery {
  visit_order : list obj_id;
  visited : gset obj_id;
  edges : gset edge;
}.

(** The [while queue] loop.  [max_nodes] has passed its validation and is
    an integer here; [max_nodes_str] is [str(max_nodes)]. *)
Fixpoint discover_loop (fuel : nat) (h : heap) (max_nodes : Z)
    (max_nodes_str : string)
    (queue : list obj_id) (d : discovery) : result discovery :=
  match fuel with
  | 0 => Fail OutOfFuel
  | S fuel' =>
      match queue with
      | [] => Ok d
      | cid :: queue =>
          if decide (cid ∈ visited d) then
            discover_loop fuel' h max_nodes max_nodes_str queue d
          else
            let visited' := {[cid]} ∪ visited d in
            let visit_order' := visit_order d ++ [cid] in
            if decide (max_nodes < Z.of_nat (length visit_order'))%Z then
              Fail (RuntimeError ("max_nodes exceeded: " +:+ max_nodes_str))
            else
              let curr := get h cid in
              let queue := queue ++ flow_start curr in
              let '(edges', queue) := scan_successors cid curr (edges d) queue in
              discover_loop fuel' h max_nodes max_nodes_str queue
                (Discovery visit_order' visited' edges')
      end
  end.

(** An upper bound on the number of iterations of a traversal of the heap:
    every object is expanded at most once and queues at most its start node
    and its live successors. *)
Definition obj_weight (o : obj) : nat := 2 + length (live_successors o).

Definition heap_weight (h : heap) (seen : gset obj_id) : nat :=
  sum_list ((λ i, if decide (i ∈ seen) then 0 else obj_weight (get h i))
              <$> seq 0 (length h)).

Definition traversal_fuel (h : heap) : nat := 2 + heap_weight h ∅.

Definition discover (h : heap) (max_nodes : Z) (max_nodes_str : string)
    (flow : obj_id) : result discovery :=
  discover_loop (traversal_fuel h) h max_nodes max_nodes_str [flow]
    (Discovery [] ∅ ∅).

(** [obj_by_id.get(oid)]: the keys of [obj_by_id] are the visited
    identities and the value kept for a key is the object itself. *)
Definition obj_by_id_get (d : discovery) (i : obj_id) : option obj_id :=
  if decide (i ∈ visited d) then Some i else None.

(** [order_index_by_obj_id] and [mermaid_id_by_obj_id] *)
Definition order_index_by_obj_id (d : discovery) : gmap obj_id nat :=
  list_to_map (imap (λ i o, (o, i)) (visit_order d)).

Definition mermaid_id_by_obj_id (d : discovery) : gmap obj_id string :=
  (λ i : nat, "n" +:+ pretty i) <$> order_index_by_obj_id d.

(** ** 2) The body of every flow *)

(** [isinstance(o, Flow)], where [o] may be [None]. *)
Definition isinstance_flow (h : heap) (o : option obj_id) : bool :=
  match o with
  | Some i => is_flow (get h i)
  | None => false
  end.

Definition flow_ids (h : heap) (d : discovery) : list obj_id :=
  filter (λ i, isinstance_flow h (obj_by_id_get d i) = true) (visit_order d).

(** The inner [while q] loop; [None] when the fuel ran out. *)
Fixpoint body_loop (fuel : nat) (h : heap) (q : list obj_id)
    (body seen : gset obj_id) : option (gset obj_id) :=
  match fuel with
  | 0 => None
  | S fuel' =>
      match q with
      | [] => Some body
      | nid :: q =>
          if decide (nid ∈ seen) then body_loop fuel' h q body seen
          else
            body_loop fuel' h (q ++ (snd <$> live_successors (get h nid)))
              ({[nid]} ∪ body) ({[nid]} ∪ seen)
      end
  end.

(** The value stored in [body_by_flow_id[fid]]. *)
Definition flow_body (h : heap) (fid : obj_id) : gset obj_id :=
  match start_node (get h fid) with
  | None => ∅
  | Some start => default ∅ (body_loop (traversal_fuel h) h [start] ∅ ∅)
  end.

Definition body_by_flow_id (h : heap) (d : discovery) : gmap obj_id (gset obj_id) :=
  foldl (λ m fid, <[fid := flow_body h fid]> m) ∅ (flow_ids h d).

(** [body_by_flow_id.get(fid, set())] *)
Definition body_of (bodies : gmap obj_id (gset obj_id)) (fid : obj_id) : gset obj_id :=
  default ∅ (bodies !! fid).

(** ** 3) Containment *)

(** [d.setdefault(k, v)] *)
Definition setdefault {V} (k : obj_id) (v : V) (m : gmap obj_id V) : gmap obj_id V :=
  match m !! k with
  | Some _ => m
  | None => <[k := v]> m
  end.

Definition container_flow_by_node_id (h : heap) (d : discovery) : gmap obj_id obj_id :=
  foldl (λ m fid,
           foldl (λ m nid, setdefault nid fid m) m
                 (elements (body_of (body_by_flow_id h d) fid)))
        ∅ (flow_ids h d).

Definition parent_flow_by_flow_id (h : heap) (d : discovery) : gmap obj_id obj_id :=
  foldl (λ m fid,
           match container_flow_by_node_id h d !! fid with
           | Some parent =>
               if bool_decide (parent ≠ fid)
                  && isinstance_flow h (obj_by_id_get d parent)
               then <[fid := parent]> m
               else m
           | None => m
           end)
        ∅ (flow_ids h d).

(** ** 4) Exit sources and the rewritten edges *)

Record exit_state := ExitState {
  exit_cache : gmap obj_id (gset obj_id);
  exit_computing : gset obj_id;
}.

(** The local traversal of [_exit_source_oids] that collects the leaves;
    [None] when the fuel ran out. *)
Fixpoint leaves_loop (fuel : nat) (h : heap) (q : list obj_id)
    (leaves seen : gset obj_id) : option (gset obj_id) :=
  match fuel with
  | 0 => None
  | S fuel' =>
      match q with
      | [] => Some leaves
      | nid :: q =>
          if decide (nid ∈ seen) then leaves_loop fuel' h q leaves seen
          else if has_successors (get h nid) then
            leaves_loop fuel' h (q ++ (snd <$> live_successors (get h nid)))
              leaves ({[nid]} ∪ seen)
          else leaves_loop fuel' h q ({[nid]} ∪ leaves) ({[nid]} ∪ seen)
      end
  end.

(** The set [leaves] after the traversal from [start]. *)
Definition flow_leaves (h : heap) (start : option obj_id) : gset obj_id :=
  match start with
  | None => ∅
  | Some s => default ∅ (leaves_loop (traversal_fuel h) h [s] ∅ ∅)
  end.

(** A [for] loop whose body may raise. *)
Fixpoint fold_result {A B} (f : A → B → result A) (a : A) (l : list B)
    : result A :=
  match l with
  | [] => Ok a
  | x :: l => a' ← f a x; fold_result f a' l
  end.

(** [resolved or fallback] on sets: an empty set is falsy. *)
Definition set_or (X Y : gset obj_id) : gset obj_id :=
  if decide (X = ∅) then Y else X.

(** The body of [for lid in leaves]; [call] is [_exit_source_oids]. *)
Definition resolve_leaf (h : heap) (d : discovery)
    (call : obj_id → exit_state → result (gset obj_id * exit_state))
    (acc : gset obj_id * exit_state) (lid : obj_id)
    : result (gset obj_id * exit_state) :=
  let '(resolved, st) := acc in
  match obj_by_id_get d lid with
  | None => Ok (resolved, st)
  | Some leaf_obj =>
      if _is_expanded_flow h (Some leaf_obj) then
        '(r, st) ← call leaf_obj st;
        Ok (resolved ∪ r, st)
      else Ok ({[lid]} ∪ resolved, st)
  end.

(** [resolved] after the two fallbacks: the real start, then the flow
    itself. *)
Definition exit_fallback (h : heap) (oid : obj_id) (resolved : gset obj_id)
    : gset obj_id :=
  set_or
    (set_or resolved
       (match _real_start h oid with
        | Some rs => {[rs]}
        | None => ∅
        end))
    {[oid]}.

(** The order in which [for lid in leaves] takes the members of the set
    [leaves] of the flow [oid].  Python fixes no order for a set of
    integers: it follows the hashes, here the addresses of the objects, so
    it is a parameter of the model. *)
Definition leaf_order : Type := obj_id → gset obj_id → list obj_id.

(** The order [elements] of the library, at every flow. *)
Definition set_order : leaf_order := λ _ X, elements X.

(** [_exit_source_oids(obj)], threading [exit_cache] and [exit_computing]. *)
Fixpoint _exit_source_oids (order : leaf_order) (fuel : nat) (h : heap)
    (d : discovery) (oid : obj_id) (st : exit_state)
    : result (gset obj_id * exit_state) :=
  match fuel with
  | 0 => Fail OutOfFuel
  | S fuel' =>
      if negb (_is_expanded_flow h (Some oid)) then Ok ({[oid]}, st)
      else
        match exit_cache st !! oid with
        | Some r => Ok (r, st)
        | None =>
            match (if decide (oid ∈ exit_computing st)
                   then _real_start h oid else None) with
            | Some rs => Ok ({[rs]}, st)
            | None =>
                let st := ExitState (exit_cache st) ({[oid]} ∪ exit_computing st) in
                let leaves := flow_leaves h (start_node (get h oid)) in
                '(resolved, st) ←
                  fold_result
                    (resolve_leaf h d (_exit_source_oids order fuel' h d))
                    (∅, st) (order oid leaves);
                let value := exit_fallback h oid resolved in
                Ok (value,
                    ExitState (<[oid := value]> (exit_cache st))
                              (exit_computing st ∖ {[oid]}))
            end
        end
  end.

(** The recursion enters a flow only while it is not being computed, so its
    depth is at most the number of objects. *)
Definition exit_fuel (h : heap) : nat := S (length h).

(** The body of [for src_oid, act, tgt_oid in edges]. *)
Definition rewrite_edge (order : leaf_order) (h : heap) (d : discovery)
    (acc : gset edge * exit_state) (e : edge) : result (gset edge * exit_state) :=
  let '(render_edges, st) := acc in
  let '(src_oid, act, tgt_oid) := e in
  match obj_by_id_get d src_oid, obj_by_id_get d tgt_oid with
  | Some src_obj, Some tgt_obj =>
      let tgt_entry := _entry_oid h tgt_obj in
      '(srcs, st) ← _exit_source_oids order (exit_fuel h) h d src_obj st;
      Ok (foldl (λ res s_oid, {[ (s_oid, act, tgt_entry) ]} ∪ res)
                render_edges (elements srcs), st)
  | _, _ => Ok (render_edges, st)
  end.

(** The loop that fills [render_edges]; [es] is the set [edges] in the
    order in which the loop takes its members. *)
Definition rewrite_edges (order : leaf_order) (es : list edge) (h : heap)
    (d : discovery) : result (gset edge * exit_state) :=
  fold_result (rewrite_edge order h d) (∅, ExitState ∅ ∅) es.

Definition expanded_flow_ids (h : heap) (d : discovery) : gset obj_id :=
  list_to_set (filter (λ i, _is_expanded_flow h (obj_by_id_get d i) = true)
                      (flow_ids h d)).

(** ** The container of an edge *)

(** The generator [_ancestors]: the values it yields, in order; [None] for
    the whole result when the fuel ran out. *)
Fixpoint ancestors_loop (fuel : nat) (parents : gmap obj_id obj_id)
    (container_fid : option obj_id) (seen : gset obj_id)
    : option (list (option obj_id)) :=
  match fuel with
  | 0 => None
  | S fuel' =>
      match container_fid with
      | Some c =>
          if decide (c ∈ seen) then Some [None]
          else
            rest ← ancestors_loop fuel' parents (parents !! c) ({[c]} ∪ seen);
            Some (Some c :: rest)
      | None => Some [None]
      end
  end.

Definition _ancestors (parents : gmap obj_id obj_id) (container_fid : option obj_id)
    : list (option obj_id) :=
  default [] (ancestors_loop (2 + size parents) parents container_fid ∅).

Definition _edge_container (containers parents : gmap obj_id obj_id)
    (src_oid tgt_oid : obj_id) : option obj_id :=
  let src_container := containers !! src_oid in
  let tgt_container := containers !! tgt_oid in
  let tgt_anc : gset (option obj_id) := list_to_set (_ancestors parents tgt_container) in
  mjoin (head (filter (λ c, c ∈ tgt_anc) (_ancestors parents src_container))).

(** The sort key [(order_index[e[0]], str(e[1]), order_index[e[2]])] and the
    order of Python tuples on it. *)
Definition edge_key (order_index : gmap obj_id nat) (e : edge)
    : result (nat * string * nat) :=
  i ← getitem order_index e.1.1;
  j ← getitem order_index e.2;
  Ok (i, e.1.2, j).

Definition key_leb (a b : nat * string * nat) : bool :=
  if decide (a.1.1 < b.1.1)%nat then true
  else if decide (b.1.1 < a.1.1)%nat then false
  else if String.ltb a.1.2 b.1.2 then true
  else if String.ltb b.1.2 a.1.2 then false
  else bool_decide (a.2 ≤ b.2)%nat.

Definition key_le {A} (a b : (nat * string * nat) * A) : Prop :=
  key_leb a.1 b.1 = true.

#[export] Instance key_le_dec {A} (a b : (nat * string * nat) * A) :
  Decision (key_le a b).
Proof. unfold key_le. apply _. Defined.

(** [for x in l: ys.append(f(x))], where [f] may raise. *)
Fixpoint map_result {A B} (f : A → result B) (l : list A) : result (list B) :=
  match l with
  | [] => Ok []
  | x :: l => y ← f x; ys ← map_result f l; Ok (y :: ys)
  end.

(** [bucket.sort(key=...)]: the keys are computed first, any of them may
    raise [KeyError]. *)
Definition sort_bucket (order_index : gmap obj_id nat) (bucket : list edge)
    : result (list edge) :=
  keyed ← map_result (λ e, k ← edge_key order_index e; Ok (k, e)) bucket;
  Ok (snd <$> merge_sort key_le keyed).

(** [edges_by_container]: the buckets, then every bucket sorted. *)
Definition bucket_edges (containers parents : gmap obj_id obj_id)
    (render_edges : gset edge) : gmap (option obj_id) (list edge) :=
  foldl (λ m e,
           let c := _edge_container containers parents e.1.1 e.2 in
           <[c := default [] (m !! c) ++ [e]]> m)
        ∅ (elements render_edges).

Definition edges_by_container (order_index : gmap obj_id nat)
    (containers parents : gmap obj_id obj_id) (render_edges : gset edge)
    : result (gmap (option obj_id) (list edge)) :=
  fold_result (λ m '(c, bucket),
                 sorted ← sort_bucket order_index bucket;
                 Ok (<[c := sorted]> m))
              ∅ (map_to_list (bucket_edges containers parents render_edges)).

(** ** Text *)

Definition str1 (n : nat) : string := String (Ascii.ascii_of_nat n) EmptyString.

Definition backslash : string := str1 92.
Definition dquote : string := str1 34.
Definition pipe : string := str1 124.
Definition newline : string := str1 10.

(** [s.replace(c, by)] for a one-character pattern. *)
Fixpoint replace_char (c : Ascii.ascii) (by_ : string) (s : string) : string :=
  match s with
  | EmptyString => EmptyString
  | String a s' =>
      if decide (a = c) then by_ +:+ replace_char c by_ s'
      else String a (replace_char c by_ s')
  end.

Definition _escape (s : string) (is_edge : bool) : string :=
  let s := replace_char (Ascii.ascii_of_nat 92) (backslash +:+ backslash) s in
  if is_edge then replace_char (Ascii.ascii_of_nat 124) (backslash +:+ pipe) s
  else replace_char (Ascii.ascii_of_nat 34) (backslash +:+ dquote) s.

(** [s.upper()] on the ASCII letters; other bytes are kept. *)
Definition upper_char (a : Ascii.ascii) : Ascii.ascii :=
  let n := Ascii.nat_of_ascii a in
  if decide (97 ≤ n ∧ n ≤ 122)%nat then Ascii.ascii_of_nat (n - 32) else a.

Fixpoint upper (s : string) : string :=
  match s with
  | EmptyString => EmptyString
  | String a s' => String (upper_char a) (upper s')
  end.

(** The lines of the output, one constructor for each format string, and
    the text of a line. *)
Inductive line :=
  | LFence
  | LHeader (direction_u : string)
  | LStart (target : string)
  | LSubgraph (indent sub_id label : string)
  | LNode (indent mermaid_id label : string)
  | LEdge (indent src : string) (label : option string) (tgt : string)
  | LEnd (indent : string)
  | LClassDef
  | LClass (mermaid_id : string)
  | LFenceEnd.

Definition line_text (l : line) : string :=
  match l with
  | LFence => "```mermaid"
  | LHeader direction_u => "flowchart " +:+ direction_u
  | LStart target => "  start((Start)) --> " +:+ target
  | LSubgraph indent sub_id label =>
      indent +:+ "subgraph " +:+ sub_id +:+ "[" +:+ label +:+ "]"
  | LNode indent mid label =>
      indent +:+ mid +:+ "[" +:+ dquote +:+ label +:+ dquote +:+ "]"
  | LEdge indent s None t => indent +:+ s +:+ " --> " +:+ t
  | LEdge indent s (Some act) t =>
      indent +:+ s +:+ " -->|" +:+ act +:+ "| " +:+ t
  | LEnd indent => indent +:+ "end"
  | LClassDef =>
      "  classDef pf_true_start stroke:#d33,stroke-width:3px,fill:#fff5f5;"
  | LClass mid => "  class " +:+ mid +:+ " pf_true_start"
  | LFenceEnd => "```"
  end.

(** ** Labels and warnings *)

(** The calls of [warnings.warn], in order. *)
Inductive warning :=
  | MissingNamespace
  | InvalidNamespace
  | MultipleNames (names : list string)
  | MissingName (cls : string)
  | NoResolvableStart.

(** A value of the name table: an object that has a [successors]
    attribute, or anything else. *)
Inductive ns_value :=
  | NsNode (i : obj_id)
  | NsOther.

(** The [namespace] argument: a dictionary (its items in order; a key that
    is not a string is [None]), a falsy value that is not a dictionary, or
    a truthy value that is not a dictionary. *)
Inductive namespace_arg :=
  | NsDict (items : list (option string * ns_value))
  | NsFalsy
  | NsInvalid.

Definition names_by_obj_id (items : list (option string * ns_value))
    : gmap obj_id (list string) :=
  foldl (λ m kv,
           match kv with
           | (Some k, NsNode i) => <[i := [k]]> m
           | _ => m
           end) ∅ items.

Record label_state := LabelState {
  label_cache : gmap obj_id string;
  unnamed_counter_by_class : gmap string nat;
  warned_multi_names : gset obj_id;
  warned_missing_names : gset obj_id;
  warnings : list warning;
}.

Definition warn (w : warning) (ls : label_state) : label_state :=
  LabelState (label_cache ls) (unnamed_counter_by_class ls)
    (warned_multi_names ls) (warned_missing_names ls) (warnings ls ++ [w]).

Definition _label_for (h : heap) (names_by_id : gmap obj_id (list string))
    (oid : obj_id) (ls : label_state) : string * label_state :=
  match label_cache ls !! oid with
  | Some label => (label, ls)
  | None =>
      let cls := cls (get h oid) in
      let names := default [] (names_by_id !! oid) in
      let '(label, ls) :=
        match names with
        | _ :: _ =>
            let ls :=
              if bool_decide (1 < length names)%nat
                 && bool_decide (oid ∉ warned_multi_names ls)
              then warn (MultipleNames (merge_sort str_le names))
                     (LabelState (label_cache ls) (unnamed_counter_by_class ls)
                        ({[oid]} ∪ warned_multi_names ls)
                        (warned_missing_names ls) (warnings ls))
              else ls in
            (default EmptyString (head (merge_sort str_le names)), ls)
        | [] =>
            let ls :=
              if bool_decide (oid ∉ warned_missing_names ls)
              then warn (MissingName cls)
                     (LabelState (label_cache ls) (unnamed_counter_by_class ls)
                        (warned_multi_names ls)
                        ({[oid]} ∪ warned_missing_names ls) (warnings ls))
              else ls in
            let n := default 0 (unnamed_counter_by_class ls !! cls) + 1 in
            let ls := LabelState (label_cache ls)
                        (<[cls := n]> (unnamed_counter_by_class ls))
                        (warned_multi_names ls) (warned_missing_names ls)
                        (warnings ls) in
            (if decide (n = 1) then cls else cls +:+ "#" +:+ pretty n, ls)
        end in
      (label,
       LabelState (<[oid := label]> (label_cache ls))
         (unnamed_counter_by_class ls) (warned_multi_names ls)
         (warned_missing_names ls) (warnings ls))
  end.

(** ** 5) Rendering *)

Definition idx_le {A} (a b : nat * A) : Prop := (a.1 ≤ b.1)%nat.

#[export] Instance idx_le_dec {A} (a b : nat * A) : Decision (idx_le a b).
Proof. unfold idx_le. apply _. Defined.

(** [sorted(l, key=lambda oid: order_index_by_obj_id[oid])] *)
Definition sort_by_order (order_index : gmap obj_id nat) (l : list obj_id)
    : result (list obj_id) :=
  keyed ← map_result (λ o, i ← getitem order_index o; Ok (i, o)) l;
  Ok (snd <$> merge_sort idx_le keyed).

Record rstate := RState {
  lines : list line;
  rendered_flows : gset obj_id;
  rendering_stack : gset obj_id;
  label_st : label_state;
}.

Definition push_line (l : line) (st : rstate) : rstate :=
  RState (lines st ++ [l]) (rendered_flows st) (rendering_stack st) (label_st st).

Section Render.
(** The variables of [visualize] that the rendering closures read. *)
Variables (h : heap) (d : discovery).
Variable names_by_id : gmap obj_id (list string).
Variable show_default : bool.
Variable bodies : gmap obj_id (gset obj_id).
Variable containers : gmap obj_id obj_id.
Variable expanded : gset obj_id.
Variable buckets : gmap (option obj_id) (list edge).

(** [obj_by_id[oid]] *)
Definition obj_by_id_getitem (i : obj_id) : result obj_id :=
  match obj_by_id_get d i with
  | Some o => Ok o
  | None => Fail (KeyError i)
  end.

(** [lines.append(f"{indent}{_node_def(oid)}")] *)
Definition emit_node_def (indent : string) (st : rstate) (oid : obj_id)
    : result rstate :=
  mid ← getitem (mermaid_id_by_obj_id d) oid;
  o ← obj_by_id_getitem oid;
  let '(label, ls) := _label_for h names_by_id o (label_st st) in
  Ok (RState (lines st ++ [LNode indent mid (_escape label false)])
             (rendered_flows st) (rendering_stack st) ls).

(** [lines.append(f"{indent}{_edge_line(src_oid, act, tgt_oid)}")] *)
Definition emit_edge_line (indent : string) (st : rstate) (e : edge)
    : result rstate :=
  s ← getitem (mermaid_id_by_obj_id d) e.1.1;
  t ← getitem (mermaid_id_by_obj_id d) e.2;
  let act := e.1.2 in
  Ok (push_line
        (if bool_decide (act = "default") && negb show_default
         then LEdge indent s None t
         else LEdge indent s (Some (_escape act true)) t) st).

(** The two comprehensions over [body] in [_render_flow]. *)
Definition is_child_flow (fid nid : obj_id) : bool :=
  isinstance_flow h (obj_by_id_get d nid)
  && bool_decide (nid ∈ expanded)
  && bool_decide (containers !! nid = Some fid).

Definition is_direct_node (fid nid : obj_id) : bool :=
  negb (_is_expanded_flow h (obj_by_id_get d nid))
  && bool_decide (containers !! nid = Some fid).

Fixpoint _render_flow (fuel : nat) (fid : obj_id) (indent : string)
    (st : rstate) : result rstate :=
  match fuel with
  | 0 => Fail OutOfFuel
  | S fuel' =>
      if decide (fid ∈ rendering_stack st) then Ok st
      else
        let st := RState (lines st) (rendered_flows st)
                    ({[fid]} ∪ rendering_stack st) (label_st st) in
        f ← obj_by_id_getitem fid;
        mid ← getitem (mermaid_id_by_obj_id d) fid;
        let sub_id := "subflow_" +:+ mid in
        let '(label, ls) := _label_for h names_by_id f (label_st st) in
        let st := RState (lines st ++ [LSubgraph indent sub_id (_escape label false)])
                    (rendered_flows st) (rendering_stack st) ls in
        let inner_indent := indent +:+ "  " in
        let body := elements (body_of bodies fid) in
        child_flow_ids ←
          sort_by_order (order_index_by_obj_id d)
            (filter (λ nid, is_child_flow fid nid = true) body);
        nodes ←
          sort_by_order (order_index_by_obj_id d)
            (filter (λ nid, is_direct_node fid nid = true) body);
        st ← fold_result (emit_node_def inner_indent) st nodes;
        st ← fold_result
               (λ st child_fid, _render_flow fuel' child_fid inner_indent st)
               st child_flow_ids;
        st ← fold_result (emit_edge_line inner_indent) st
               (default [] (buckets !! Some fid));
        Ok (RState (lines st ++ [LEnd indent])
                   ({[fid]} ∪ rendered_flows st)
                   (rendering_stack st ∖ {[fid]}) (label_st st))
  end.

(** A nested call enters a flow of [expanded] that is not on the stack. *)
Definition render_fuel : nat := 2 + size expanded.

(** The top-level calls of [_render_flow]. *)
Definition render_top_flows (flow : obj_id) (st : rstate) : result rstate :=
  st ← (if decide (flow ∈ expanded)
        then _render_flow render_fuel flow "  " st else Ok st);
  fold_result
    (λ st fid,
       if bool_decide (fid ≠ flow) && bool_decide (fid ∈ expanded)
          && bool_decide (containers !! fid = None)
          && bool_decide (fid ∉ rendered_flows st)
       then _render_flow render_fuel fid "  " st
       else Ok st)
    st (flow_ids h d).

(** The declarations of the objects outside every flow. *)
Definition render_top_nodes (st : rstate) : result rstate :=
  fold_result
    (λ st oid,
       if negb (_is_expanded_flow h (obj_by_id_get d oid))
          && bool_decide (containers !! oid = None)
       then emit_node_def "  " st oid
       else Ok st)
    st (visit_order d).

(** The [if highlight_starts] block: the body of [for fid in flow_ids]. *)
Definition highlight_step (acc : gset obj_id * rstate) (fid : obj_id)
    : result (gset obj_id * rstate) :=
  let '(highlight_ids, st) := acc in
  f ← obj_by_id_getitem fid;
  match _real_start h f with
  | Some rs =>
      if decide (is_Some (mermaid_id_by_obj_id d !! rs))
      then Ok ({[rs]} ∪ highlight_ids, st)
      else Ok (highlight_ids,
               RState (lines st) (rendered_flows st) (rendering_stack st)
                      (warn NoResolvableStart (label_st st)))
  | None =>
      Ok (highlight_ids,
          RState (lines st) (rendered_flows st) (rendering_stack st)
                 (warn NoResolvableStart (label_st st)))
  end.

Definition collect_highlights (st : rstate)
    : result (gset obj_id * rstate) :=
  fold_result highlight_step (∅, st) (flow_ids h d).

Definition render_highlights (st : rstate) : result rstate :=
  '(highlight_ids, st) ← collect_highlights st;
  if decide (highlight_ids = ∅) then Ok st
  else
    rids ← sort_by_order (order_index_by_obj_id d) (elements highlight_ids);
    fold_result
      (λ st rid, mid ← getitem (mermaid_id_by_obj_id d) rid;
                 Ok (push_line (LClass mid) st))
      (push_line LClassDef st) rids.
End Render.

(** ** [visualize] *)

(** The [max_nodes] argument: an [int], a [bool] (an instance of [int] in
    Python: [True] is 1 and [False] is 0), or a value of another type. *)
Inductive max_nodes_arg :=
  | MaxInt (n : Z)
  | MaxBool (b : bool)
  | MaxOther.

Definition int_value (m : max_nodes_arg) : option Z :=
  match m with
  | MaxInt n => Some n
  | MaxBool b => Some (if b then 1 else 0)%Z
  | MaxOther => None
  end.

Definition str_of_max_nodes (m : max_nodes_arg) : string :=
  match m with
  | MaxInt n => pretty n
  | MaxBool b => if b then "True" else "False"
  | MaxOther => EmptyString
  end.

Definition valid_directions : list string := ["LR"; "RL"; "TB"; "TD"; "BT"].

(** [(direction or "LR").upper()]; the argument [None] is Python's [None]. *)
Definition direction_u (direction : option string) : string :=
  upper (match direction with
         | Some (String a s) => String a s
         | Some EmptyString | None => "LR"
         end).

(** The two checks of [namespace]: the items that are kept and the
    warnings. *)
Definition namespace_items (namespace : namespace_arg)
    : list (option string * ns_value) * list warning :=
  match namespace with
  | NsDict (kv :: items) => (kv :: items, [])
  | NsDict [] => ([], [MissingNamespace])
  | NsFalsy => ([], [MissingNamespace])
  | NsInvalid => ([], [InvalidNamespace])
  end.

(** The list [lines] at the end of [visualize], and the warnings of the
    call, when the two loops over sets whose order can show in the result
    take the leaves in the order [order] and the discovered edges in the
    order [edge_order].  The other loops over sets sort what they
    iterate, or fill a set or a dictionary that is read by key. *)
Definition visualize_lines_in (order : leaf_order)
    (edge_order : gset edge → list edge) (h : heap) (flow : obj_id)
    (namespace : namespace_arg) (direction : option string)
    (show_default highlight_starts : bool) (max_nodes : max_nodes_arg)
    : result (list line * list warning) :=
  let direction_u := direction_u direction in
  if decide (direction_u ∈ valid_directions) then
    match int_value max_nodes with
    | Some n =>
        if decide (n ≤ 0)%Z then
          Fail (ValueError "max_nodes must be a positive integer")
        else
          let '(items, ws) := namespace_items namespace in
          let names_by_id := names_by_obj_id items in
          d ← discover h n (str_of_max_nodes max_nodes) flow;
          let bodies := body_by_flow_id h d in
          let containers := container_flow_by_node_id h d in
          let parents := parent_flow_by_flow_id h d in
          '(render_edges, _) ← rewrite_edges order (edge_order (edges d)) h d;
          let expanded := expanded_flow_ids h d in
          buckets ← edges_by_container (order_index_by_obj_id d)
                      containers parents render_edges;
          start ← getitem (mermaid_id_by_obj_id d) (_entry_oid h flow);
          let st := RState [LFence; LHeader direction_u; LStart start] ∅ ∅
                      (LabelState ∅ ∅ ∅ ∅ ws) in
          st ← render_top_flows h d names_by_id show_default bodies
                 containers expanded buckets flow st;
          st ← render_top_nodes h d names_by_id containers st;
          st ← fold_result (emit_edge_line d show_default "  ") st
                 (default [] (buckets !! None));
          st ← (if highlight_starts then render_highlights h d st else Ok st);
          Ok (lines st ++ [LFenceEnd], warnings (label_st st))
    | None => Fail (ValueError "max_nodes must be a positive integer")
    end
  else Fail (ValueError "direction must be one of LR/RL/TB/TD/BT").

(** The lines of a call in which both sets are taken in the order
    [elements]. *)
Definition visualize_lines (h : heap) (flow : obj_id)
    (namespace : namespace_arg) (direction : option string)
    (show_default highlight_starts : bool) (max_nodes : max_nodes_arg)
    : result (list line * list warning) :=
  visualize_lines_in set_order elements h flow namespace direction
    show_default highlight_starts max_nodes.


(** [visualize], both sets taken in the order [elements]. *)
Definition visualize (h : heap) (flow : obj_id)
    (namespace : namespace_arg) (direction : option string)
    (show_default highlight_starts : bool) (max_nodes : max_nodes_arg)
    : result (string * list warning) :=
  '(ls, ws) ← visualize_lines h flow namespace direction show_default
                highlight_starts max_nodes;
  Ok (String.concat newline (line_text <$> ls), ws).

(** ** Notions used in the statements *)

(** [x] hands over to [y]: [x] is a flow and [y] is its [start_node]. *)
Definition delegates_to (h : heap) (x y : obj_id) : Prop :=
  delegates h x = true ∧ start_node (get h x) = Some y.

(** [y] is a live successor of [x]. *)
Definition succ_step (h : heap) (x y : obj_id) : Prop :=
  y ∈ (snd <$> live_successors (get h x)).

(** One step of the discovery: to the start node of a flow, or to a live
    successor. *)
Definition child_step (h : heap) (x y : obj_id) : Prop :=
  y ∈ flow_start (get h x) ∨ succ_step h x y.

(** The objects the discovery can reach from the entry flow. *)
Definition reachable (h : heap) (flow : obj_id) : obj_id → Prop :=
  rtc (child_step h) flow.

(** What the visit of [x] appends to the queue of the discovery: the
    [start_node] of a flow, then the live successors in the order of their
    action labels. *)
Definition queued_by (h : heap) (x : obj_id) : list obj_id :=
  flow_start (get h x) ++ (snd <$> live_successors (get h x)).

(** [l] without the members of [seen] and without repetition: every object
    stays where it comes first. *)
Fixpoint first_visits (seen : gset obj_id) (l : list obj_id) : list obj_id :=
  match l with
  | [] => []
  | x :: l =>
      if decide (x ∈ seen) then first_visits seen l
      else x :: first_visits ({[x]} ∪ seen) l
  end.

(** ** Invariants of the loops *)

(** The weight of the objects of [l] that are not in [seen]. *)
Definition weight_on (h : heap) (l : list obj_id) (seen : gset obj_id) : nat :=
  sum_list ((λ i, if decide (i ∈ seen) then 0%nat else obj_weight (get h i)) <$> l).

(** The cache of [_real_start] keeps the values the loop computes. *)
Definition real_start_cache_ok (h : heap) (cache : gmap obj_id (option obj_id))
    : Prop :=
  ∀ fid r, cache !! fid = Some r → r = _real_start h fid.

(** The discovery loop, with [queue] still to be popped. *)
Record disc_inv (h : heap) (root : obj_id) (queue : list obj_id)
    (d : discovery) : Prop := {
  inv_visited : visited d = list_to_set (visit_order d);
  inv_nodup : NoDup (visit_order d);
  inv_closed : ∀ x y, x ∈ visited d → child_step h x y →
                      y ∈ visited d ∨ y ∈ queue;
  inv_sound : ∀ x, x ∈ visited d ∨ x ∈ queue → reachable h root x;
  inv_edges : ∀ c act n, (c, act, n) ∈ edges d ↔
                         c ∈ visited d ∧ (act, n) ∈ live_successors (get h c);
  inv_root : root ∈ visited d ∨ root ∈ queue;
}.

Definition within_budget (max_nodes : Z) (d : discovery) : Prop :=
  visit_order d = [] ∨ (Z.of_nat (length (visit_order d)) ≤ max_nodes)%Z.

(** More distinct reachable objects than the budget allows. *)
Definition over_budget (h : heap) (root : obj_id) (max_nodes : Z) : Prop :=
  ∃ l : list obj_id, NoDup l ∧ (∀ x, x ∈ l → reachable h root x)
                     ∧ (max_nodes < Z.of_nat (length l))%Z.

(** What a successful discovery returns. *)
Record discovered (h : heap) (root : obj_id) (d : discovery) : Prop := {
  disc_visited : visited d = list_to_set (visit_order d);
  disc_nodup : NoDup (visit_order d);
  disc_reach : ∀ x, x ∈ visited d ↔ reachable h root x;
  disc_edges : ∀ c act n, (c, act, n) ∈ edges d ↔
                 c ∈ visited d ∧ (act, n) ∈ live_successors (get h c);
}.

(** A local traversal from [start] over the successors, with [q] still to
    be popped. *)
Record trav_inv (h : heap) (start : obj_id) (q : list obj_id)
    (seen : gset obj_id) : Prop := {
  trav_closed : ∀ x y, x ∈ seen → succ_step h x y → y ∈ seen ∨ y ∈ q;
  trav_sound : ∀ x, x ∈ seen ∨ x ∈ q → rtc (succ_step h) start x;
  trav_start : start ∈ seen ∨ start ∈ q;
}.

(** The identities of the heap. *)
Definition heap_ids (h : heap) : gset obj_id := set_seq 0 (length h).

(** Every set kept in [exit_cache] holds visited identities only. *)
Definition exit_cache_visited (d : discovery) (st : exit_state) : Prop :=
  ∀ k v, exit_cache st !! k = Some v → v ⊆ visited d.


(** The exit source set of [src] as the state [st] has it: the entry of
    the cache for an expanded flow, the object itself otherwise. *)
Definition exit_set (h : heap) (st : exit_state) (src : obj_id) : gset obj_id :=
  if _is_expanded_flow h (Some src) then default ∅ (exit_cache st !! src)
  else {[src]}.






(** ** Notions used in the statements about the rendering *)

(** The identifiers of the [subgraph] lines, in the order of the output. *)
Definition subgraph_ids (ls : list line) : list string :=
  omap (λ l, match l with
             | LSubgraph _ sub_id _ => Some sub_id
             | _ => None
             end) ls.

(** The identifier [_render_flow] gives to the block of [fid]. *)
Definition sub_id_of (d : discovery) (fid : obj_id) : string :=
  "subflow_" +:+ default EmptyString (mermaid_id_by_obj_id d !! fid).

(** A step of the rendering that opens no block and keeps the two sets. *)
Definition quiet_step (st st' : rstate) : Prop :=
  rendered_flows st' = rendered_flows st
  ∧ rendering_stack st' = rendering_stack st
  ∧ ∃ added, lines st' = lines st ++ added ∧ subgraph_ids added = [].

(** [y] is the container of [x]. *)
Definition contained_in (containers : gmap obj_id obj_id) (x y : obj_id) : Prop :=
  containers !! x = Some y.

(** [g] is inside [top]: the containers above [g] lead to [top] and none of
    them, [g] and [top] included, is in [stack]. *)
Definition below (containers : gmap obj_id obj_id) (stack : gset obj_id)
    (top g : obj_id) : Prop :=
  ∃ k, nsteps (contained_in containers) k g top
       ∧ ∀ j x, (j ≤ k)%nat → nsteps (contained_in containers) j g x → x ∉ stack.

(** Every edge of every bucket joins visited objects. *)
Definition buckets_visited (d : discovery)
    (buckets : gmap (option obj_id) (list edge)) : Prop :=
  ∀ c l e, buckets !! c = Some l → e ∈ l → e.1.1 ∈ visited d ∧ e.2 ∈ visited d.

(** A stretch of the rendering that opens the blocks of [trace], in this
    order, and gives the stack back. *)
Definition renders (d : discovery) (st st' : rstate) (trace : list obj_id) : Prop :=
  rendering_stack st' = rendering_stack st
  ∧ rendered_flows st' = rendered_flows st ∪ list_to_set trace
  ∧ ∃ added, lines st' = lines st ++ added
             ∧ subgraph_ids added = sub_id_of d <$> trace.

(** The flows whose real start cannot be resolved, in visitation order. *)
Definition unresolved_flows (h : heap) (d : discovery) : list obj_id :=
  filter (λ fid, _real_start h fid = None) (flow_ids h d).

(** The real starts of the flows that have one. *)
Definition highlight_ids (h : heap) (d : discovery) : gset obj_id :=
  list_to_set (omap (_real_start h) (flow_ids h d)).

(** What the top-level calls of [_render_flow] have opened so far: every
    block is inside the entry flow or inside a rendered flow that has no
    container. *)
Definition top_trace (containers : gmap obj_id obj_id) (root : obj_id)
    (trace : list obj_id) : Prop :=
  ∀ g, g ∈ trace →
    below containers ∅ root g
    ∨ ∃ f, f ∈ trace ∧ containers !! f = None ∧ below containers ∅ f g.

(** The lines of the [if highlight_ids] block. *)
Definition highlight_lines (mermaid_ids : list string) : list line :=
  match mermaid_ids with
  | [] => []
  | _ => LClassDef :: (LClass <$> mermaid_ids)
  end.

(** The state after [warnings.warn] has been called for every member of
    [ws]. *)
Definition add_warnings (ws : list warning) (st : rstate) : rstate :=
  RState (lines st) (rendered_flows st) (rendering_stack st)
    (LabelState (label_cache (label_st st))
       (unnamed_counter_by_class (label_st st))
       (warned_multi_names (label_st st)) (warned_missing_names (label_st st))
       (warnings (label_st st) ++ ws)).

(** ** Notions used in the statements about the nesting of the blocks *)

(** The indentation at depth [n]: [n] times two spaces. *)
Fixpoint spaces (n : nat) : string :=
  match n with
  | 0 => EmptyString
  | S n => spaces n +:+ "  "
  end.

(** The depth of the nesting after the lines [ls], read from depth
    [depth]: a [subgraph] line opens a block and an [end] line closes the
    innermost one.  The result is [None] when an [end] line has no block to
    close, when a line is not indented as its depth asks, or when a line of
    the frame or of the highlighting stands inside a block. *)
Fixpoint nesting (depth : nat) (ls : list line) : option nat :=
  match ls with
  | [] => Some depth
  | l :: ls =>
      match l with
      | LSubgraph indent _ _ =>
          if decide (indent = spaces (S depth)) then nesting (S depth) ls
          else None
      | LEnd indent =>
          match depth with
          | 0 => None
          | S k => if decide (indent = spaces (S k)) then nesting k ls else None
          end
      | LNode indent _ _ | LEdge indent _ _ _ =>
          if decide (indent = spaces (S depth)) then nesting depth ls else None
      | LFence | LHeader _ | LStart _ | LClassDef | LClass _ | LFenceEnd =>
          if decide (depth = 0)%nat then nesting depth ls else None
      end
  end.

(** A step of the rendering that adds lines which leave the depth [k] as
    it is. *)
Definition nested_step (k : nat) (st st' : rstate) : Prop :=
  ∃ added, lines st' = lines st ++ added ∧ nesting k added = Some k.

(** ** Notions used in the statements about the labels *)

(** The label of the [n]-th object without a name among those of class
    [cls]. *)
Definition unnamed_label (cls : string) (n : nat) : string :=
  if decide (n = 1)%nat then cls else cls +:+ "#" +:+ pretty n.

(** The labels kept for the objects without a name are numbered within
    their class, up to the counter of the class, and no two objects of a
    class share one. *)
Definition labels_numbered (h : heap) (names_by_id : gmap obj_id (list string))
    (ls : label_state) : Prop :=
  (∀ oid label,
     label_cache ls !! oid = Some label → default [] (names_by_id !! oid) = [] →
     ∃ n, (1 ≤ n)%nat
          ∧ (n ≤ default 0%nat (unnamed_counter_by_class ls !! cls (get h oid)))%nat
          ∧ label = unnamed_label (cls (get h oid)) n)
  ∧ (∀ o1 o2 label,
       label_cache ls !! o1 = Some label → label_cache ls !! o2 = Some label →
       default [] (names_by_id !! o1) = [] → default [] (names_by_id !! o2) = [] →
       cls (get h o1) = cls (get h o2) → o1 = o2).

(** ** Notions used in the statements about the whole call *)

(** The budget [max_nodes] is a positive integer that allows [count]
    objects. *)
Definition budget_allows (max_nodes : max_nodes_arg) (count : nat) : Prop :=
  ∃ n, int_value max_nodes = Some n ∧ (0 < n)%Z ∧ (Z.of_nat count ≤ n)%Z.

(** The budget is an integer, positive. *)
Definition budget_valid (max_nodes : max_nodes_arg) : Prop :=
  ∃ n, int_value max_nodes = Some n ∧ (0 < n)%Z.

(** [d] is what the discovery of the call returns. *)
Definition discovery_of (h : heap) (flow : obj_id) (max_nodes : max_nodes_arg)
    (d : discovery) : Prop :=
  ∃ n, int_value max_nodes = Some n
       ∧ discover h n (str_of_max_nodes max_nodes) flow = Ok d.

(** The program state [h'] has the graph of [flow] as [h] has it: every
    object that the discovery reaches in [h] is the same in [h']. *)
Definition same_graph (h h' : heap) (flow : obj_id) : Prop :=
  ∀ x, reachable h flow x → get h' x = get h x.

(** A falsy [direction]: [None] or the empty string. *)
Definition falsy_direction (direction : option string) : Prop :=
  direction = None ∨ direction = Some EmptyString.

(** Following the parent pointers from a flow never comes back to it. *)
Definition parent_forest (parents : gmap obj_id obj_id) : Prop :=
  ∀ fid, ¬ tc (contained_in parents) fid fid.

(** ** Example graphs *)

(** [F1.start_node = F2], [F2.start_node = N]: a flow that hands over to a
    flow that starts at a plain node. *)
Definition ex_chain : heap :=
  [ Obj "Flow" true (Some 1) ∅;
    Obj "Flow" true (Some 2) ∅;
    Obj "Node" false None ∅ ].

(** [F1.start_node = F2] and [F2.start_node = F1]: a delegation cycle. *)
Definition ex_cycle : heap :=
  [ Obj "Flow" true (Some 1) ∅;
    Obj "Flow" true (Some 0) ∅ ].

(** [F1.start_node = A], [A >> F2], [F2.start_node = B], [B >> F1]: each
    flow is in the body of the other. *)
Definition ex_mutual : heap :=
  [ Obj "Flow" true (Some 1) ∅;
    Obj "Node" false None {[ "default" := Some 2 ]};
    Obj "Flow" true (Some 3) ∅;
    Obj "Node" false None {[ "default" := Some 0 ]} ].

(** [F.start_node = A], [A >> B], [A - "x" >> C], [B >> C]. *)
Definition ex_simple : heap :=
  [ Obj "Flow" true (Some 1) ∅;
    Obj "A" false None {[ "default" := Some 2; "x" := Some 3 ]};
    Obj "B" false None {[ "default" := Some 3 ]};
    Obj "C" false None ∅ ].

(** [F0.start_node = F1], [F1.start_node = N2], [N2 >> N3], [F1 >> N4]: a
    nested flow with an edge that leaves it. *)
Definition ex_nested : heap :=
  [ Obj "Flow" true (Some 1) ∅;
    Obj "Flow" true (Some 2) {[ "default" := Some 4 ]};
    Obj "N" false None {[ "default" := Some 3 ]};
    Obj "N" false None ∅;
    Obj "N" false None ∅ ].

(** [F1.start_node = F2], [F2.start_node = F1], [F2 >> G] where [G] is a
    flow without [start_node]. *)
Definition ex_hidden : heap :=
  [ Obj "Flow" true (Some 1) ∅;
    Obj "Flow" true (Some 0) {[ "default" := Some 2 ]};
    Obj "Flow" true None ∅ ].




(** The discoveries of the examples. *)
Definition d_chain : discovery := Discovery [0; 1; 2] {[0; 1; 2]} ∅.

Definition d_simple : discovery :=
  Discovery [0; 1; 2; 3] {[0; 1; 2; 3]}
    {[ (1, "default", 2); (1, "x", 3); (2, "default", 3) ]}.

Definition d_nested : discovery :=
  Discovery [0; 1; 2; 4; 3] {[0; 1; 2; 3; 4]}
    {[ (1, "default", 4); (2, "default", 3) ]}.

Definition d_mutual : discovery :=
  Discovery [0; 1; 2; 3] {[0; 1; 2; 3]}
    {[ (1, "default", 2); (3, "default", 0) ]}.


(** * Proofs *)

Local Open Scope nat_scope.
(** * Properties *)

#[local] Arguments _is_expanded_flow : simpl never.
#[local] Arguments _real_start : simpl never.
#[local] Arguments flow_leaves : simpl never.
#[local] Arguments flow_body : simpl never.
#[local] Arguments heap_weight : simpl never.
#[local] Arguments _escape : simpl never.
#[local] Arguments _label_for : simpl never.
#[local] Arguments _entry_oid : simpl never.
#[local] Arguments render_fuel : simpl never.
#[local] Arguments exit_fuel : simpl never.

(** ** The heap and the traversal weight *)

Lemma get_ge (h : list obj) i : length h ≤ i → get h i = plain_object.
Proof. intros Hi. unfold get. by rewrite lookup_ge_None_2. Qed.

Lemma sort_keys_elem {V} (d : gmap string V) k : k ∈ _sort_keys d ↔ k ∈ dom d.
Proof.
  unfold _sort_keys. rewrite merge_sort_Permutation. apply elem_of_elements.
Qed.

Lemma live_successors_empty o : successors o = ∅ → live_successors o = [].
Proof.
  intros E. unfold live_successors, _sort_keys. rewrite E, dom_empty_L, elements_empty.
  reflexivity.
Qed.

Lemma live_successors_plain : live_successors plain_object = [].
Proof. by apply live_successors_empty. Qed.

Lemma live_successors_spec o act nxt :
  (act, nxt) ∈ live_successors o ↔ successors o !! act = Some (Some nxt).
Proof.
  unfold live_successors. rewrite list_elem_of_omap. split.
  - intros (k & _ & Hk). destruct (successors o !! k) as [[n|]|] eqn:E; simplify_eq/=.
    done.
  - intros E. exists act. split.
    + apply sort_keys_elem, elem_of_dom. eauto.
    + by rewrite E.
Qed.

Lemma has_successors_live o : live_successors o ≠ [] → has_successors o = true.
Proof.
  intros Hl. unfold has_successors. apply bool_decide_eq_true. intros E.
  by apply Hl, live_successors_empty.
Qed.

Lemma weight_on_mono h l c seen : weight_on h l ({[c]} ∪ seen) ≤ weight_on h l seen.
Proof.
  unfold weight_on. induction l as [|x l IH]; csimpl; [lia|].
  destruct (decide (x ∈ {[c]} ∪ seen)), (decide (x ∈ seen)); try lia.
  exfalso. set_solver.
Qed.

Lemma weight_on_visit h l c seen :
  NoDup l → c ∈ l → c ∉ seen →
  weight_on h l ({[c]} ∪ seen) + obj_weight (get h c) = weight_on h l seen.
Proof.
  induction 1 as [|x l Hx Hl IH]; intros Hc Hs; [by apply elem_of_nil in Hc|].
  unfold weight_on in *. csimpl.
  apply elem_of_cons in Hc as [->|Hc].
  - rewrite decide_True by set_solver. rewrite decide_False by done.
    assert (sum_list ((λ i, if decide (i ∈ {[x]} ∪ seen) then 0 else obj_weight (get h i)) <$> l)
            = sum_list ((λ i, if decide (i ∈ seen) then 0 else obj_weight (get h i)) <$> l)) as ->; [|lia].
    f_equal. apply list_fmap_ext. intros i y Hy.
    assert (y ≠ x) by (intros ->; apply Hx; by eapply list_elem_of_lookup_2).
    destruct (decide (y ∈ {[x]} ∪ seen)), (decide (y ∈ seen)); try done;
      exfalso; set_solver.
  - specialize (IH Hc Hs).
    assert (x ≠ c) by (intros ->; done).
    destruct (decide (x ∈ {[c]} ∪ seen)), (decide (x ∈ seen)); try lia;
      exfalso; set_solver.
Qed.

Lemma heap_weight_mono h c seen : heap_weight h ({[c]} ∪ seen) ≤ heap_weight h seen.
Proof. apply weight_on_mono. Qed.

Lemma heap_weight_visit h c seen :
  c < length h → c ∉ seen →
  heap_weight h ({[c]} ∪ seen) + obj_weight (get h c) = heap_weight h seen.
Proof.
  intros Hc Hs. apply weight_on_visit; [apply NoDup_seq| |done].
  apply elem_of_seq. lia.
Qed.

Lemma flow_start_length o : length (flow_start o) ≤ 1.
Proof. unfold flow_start. destruct (is_flow o), (start_node o); simpl; lia. Qed.

(** One step of a traversal: what is newly seen pays for what it queues. *)
Lemma traversal_step h c seen (q extra : list nat) :
  c ∉ seen →
  length extra ≤ length (flow_start (get h c)) + length (live_successors (get h c)) →
  length (q ++ extra) + heap_weight h ({[c]} ∪ seen)
    < length (c :: q) + heap_weight h seen.
Proof.
  intros Hs He. rewrite length_app. simpl.
  destruct (decide (c < length h)) as [Hc|Hc].
  - pose proof (heap_weight_visit h c seen Hc Hs).
    pose proof (flow_start_length (get h c)). unfold obj_weight in *. lia.
  - rewrite get_ge in He by lia. rewrite live_successors_plain in He. simpl in He.
    pose proof (heap_weight_mono h c seen). lia.
Qed.

(** ** Real start *)

Lemma delegates_spec h x :
  delegates h x = true ↔ is_flow (get h x) = true ∧ is_Some (start_node (get h x)).
Proof.
  unfold delegates. rewrite andb_true_iff, bool_decide_eq_true.
  split; intros [? Hs]; split; try done.
  - destruct (start_node (get h x)); [eauto|done].
  - destruct Hs as [? ->]. done.
Qed.

Lemma delegates_in_heap h x : delegates h x = true → x < length h.
Proof.
  intros [Hf _]%delegates_spec. destruct (decide (x < length h)); [done|].
  rewrite get_ge in Hf by lia. done.
Qed.

Lemma set_below_size (n : nat) (X : gset nat) :
  (∀ x, x ∈ X → x < n) → size X ≤ n.
Proof.
  intros HX. rewrite <- (size_set_seq (C := gset nat) 0 n).
  apply subseteq_size. intros x Hx. apply elem_of_set_seq. specialize (HX x Hx). lia.
Qed.

(** The loop of [_real_start] stops: every turn adds a new flow of the heap
    to [seen]. *)
Lemma real_start_loop_total h fuel x seen :
  (∀ i, i ∈ seen → i < length h) →
  length h < fuel + size seen →
  is_Some (real_start_loop fuel h x seen).
Proof.
  revert x seen. induction fuel as [|fuel IH]; intros x seen Hseen Hfuel.
  - pose proof (set_below_size _ _ Hseen). simpl in Hfuel. lia.
  - simpl. destruct x as [xid|]; [|eauto].
    destruct (delegates h xid) eqn:Hd; [|eauto].
    destruct (decide (xid ∈ seen)); [eauto|].
    apply IH.
    + intros i [->%elem_of_singleton|Hi]%elem_of_union; [by apply delegates_in_heap|eauto].
    + rewrite size_union by set_solver. rewrite size_singleton. lia.
Qed.

Lemma real_start_total h fid :
  real_start_loop (S (length h)) h (start_node (get h fid)) ∅
  = Some (_real_start h fid).
Proof.
  unfold _real_start.
  destruct (real_start_loop_total h (S (length h)) (start_node (get h fid)) ∅)
    as [r Hr]; [set_solver|rewrite size_empty; lia|].
  by rewrite Hr.
Qed.

(** More fuel does not change the result. *)
Lemma real_start_loop_fuel h fuel fuel' x seen r :
  real_start_loop fuel h x seen = Some r → fuel ≤ fuel' →
  real_start_loop fuel' h x seen = Some r.
Proof.
  revert fuel' x seen. induction fuel as [|fuel IH]; intros fuel' x seen Hr Hle; [done|].
  destruct fuel' as [|fuel']; [lia|]. simpl in *.
  destruct x as [xid|]; [|done].
  destruct (delegates h xid); [|done].
  destruct (decide (xid ∈ seen)); [done|].
  apply IH; [done|lia].
Qed.

Lemma delegates_to_det h x y z : delegates_to h x y → delegates_to h x z → y = z.
Proof. intros [_ H1] [_ H2]. congruence. Qed.

(** On a chain that ends in an object that does not delegate, every
    position is before the end. *)
Lemma chain_pos_le h m : ∀ n a t w,
  nsteps (delegates_to h) n a t → delegates h t = false →
  nsteps (delegates_to h) m a w →
  m ≤ n ∧ nsteps (delegates_to h) (n - m) w t.
Proof.
  induction m as [|m IH]; intros n a t w Hn Ht Hm.
  - inversion Hm; subst. split; [lia|]. by rewrite Nat.sub_0_r.
  - inversion Hm as [|? ? a' ? Ha Hm']; subst.
    inversion Hn as [|n' ? a'' ? Ha' Hn']; subst.
    + destruct Ha as [Ha _]. congruence.
    + rewrite (delegates_to_det _ _ _ _ Ha' Ha) in Hn'.
      destruct (IH _ _ _ _ Hn' Ht Hm') as [? ?]. split; [lia|done].
Qed.

Lemma chain_length_unique h i j w t :
  nsteps (delegates_to h) i w t → nsteps (delegates_to h) j w t →
  delegates h t = false → i = j.
Proof.
  intros Hi Hj Ht.
  destruct (chain_pos_le h j i w t t Hi Ht Hj) as [? _].
  destruct (chain_pos_le h i j w t t Hj Ht Hi) as [? _]. lia.
Qed.

(** The chain stops at [y]: the result is [y]. *)
Lemma real_start_loop_stops h n : ∀ x y seen fuel r,
  nsteps (delegates_to h) n x y → delegates h y = false →
  (∀ k w, nsteps (delegates_to h) k x w → w ∉ seen) →
  real_start_loop fuel h (Some x) seen = Some r →
  r = Some y.
Proof.
  induction n as [|n IH]; intros x y seen fuel r Hxy Hy Hseen Hr.
  - inversion Hxy; subst. destruct fuel; [done|]. simpl in Hr.
    rewrite Hy in Hr. by simplify_eq.
  - inversion Hxy as [|? ? z ? Hxz Hzy]; subst.
    destruct fuel; [done|]. simpl in Hr.
    destruct Hxz as [Hd Hs]. rewrite Hd in Hr.
    rewrite decide_False in Hr by (apply (Hseen 0); constructor).
    rewrite Hs in Hr. eapply IH; [exact Hzy|done| |exact Hr].
    intros k w Hw [->%elem_of_singleton|Hin]%elem_of_union.
    + (* the chain would come back to [x] and never stop *)
      assert (nsteps (delegates_to h) (k + S n) z y) as Hlong.
      { eapply nsteps_trans; [exact Hw|]. econstructor; [split; done|done]. }
      pose proof (chain_length_unique _ _ _ _ _ Hlong Hzy Hy). lia.
    + eapply (Hseen (S k)); [|done]. econstructor; [split; done|done].
Qed.

(** What the loop returns is on the chain and does not delegate. *)
Lemma real_start_loop_sound h fuel : ∀ x seen t,
  real_start_loop fuel h x seen = Some (Some t) →
  ∃ x0 n, x = Some x0 ∧ nsteps (delegates_to h) n x0 t ∧ delegates h t = false.
Proof.
  induction fuel as [|fuel IH]; intros x seen t Hr; [done|]. simpl in Hr.
  destruct x as [xid|]; [|done].
  destruct (delegates h xid) eqn:Hd.
  - destruct (decide (xid ∈ seen)); [done|].
    destruct (IH _ _ _ Hr) as (x0 & m & Hs & Hn & Ht).
    exists xid, (S m). split; [done|]. split; [|done].
    econstructor; [split; done|done].
  - simplify_eq. exists t, 0. split; [done|]. split; [constructor|done].
Qed.

Lemma real_start_stops h fid x0 y :
  start_node (get h fid) = Some x0 →
  rtc (delegates_to h) x0 y → delegates h y = false →
  _real_start h fid = Some y.
Proof.
  intros Hs [n Hn]%rtc_nsteps Hy.
  pose proof (real_start_total h fid) as Ht. rewrite Hs in Ht.
  eapply real_start_loop_stops; [exact Hn|done| |exact Ht]. set_solver.
Qed.

Lemma real_start_absent h fid :
  start_node (get h fid) = None → _real_start h fid = None.
Proof. intros Hs. unfold _real_start. by rewrite Hs. Qed.

Lemma real_start_sound h fid t :
  _real_start h fid = Some t →
  ∃ x0, start_node (get h fid) = Some x0 ∧ rtc (delegates_to h) x0 t
        ∧ delegates h t = false.
Proof.
  intros Hr. pose proof (real_start_total h fid) as Ht. rewrite Hr in Ht.
  destruct (real_start_loop_sound _ _ _ _ _ Ht) as (x0 & n & Hs & Hn & Hd).
  exists x0. split; [done|]. split; [|done]. apply rtc_nsteps. eauto.
Qed.

(** A chain that comes back to an object it has left has no end. *)
Lemma real_start_cycle h fid x0 y :
  start_node (get h fid) = Some x0 →
  rtc (delegates_to h) x0 y → tc (delegates_to h) y y →
  _real_start h fid = None.
Proof.
  intros Hs [n Hn]%rtc_nsteps Hc.
  destruct (_real_start h fid) as [t|] eqn:Hr; [exfalso|done].
  destruct (real_start_sound _ _ _ Hr) as (x0' & Hs' & [m Hm]%rtc_nsteps & Ht).
  assert (x0' = x0) as -> by congruence.
  destruct (chain_pos_le _ _ _ _ _ _ Hm Ht Hn) as [_ Hyt].
  apply tc_nsteps in Hc as (k & Hk & Hyy).
  pose proof (nsteps_trans _ _ _ _ _ Hyy Hyt) as Hlong.
  pose proof (chain_length_unique _ _ _ _ _ Hlong Hyt Ht). lia.
Qed.

(** The cache of [_real_start] keeps the value the loop computes. *)
Lemma real_start_cached_ok h cache fid :
  real_start_cache_ok h cache →
  (real_start_cached h cache fid).1 = _real_start h fid
  ∧ real_start_cache_ok h (real_start_cached h cache fid).2.
Proof.
  intros Hc. unfold real_start_cached.
  destruct (cache !! fid) as [r|] eqn:E; simpl.
  - split; [by apply Hc|done].
  - split; [done|]. intros f r. rewrite lookup_insert.
    case_decide; [naive_solver|apply Hc].
Qed.

Lemma is_expanded_flow_spec h i :
  _is_expanded_flow h (Some i) = true ↔
  delegates h i = true ∧ is_Some (_real_start h i).
Proof.
  unfold _is_expanded_flow, delegates.
  rewrite !andb_true_iff, !bool_decide_eq_true.
  split; intros [? Hr]; (split; [done|]).
  - destruct (_real_start h i); [eauto|done].
  - destruct Hr as [? ->]. done.
Qed.

Lemma is_expanded_in_heap h i : _is_expanded_flow h (Some i) = true → i < length h.
Proof. intros [Hd _]%is_expanded_flow_spec. by apply delegates_in_heap. Qed.

(** ** Discovery *)

Lemma scan_successors_eq cid o es q :
  scan_successors cid o es q
  = (list_to_set ((λ p, (cid, p.1, p.2)) <$> live_successors o) ∪ es,
     q ++ (snd <$> live_successors o)).
Proof.
  unfold scan_successors. generalize (live_successors o). intros l.
  revert es q. induction l as [|[act nxt] l IH]; intros es q; csimpl.
  - f_equal; [set_solver|by rewrite app_nil_r].
  - rewrite IH. f_equal; [set_solver|]. by rewrite <- app_assoc.
Qed.

Section Discovery.
Variables (h : list obj) (root : nat) (max_nodes : Z) (max_str : string).

Lemma disc_inv_init : disc_inv h root [root] (Discovery [] ∅ ∅).
Proof.
  split; simpl.
  - done.
  - constructor.
  - set_solver.
  - intros x [Hx|Hx]; [set_solver|]. apply list_elem_of_singleton in Hx as ->.
    constructor.
  - set_solver.
  - right. apply list_elem_of_here.
Qed.

Lemma disc_inv_skip cid queue d :
  cid ∈ visited d → disc_inv h root (cid :: queue) d → disc_inv h root queue d.
Proof.
  intros Hc [H1 H2 H3 H4 H5 H6]. split; try done.
  - intros x y Hx Hxy. destruct (H3 x y Hx Hxy) as [?|[->|?]%elem_of_cons]; auto.
  - intros x [Hx|Hx]; apply H4; [by left|right; by apply list_elem_of_further].
  - destruct H6 as [?|[->|?]%elem_of_cons]; auto.
Qed.

Lemma disc_inv_visit cid queue d :
  cid ∉ visited d → disc_inv h root (cid :: queue) d →
  disc_inv h root ((queue ++ flow_start (get h cid)) ++ (snd <$> live_successors (get h cid)))
    (Discovery (visit_order d ++ [cid]) ({[cid]} ∪ visited d)
       (list_to_set ((λ p, (cid, p.1, p.2)) <$> live_successors (get h cid)) ∪ edges d)).
Proof.
  intros Hc [H1 H2 H3 H4 H5 H6]. split; simpl.
  - rewrite list_to_set_app_L, H1. simpl. set_solver.
  - apply NoDup_app. split; [done|]. split; [|apply NoDup_singleton].
    intros x Hx ->%list_elem_of_singleton. apply Hc. rewrite H1.
    by apply elem_of_list_to_set.
  - intros x y [->%elem_of_singleton|Hx]%elem_of_union Hxy.
    + right. destruct Hxy as [Hy|Hy]; rewrite !elem_of_app; auto.
    + destruct (H3 x y Hx Hxy) as [?|[->|?]%elem_of_cons].
      * left. set_solver.
      * left. set_solver.
      * right. rewrite !elem_of_app. auto.
  - assert (reachable h root cid) as Hrc.
    { apply H4. right. apply list_elem_of_here. }
    intros x [[->%elem_of_singleton|Hx]%elem_of_union|Hx]; [done|apply H4; by left|].
    apply elem_of_app in Hx as [[Hx|Hx]%elem_of_app|Hx].
    + apply H4. right. by apply list_elem_of_further.
    + eapply rtc_r; [exact Hrc|]. by left.
    + eapply rtc_r; [exact Hrc|]. by right.
  - intros c act n. rewrite elem_of_union, elem_of_list_to_set, list_elem_of_fmap, H5.
    split.
    + intros [([a n'] & Heq & Hin)|[Hv Hl]]; simplify_eq/=.
      * split; [set_solver|done].
      * split; [set_solver|done].
    + intros [[->%elem_of_singleton|Hv]%elem_of_union Hl].
      * left. by exists (act, n).
      * right. done.
  - destruct H6 as [?|[->|?]%elem_of_cons].
    + left. set_solver.
    + left. set_solver.
    + right. rewrite !elem_of_app. auto.
Qed.
Lemma discover_loop_spec fuel : ∀ queue d,
  disc_inv h root queue d →
  length queue + heap_weight h (visited d) < fuel →
  within_budget max_nodes d →
  match discover_loop fuel h max_nodes max_str queue d with
  | Ok d' => disc_inv h root [] d' ∧ within_budget max_nodes d'
  | Fail e => e = RuntimeError ("max_nodes exceeded: " +:+ max_str) ∧ over_budget h root max_nodes
  end.
Proof.
  induction fuel as [|fuel IH]; intros queue d Hinv Hfuel Hb; [lia|].
  simpl. destruct queue as [|cid queue]; [done|].
  destruct (decide (cid ∈ visited d)) as [Hv|Hv].
  - apply IH; [by eapply disc_inv_skip| |done]. cbn [length] in Hfuel. lia.
  - pose proof (disc_inv_visit cid queue d Hv Hinv) as Hinv'.
    destruct (decide (max_nodes < Z.of_nat (length (visit_order d ++ [cid])))%Z) as [Hm|Hm].
    + split; [done|]. exists (visit_order d ++ [cid]).
      split; [apply (inv_nodup _ _ _ _ Hinv')|]. split; [|done].
      intros x Hx. apply (inv_sound _ _ _ _ Hinv'). left.
      rewrite (inv_visited _ _ _ _ Hinv'). by apply elem_of_list_to_set.
    + rewrite scan_successors_eq. apply IH; [exact Hinv'| |unfold within_budget; right; simpl; lia].
      cbn [visited]. rewrite <- app_assoc.
      pose proof (traversal_step h cid (visited d) queue
                    (flow_start (get h cid) ++ (snd <$> live_successors (get h cid))) Hv) as Hs.
      rewrite length_app, length_fmap in Hs. specialize (Hs ltac:(lia)).
      cbn [length] in Hs, Hfuel. lia.
Qed.

Lemma disc_inv_final d x :
  disc_inv h root [] d → x ∈ visited d ↔ reachable h root x.
Proof.
  intros Hinv. split.
  - intros Hx. apply (inv_sound _ _ _ _ Hinv). by left.
  - revert x. apply (rtc_ind_r (λ x, x ∈ visited d)).
    + destruct (inv_root _ _ _ _ Hinv) as [?|Hq]; [done|by apply elem_of_nil in Hq].
    + intros y z _ Hyz IH.
      destruct (inv_closed _ _ _ _ Hinv _ _ IH Hyz) as [?|Hq]; [done|by apply elem_of_nil in Hq].
Qed.
End Discovery.

Lemma discover_spec h max_nodes max_str root :
  match discover h max_nodes max_str root with
  | Ok d => discovered h root d ∧ (Z.of_nat (length (visit_order d)) ≤ max_nodes)%Z
  | Fail e => e = RuntimeError ("max_nodes exceeded: " +:+ max_str)
              ∧ over_budget h root max_nodes
  end.
Proof.
  unfold discover.
  pose proof (discover_loop_spec h root max_nodes max_str (traversal_fuel h)
                [root] (Discovery [] ∅ ∅) (disc_inv_init h root)) as Hs.
  destruct (discover_loop _ _ _ _ _ _) as [d|e].
  - destruct Hs as [Hinv Hb]; [unfold traversal_fuel; simpl; lia|by left|].
    assert (root ∈ visited d) as Hroot.
    { eapply disc_inv_final; [exact Hinv|]. constructor. }
    split.
    + split; [apply Hinv|apply Hinv| |apply Hinv].
      intros x. by apply disc_inv_final.
    + destruct Hb as [Hb|Hb]; [|done].
      rewrite (inv_visited _ _ _ _ Hinv), Hb in Hroot. set_solver.
  - apply Hs; [unfold traversal_fuel; simpl; lia|by left].
Qed.

Lemma discovered_closed h root d x y :
  discovered h root d → x ∈ visited d → child_step h x y → y ∈ visited d.
Proof.
  intros Hd Hx Hxy. apply (disc_reach _ _ _ Hd).
  eapply rtc_r; [|exact Hxy]. by apply (disc_reach _ _ _ Hd).
Qed.

Lemma discovered_root h root d : discovered h root d → root ∈ visited d.
Proof. intros Hd. apply (disc_reach _ _ _ Hd). constructor. Qed.

Lemma elem_of_visit_order h root d x :
  discovered h root d → x ∈ visit_order d ↔ x ∈ visited d.
Proof. intros Hd. rewrite (disc_visited _ _ _ Hd). by rewrite elem_of_list_to_set. Qed.

Lemma obj_by_id_get_Some d i o : obj_by_id_get d i = Some o ↔ o = i ∧ i ∈ visited d.
Proof. unfold obj_by_id_get. case_decide; naive_solver. Qed.

Lemma obj_by_id_get_visited d i : i ∈ visited d → obj_by_id_get d i = Some i.
Proof. intros Hi. by apply obj_by_id_get_Some. Qed.

Lemma fst_imap_index {A} (f : nat → nat) (l : list A) :
  fst <$> imap (λ i o, (o, f i)) l = l.
Proof.
  revert f. induction l as [|x l IH]; intros f; [done|].
  csimpl. f_equal. apply (IH (f ∘ S)).
Qed.

Lemma order_index_dom d : dom (order_index_by_obj_id d) = list_to_set (visit_order d).
Proof.
  unfold order_index_by_obj_id. rewrite dom_list_to_map_L.
  by rewrite (fst_imap_index (λ i, i)).
Qed.

Lemma order_index_lookup d o i :
  NoDup (visit_order d) →
  order_index_by_obj_id d !! o = Some i ↔ visit_order d !! i = Some o.
Proof.
  intros Hnd. unfold order_index_by_obj_id.
  rewrite <- elem_of_list_to_map by (by rewrite (fst_imap_index (λ i, i))).
  rewrite elem_of_lookup_imap. naive_solver.
Qed.

Lemma order_index_is_Some h root d o :
  discovered h root d → is_Some (order_index_by_obj_id d !! o) ↔ o ∈ visited d.
Proof.
  intros Hd. rewrite <- elem_of_dom, order_index_dom, (disc_visited _ _ _ Hd). done.
Qed.

Lemma mermaid_id_is_Some h root d o :
  discovered h root d → is_Some (mermaid_id_by_obj_id d !! o) ↔ o ∈ visited d.
Proof.
  intros Hd. unfold mermaid_id_by_obj_id. rewrite lookup_fmap, fmap_is_Some.
  by eapply order_index_is_Some.
Qed.

Lemma getitem_ok {V} (m : gmap nat V) k : is_Some (m !! k) → ∃ v, getitem m k = Ok v ∧ m !! k = Some v.
Proof. intros [v Hv]. exists v. unfold getitem. by rewrite Hv. Qed.

Lemma elem_of_flow_ids h d fid :
  fid ∈ flow_ids h d ↔
  fid ∈ visit_order d ∧ fid ∈ visited d ∧ is_flow (get h fid) = true.
Proof.
  unfold flow_ids. rewrite list_elem_of_filter. unfold obj_by_id_get, isinstance_flow.
  case_decide; naive_solver.
Qed.

Lemma flow_ids_nodup h root d : discovered h root d → NoDup (flow_ids h d).
Proof. intros Hd. apply NoDup_filter, (disc_nodup _ _ _ Hd). Qed.

(** ** Local traversals over the successors *)

Section Traversal.
Variables (h : list obj) (start : nat).

Lemma trav_inv_init : trav_inv h start [start] ∅.
Proof.
  split.
  - set_solver.
  - intros x [Hx| ->%list_elem_of_singleton]; [set_solver|constructor].
  - right. apply list_elem_of_here.
Qed.

Lemma trav_inv_skip nid q seen :
  nid ∈ seen → trav_inv h start (nid :: q) seen → trav_inv h start q seen.
Proof.
  intros Hn [H1 H2 H3]. split.
  - intros x y Hx Hxy. destruct (H1 x y Hx Hxy) as [?|[->|?]%elem_of_cons]; auto.
  - intros x [Hx|Hx]; apply H2; [by left|right; by apply list_elem_of_further].
  - destruct H3 as [?|[->|?]%elem_of_cons]; auto.
Qed.

Lemma trav_inv_visit nid q seen :
  trav_inv h start (nid :: q) seen →
  trav_inv h start (q ++ (snd <$> live_successors (get h nid))) ({[nid]} ∪ seen).
Proof.
  intros [H1 H2 H3]. split.
  - intros x y [->%elem_of_singleton|Hx]%elem_of_union Hxy.
    + right. apply elem_of_app. by right.
    + destruct (H1 x y Hx Hxy) as [?|[->|?]%elem_of_cons].
      * left. set_solver.
      * left. set_solver.
      * right. apply elem_of_app. by left.
  - assert (rtc (succ_step h) start nid) as Hn.
    { apply H2. right. apply list_elem_of_here. }
    intros x [[->%elem_of_singleton|Hx]%elem_of_union|[Hx|Hx]%elem_of_app].
    + done.
    + apply H2. by left.
    + apply H2. right. by apply list_elem_of_further.
    + eapply rtc_r; [exact Hn|exact Hx].
  - destruct H3 as [?|[->|?]%elem_of_cons].
    + left. set_solver.
    + left. set_solver.
    + right. apply elem_of_app. by left.
Qed.

Lemma trav_inv_final seen x :
  trav_inv h start [] seen → x ∈ seen ↔ rtc (succ_step h) start x.
Proof.
  intros Hinv. split.
  - intros Hx. apply (trav_sound _ _ _ _ Hinv). by left.
  - revert x. apply (rtc_ind_r (λ x, x ∈ seen)).
    + destruct (trav_start _ _ _ _ Hinv) as [?|Hq]; [done|by apply elem_of_nil in Hq].
    + intros y z _ Hyz IH.
      destruct (trav_closed _ _ _ _ Hinv _ _ IH Hyz) as [?|Hq]; [done|by apply elem_of_nil in Hq].
Qed.

(** The loop that computes the body of a flow. *)
Lemma body_loop_spec fuel : ∀ q body seen,
  trav_inv h start q seen → body = seen →
  length q + heap_weight h seen < fuel →
  ∃ b, body_loop fuel h q body seen = Some b
       ∧ ∀ x, x ∈ b ↔ rtc (succ_step h) start x.
Proof.
  induction fuel as [|fuel IH]; intros q body seen Hinv -> Hfuel; [lia|].
  simpl. destruct q as [|nid q].
  - eexists. split; [done|]. intros x. by apply trav_inv_final.
  - destruct (decide (nid ∈ seen)) as [Hn|Hn].
    + apply IH; [by eapply trav_inv_skip|done|]. cbn [length] in Hfuel. lia.
    + apply IH; [by apply trav_inv_visit|done|].
      pose proof (traversal_step h nid seen q (snd <$> live_successors (get h nid)) Hn) as Hs.
      rewrite length_fmap in Hs. specialize (Hs ltac:(lia)).
      cbn [length] in Hs, Hfuel. lia.
Qed.

(** The loop that collects the leaves of a flow. *)
Lemma leaves_loop_spec fuel : ∀ q leaves seen,
  trav_inv h start q seen →
  (∀ x, x ∈ leaves ↔ x ∈ seen ∧ has_successors (get h x) = false) →
  length q + heap_weight h seen < fuel →
  ∃ l, leaves_loop fuel h q leaves seen = Some l
       ∧ ∀ x, x ∈ l ↔ rtc (succ_step h) start x ∧ has_successors (get h x) = false.
Proof.
  induction fuel as [|fuel IH]; intros q leaves seen Hinv Hl Hfuel; [lia|].
  simpl. destruct q as [|nid q].
  - eexists. split; [done|]. intros x. rewrite Hl. by rewrite trav_inv_final.
  - destruct (decide (nid ∈ seen)) as [Hn|Hn].
    + apply IH; [by eapply trav_inv_skip|done|]. cbn [length] in Hfuel. lia.
    + pose proof (traversal_step h nid seen q (snd <$> live_successors (get h nid)) Hn) as Hs.
      rewrite length_fmap in Hs. specialize (Hs ltac:(lia)).
      cbn [length] in Hs, Hfuel.
      destruct (has_successors (get h nid)) eqn:Hsucc.
      * apply IH; [by apply trav_inv_visit| |lia].
        intros x. rewrite Hl, elem_of_union, elem_of_singleton.
        split; [naive_solver|]. intros [[->|?] ?]; [congruence|done].
      * assert (live_successors (get h nid) = []) as Hlive.
        { destruct (live_successors (get h nid)) eqn:E; [done|].
          rewrite has_successors_live in Hsucc; [done|by rewrite E]. }
        pose proof (trav_inv_visit nid q seen Hinv) as Hinv'.
        rewrite Hlive in Hinv', Hs. csimpl in *. rewrite app_nil_r in Hinv', Hs.
        apply IH; [done| |lia].
        intros x. rewrite !elem_of_union, !elem_of_singleton, Hl.
        split; [intros [->|[? ?]]; auto|]. intros [[->|?] ?]; auto.
Qed.
End Traversal.

Lemma flow_body_spec h fid x :
  x ∈ flow_body h fid ↔
  ∃ start, start_node (get h fid) = Some start ∧ rtc (succ_step h) start x.
Proof.
  unfold flow_body. destruct (start_node (get h fid)) as [start|]; [|set_solver].
  destruct (body_loop_spec h start (traversal_fuel h) [start] ∅ ∅)
    as (b & -> & Hb); [apply trav_inv_init|done|unfold traversal_fuel; simpl; lia|].
  simpl. rewrite Hb. naive_solver.
Qed.

(** The fuel given to the body loop is enough. *)
Lemma body_loop_total h start :
  is_Some (body_loop (traversal_fuel h) h [start] ∅ ∅).
Proof.
  destruct (body_loop_spec h start (traversal_fuel h) [start] ∅ ∅)
    as (b & -> & _); [apply trav_inv_init|done|unfold traversal_fuel; simpl; lia|eauto].
Qed.

Lemma flow_leaves_spec h start x :
  x ∈ flow_leaves h (Some start) ↔
  rtc (succ_step h) start x ∧ has_successors (get h x) = false.
Proof.
  unfold flow_leaves.
  destruct (leaves_loop_spec h start (traversal_fuel h) [start] ∅ ∅)
    as (l & -> & Hl); [apply trav_inv_init|set_solver|unfold traversal_fuel; simpl; lia|].
  simpl. by rewrite Hl.
Qed.

Lemma leaves_loop_total h start :
  is_Some (leaves_loop (traversal_fuel h) h [start] ∅ ∅).
Proof.
  destruct (leaves_loop_spec h start (traversal_fuel h) [start] ∅ ∅)
    as (l & -> & _); [apply trav_inv_init|set_solver|unfold traversal_fuel; simpl; lia|eauto].
Qed.

(** ** Bodies and containment *)

Lemma foldl_insert_lookup {V} (f : nat → V) (l : list nat) (m : gmap nat V) k :
  foldl (λ m k, <[k := f k]> m) m l !! k
  = if decide (k ∈ l) then Some (f k) else m !! k.
Proof.
  revert m. induction l as [|x l IH]; intros m; cbn [foldl].
  - by rewrite decide_False by apply not_elem_of_nil.
  - rewrite IH. destruct (decide (k ∈ l)) as [Hl|Hl].
    + by rewrite decide_True by (by apply list_elem_of_further).
    + destruct (decide (k = x)) as [->|Hx].
      * rewrite lookup_insert_eq. by rewrite decide_True by apply list_elem_of_here.
      * rewrite lookup_insert_ne by done.
        rewrite decide_False; [done|]. by intros [?|?]%elem_of_cons.
Qed.

Lemma body_of_flow_ids h d fid :
  body_of (body_by_flow_id h d) fid
  = if decide (fid ∈ flow_ids h d) then flow_body h fid else ∅.
Proof.
  unfold body_of, body_by_flow_id. rewrite foldl_insert_lookup.
  by case_decide.
Qed.

Lemma setdefault_lookup {V} (k k' : nat) (v : V) m :
  setdefault k v m !! k'
  = match m !! k' with
    | Some w => Some w
    | None => if decide (k' = k) then Some v else None
    end.
Proof.
  unfold setdefault. destruct (m !! k) as [w|] eqn:E.
  - destruct (m !! k') eqn:E'; [done|]. case_decide; [congruence|done].
  - destruct (decide (k' = k)) as [->|Hne].
    + by rewrite lookup_insert_eq, E.
    + rewrite lookup_insert_ne by done. by destruct (m !! k').
Qed.

Lemma foldl_setdefault_lookup {V} (fid : V) (l : list nat) (m : gmap nat V) k :
  foldl (λ m nid, setdefault nid fid m) m l !! k
  = match m !! k with
    | Some w => Some w
    | None => if decide (k ∈ l) then Some fid else None
    end.
Proof.
  revert m. induction l as [|x l IH]; intros m; cbn [foldl].
  - destruct (m !! k); [done|]. by rewrite decide_False by apply not_elem_of_nil.
  - rewrite IH, setdefault_lookup. destruct (m !! k); [done|].
    destruct (decide (k = x)) as [->|Hx].
    + by rewrite decide_True by apply list_elem_of_here.
    + destruct (decide (k ∈ l)).
      * by rewrite decide_True by (by apply list_elem_of_further).
      * rewrite decide_False; [done|]. by intros [?|?]%elem_of_cons.
Qed.

(** First claim: the entry of [nid] is the first flow of the list whose
    body has [nid]. *)
Lemma claim_containers_lookup (B : nat → gset nat) (fl : list nat) (m : gmap nat nat) k :
  foldl (λ m fid, foldl (λ m nid, setdefault nid fid m) m (elements (B fid))) m fl !! k
  = match m !! k with
    | Some w => Some w
    | None => head (filter (λ fid, k ∈ B fid) fl)
    end.
Proof.
  revert m. induction fl as [|fid fl IH]; intros m; cbn [foldl].
  - by destruct (m !! k).
  - rewrite IH, foldl_setdefault_lookup. destruct (m !! k); [done|].
    rewrite filter_cons. destruct (decide (k ∈ elements (B fid))) as [Hk|Hk].
    + rewrite decide_True by (by apply elem_of_elements). done.
    + rewrite decide_False; [done|]. by rewrite <- elem_of_elements.
Qed.

Lemma filter_ext_in {A} (P Q : A → Prop) `{∀ x, Decision (P x)} `{∀ x, Decision (Q x)}
    (l : list A) :
  (∀ x, x ∈ l → P x ↔ Q x) → filter P l = filter Q l.
Proof.
  induction l as [|a l IH]; intros HPQ; [done|].
  rewrite !filter_cons.
  rewrite IH by (intros x Hx; apply HPQ; by apply list_elem_of_further).
  pose proof (HPQ a (list_elem_of_here _ _)).
  destruct (decide (P a)), (decide (Q a)); naive_solver.
Qed.

Lemma container_lookup h d nid :
  container_flow_by_node_id h d !! nid
  = head (filter (λ fid, nid ∈ flow_body h fid) (flow_ids h d)).
Proof.
  unfold container_flow_by_node_id.
  rewrite (claim_containers_lookup (body_of (body_by_flow_id h d))).
  rewrite lookup_empty. f_equal.
  apply filter_ext_in. intros fid Hfid.
  rewrite body_of_flow_ids. by rewrite decide_True.
Qed.

Lemma head_filter_Some {A} (P : A → Prop) `{∀ x, Decision (P x)} (l : list A) x :
  head (filter P l) = Some x ↔
  ∃ l1 l2, l = l1 ++ x :: l2 ∧ P x ∧ ∀ y, y ∈ l1 → ¬ P y.
Proof.
  induction l as [|a l IH]; simpl.
  - split; [done|]. intros (l1 & l2 & Hl & _). by destruct l1.
  - rewrite filter_cons. destruct (decide (P a)) as [Ha|Ha]; simpl.
    + split.
      * intros [= ->]. exists [], l. split; [done|]. split; [done|].
        intros y Hy. by apply elem_of_nil in Hy.
      * intros (l1 & l2 & Hl & Hx & Hl1). destruct l1 as [|b l1]; simplify_eq/=; [done|].
        exfalso. apply (Hl1 b); [apply list_elem_of_here|done].
    + rewrite IH. split.
      * intros (l1 & l2 & -> & Hx & Hl1). exists (a :: l1), l2.
        split; [done|]. split; [done|].
        intros y [->|Hy]%elem_of_cons; auto.
      * intros (l1 & l2 & Hl & Hx & Hl1). destruct l1 as [|b l1]; simplify_eq/=; [done|].
        exists l1, l2. split; [done|]. split; [done|].
        intros y Hy. apply Hl1. by apply list_elem_of_further.
Qed.

Lemma head_filter_None {A} (P : A → Prop) `{∀ x, Decision (P x)} (l : list A) :
  head (filter P l) = None ↔ ∀ y, y ∈ l → ¬ P y.
Proof.
  rewrite head_None. split.
  - intros Hf y Hy HP. assert (y ∈ filter P l) as Hin by (by apply list_elem_of_filter).
    rewrite Hf in Hin. by apply elem_of_nil in Hin.
  - intros Hl. destruct (filter P l) as [|y ?] eqn:E; [done|].
    assert (y ∈ filter P l) as [HP Hy]%list_elem_of_filter by (rewrite E; apply list_elem_of_here).
    by destruct (Hl y Hy).
Qed.

Lemma container_Some h d nid fid :
  container_flow_by_node_id h d !! nid = Some fid →
  fid ∈ flow_ids h d ∧ nid ∈ flow_body h fid.
Proof.
  rewrite container_lookup. intros (l1 & l2 & Hl & Hb & _)%head_filter_Some.
  split; [|done]. rewrite Hl. apply elem_of_app. right. apply list_elem_of_here.
Qed.

Lemma container_None h d nid :
  container_flow_by_node_id h d !! nid = None ↔
  ∀ fid, fid ∈ flow_ids h d → nid ∉ flow_body h fid.
Proof. rewrite container_lookup. apply head_filter_None. Qed.

Lemma parent_lookup h d fid :
  parent_flow_by_flow_id h d !! fid
  = if decide (fid ∈ flow_ids h d) then
      match container_flow_by_node_id h d !! fid with
      | Some parent =>
          if bool_decide (parent ≠ fid) && isinstance_flow h (obj_by_id_get d parent)
          then Some parent else None
      | None => None
      end
    else None.
Proof.
  unfold parent_flow_by_flow_id. generalize (container_flow_by_node_id h d). intros c.
  assert (∀ l (m : gmap nat nat),
    foldl (λ m fid, match c !! fid with
                    | Some parent =>
                        if bool_decide (parent ≠ fid) && isinstance_flow h (obj_by_id_get d parent)
                        then <[fid := parent]> m else m
                    | None => m
                    end) m l !! fid
    = if decide (fid ∈ l) then
        match c !! fid with
        | Some parent =>
            if bool_decide (parent ≠ fid) && isinstance_flow h (obj_by_id_get d parent)
            then Some parent else m !! fid
        | None => m !! fid
        end
      else m !! fid) as Hgen.
  { induction l as [|x l IH]; intros m; cbn [foldl].
    - by rewrite decide_False by apply not_elem_of_nil.
    - rewrite IH. destruct (decide (fid = x)) as [->|Hne].
      + rewrite (decide_True (P := x ∈ x :: l)) by apply list_elem_of_here.
        destruct (c !! x) as [p|]; [|by case_decide].
        destruct (bool_decide (p ≠ x) && isinstance_flow h (obj_by_id_get d p)).
        * rewrite lookup_insert_eq. by case_decide.
        * by case_decide.
      + assert (m !! fid = match c !! x with
                | Some parent =>
                    if bool_decide (parent ≠ x) && isinstance_flow h (obj_by_id_get d parent)
                    then <[x := parent]> m else m
                | None => m
                end !! fid) as <-.
        { destruct (c !! x) as [p|]; [|done].
          destruct (_ && _); [by rewrite lookup_insert_ne|done]. }
        destruct (decide (fid ∈ l)).
        * by rewrite decide_True by (by apply list_elem_of_further).
        * rewrite decide_False; [done|]. by intros [?|?]%elem_of_cons. }
  rewrite Hgen, lookup_empty. case_decide; [|done].
  destruct (c !! fid); [|done]. by destruct (_ && _).
Qed.

Lemma parent_Some h d fid p :
  parent_flow_by_flow_id h d !! fid = Some p →
  container_flow_by_node_id h d !! fid = Some p ∧ p ≠ fid.
Proof.
  rewrite parent_lookup. case_decide; [|done].
  destruct (container_flow_by_node_id h d !! fid) as [q|]; [|done].
  destruct (bool_decide (q ≠ fid)) eqn:E; simpl; [|done].
  apply bool_decide_eq_true in E. destruct (isinstance_flow _ _); [|done].
  by intros [= ->].
Qed.

(** ** Exit sources *)

Lemma fold_result_inv {A B} (f : A → B → result A) (P : A → Prop) l a :
  P a → (∀ a x, x ∈ l → P a → ∃ a', f a x = Ok a' ∧ P a') →
  ∃ a', fold_result f a l = Ok a' ∧ P a'.
Proof.
  revert a. induction l as [|x l IH]; intros a Ha Hf; simpl; [eauto|].
  destruct (Hf a x (list_elem_of_here _ _) Ha) as (a' & -> & Ha'). simpl.
  apply IH; [done|]. intros a0 y Hy. apply Hf. by apply list_elem_of_further.
Qed.


Lemma heap_ids_elem h i : i ∈ heap_ids h ↔ i < length h.
Proof. unfold heap_ids. rewrite elem_of_set_seq. lia. Qed.

Lemma heap_ids_enter h (C : gset nat) oid :
  oid < length h → oid ∉ C →
  size (heap_ids h ∖ ({[oid]} ∪ C)) < size (heap_ids h ∖ C).
Proof.
  intros Hh HC. apply subset_size. apply heap_ids_elem in Hh.
  split; [set_solver|]. intros Hsub. specialize (Hsub oid). set_solver.
Qed.

Section ExitSources.
Variable lo : leaf_order.

Lemma exit_not_expanded fuel h d oid st :
_is_expanded_flow h (Some oid) = false →
_exit_source_oids lo (S fuel) h d oid st = Ok ({[oid]}, st).
Proof. intros He. cbn [_exit_source_oids]. by rewrite He. Qed.

Lemma exit_cached fuel h d oid st r :
_is_expanded_flow h (Some oid) = true → exit_cache st !! oid = Some r →
_exit_source_oids lo (S fuel) h d oid st = Ok (r, st).
Proof. intros He Hc. cbn [_exit_source_oids]. by rewrite He, Hc. Qed.

Lemma exit_in_progress fuel h d oid st :
_is_expanded_flow h (Some oid) = true → exit_cache st !! oid = None →
oid ∈ exit_computing st →
∃ rs, _real_start h oid = Some rs
      ∧ _exit_source_oids lo (S fuel) h d oid st = Ok ({[rs]}, st).
Proof.
intros He Hc Hp. pose proof He as [_ [rs Hrs]]%is_expanded_flow_spec.
exists rs. split; [done|]. cbn [_exit_source_oids]. rewrite He, Hc. cbn [negb].
rewrite decide_True by done. by rewrite Hrs.
Qed.

Lemma exit_compute fuel h d oid st :
_is_expanded_flow h (Some oid) = true → exit_cache st !! oid = None →
oid ∉ exit_computing st →
_exit_source_oids lo (S fuel) h d oid st
= '(resolved, st') ←
    fold_result (resolve_leaf h d (_exit_source_oids lo fuel h d))
      (∅, ExitState (exit_cache st) ({[oid]} ∪ exit_computing st))
      (lo oid (flow_leaves h (start_node (get h oid))));
  Ok (exit_fallback h oid resolved,
      ExitState (<[oid := exit_fallback h oid resolved]> (exit_cache st'))
                (exit_computing st' ∖ {[oid]})).
Proof.
intros He Hc Hp. cbn [_exit_source_oids]. rewrite He, Hc. cbn [negb].
rewrite decide_False by done. done.
Qed.

(** The four cases of a call. *)
Lemma exit_cases h oid st :
_is_expanded_flow h (Some oid) = false
∨ (_is_expanded_flow h (Some oid) = true ∧ is_Some (exit_cache st !! oid))
∨ (_is_expanded_flow h (Some oid) = true ∧ exit_cache st !! oid = None
   ∧ oid ∈ exit_computing st)
∨ (_is_expanded_flow h (Some oid) = true ∧ exit_cache st !! oid = None
   ∧ oid ∉ exit_computing st).
Proof.
destruct (_is_expanded_flow h (Some oid)); [|by left].
destruct (exit_cache st !! oid) eqn:Hc; [right; left; eauto|].
destruct (decide (oid ∈ exit_computing st)); [right; right; left|right; right; right]; done.
Qed.

(** The recursion ends, gives [exit_computing] back as it was, and only
  adds to the cache. *)
Lemma exit_total h d fuel : ∀ oid st,
size (heap_ids h ∖ exit_computing st) < fuel →
∃ r st', _exit_source_oids lo fuel h d oid st = Ok (r, st')
  ∧ exit_computing st' = exit_computing st
  ∧ exit_cache st ⊆ exit_cache st'
  ∧ (_is_expanded_flow h (Some oid) = true → oid ∉ exit_computing st →
     exit_cache st' !! oid = Some r).
Proof.
induction fuel as [|fuel IH]; intros oid st Hfuel; [lia|].
destruct (exit_cases h oid st) as [He|[[He [c Hc]]|[(He & Hc & Hp)|(He & Hc & Hp)]]].
- rewrite exit_not_expanded by done. eexists _, _. split; [done|].
  split; [done|]. split; [done|]. congruence.
- rewrite (exit_cached _ _ _ _ _ c) by done. eexists _, _. split; [done|].
  split; [done|]. split; [done|]. done.
- destruct (exit_in_progress fuel h d oid st) as (rs & Hrs & ->); try done.
  eexists _, _. split; [done|]. split; [done|]. split; [done|]. done.
- rewrite exit_compute by done.
  pose proof (heap_ids_enter h (exit_computing st) oid
                (is_expanded_in_heap _ _ He) Hp) as Hsize.
  destruct (fold_result_inv (resolve_leaf h d (_exit_source_oids lo fuel h d))
              (λ acc, exit_computing acc.2 = {[oid]} ∪ exit_computing st
                      ∧ exit_cache st ⊆ exit_cache acc.2)
              (lo oid (flow_leaves h (start_node (get h oid))))
              (∅, ExitState (exit_cache st) ({[oid]} ∪ exit_computing st)))
    as ([resolved st1] & -> & Hcomp & Hsub).
  + done.
  + intros [acc st1] lid _ [Hcomp Hsub]. simpl in *. unfold resolve_leaf.
    destruct (obj_by_id_get d lid) as [leaf|]; [|eauto].
    destruct (_is_expanded_flow h (Some leaf)); [|eauto].
    destruct (IH leaf st1) as (r & st2 & -> & Hc2 & Hs2 & _).
    { rewrite Hcomp. lia. }
    simpl. eexists. split; [done|]. simpl. split; [congruence|].
    by etrans.
  + simpl in *. eexists _, _. split; [done|]. simpl.
    split; [rewrite Hcomp; set_solver|].
    split; [|intros _ _; by rewrite lookup_insert_eq].
    apply map_subseteq_spec. intros k v Hk.
    destruct (decide (k = oid)) as [->|Hne]; [congruence|].
    rewrite lookup_insert_ne by done.
    by apply (proj1 (map_subseteq_spec _ _) Hsub).
Qed.

Lemma fold_result_mono {A B} (f g : A → B → result A) l a a' :
(∀ a x y, f a x = Ok y → g a x = Ok y) →
fold_result f a l = Ok a' → fold_result g a l = Ok a'.
Proof.
intros Hfg. revert a. induction l as [|x l IH]; intros a; simpl; [done|].
destruct (f a x) as [y|e] eqn:E; simpl; [|done].
rewrite (Hfg _ _ _ E). simpl. apply IH.
Qed.

Lemma resolve_leaf_mono h d call call' acc lid y :
(∀ o s z, call o s = Ok z → call' o s = Ok z) →
resolve_leaf h d call acc lid = Ok y → resolve_leaf h d call' acc lid = Ok y.
Proof.
intros Hc. unfold resolve_leaf. destruct acc as [resolved st].
destruct (obj_by_id_get d lid) as [leaf|]; [|done].
destruct (_is_expanded_flow h (Some leaf)); [|done].
destruct (call leaf st) as [z|e] eqn:E; simpl; [|done].
by rewrite (Hc _ _ _ E).
Qed.

(** More fuel does not change what a call returns. *)
Lemma exit_fuel_mono h d fuel : ∀ fuel' oid st x,
_exit_source_oids lo fuel h d oid st = Ok x → fuel ≤ fuel' →
_exit_source_oids lo fuel' h d oid st = Ok x.
Proof.
induction fuel as [|fuel IH]; intros fuel' oid st x Hx Hle; [done|].
destruct fuel' as [|fuel']; [lia|].
destruct (exit_cases h oid st) as [He|[[He [c Hc]]|[(He & Hc & Hp)|(He & Hc & Hp)]]].
- rewrite exit_not_expanded in Hx by done. by rewrite exit_not_expanded.
- rewrite (exit_cached _ _ _ _ _ c) in Hx by done. by rewrite (exit_cached _ _ _ _ _ c).
- destruct (exit_in_progress fuel h d oid st) as (rs & Hrs & Hr); try done.
  destruct (exit_in_progress fuel' h d oid st) as (rs' & Hrs' & Hr'); try done.
  congruence.
- rewrite exit_compute in Hx by done. rewrite exit_compute by done.
  destruct (fold_result _ _ _) as [[resolved st1]|e] eqn:E in Hx; simpl in Hx; [|done].
  rewrite (fold_result_mono _ (resolve_leaf h d (_exit_source_oids lo fuel' h d)) _ _ _
             ltac:(intros a l y; apply resolve_leaf_mono; intros o s z Hz;
                   apply IH; [done|lia]) E).
  exact Hx.
Qed.

(** ** The real start and the exit sources are discovered objects *)

Lemma delegates_to_child h x y : delegates_to h x y → child_step h x y.
Proof.
intros [[Hf _]%delegates_spec Hs]. left. unfold flow_start.
rewrite Hf, Hs. apply list_elem_of_here.
Qed.

Lemma real_start_visited h root d fid rs :
discovered h root d → fid ∈ visited d → is_flow (get h fid) = true →
_real_start h fid = Some rs → rs ∈ visited d.
Proof.
intros Hd Hfid Hf (x0 & Hs & Hc & _)%real_start_sound.
assert (x0 ∈ visited d) as Hx0.
{ eapply discovered_closed; [done|exact Hfid|]. left. unfold flow_start.
  rewrite Hf, Hs. apply list_elem_of_here. }
clear Hs. induction Hc as [|x y z Hxy Hyz IH]; [done|].
apply IH. eapply discovered_closed; [done|exact Hx0|]. by apply delegates_to_child.
Qed.

Lemma is_expanded_is_flow h i : _is_expanded_flow h (Some i) = true → is_flow (get h i) = true.
Proof. by intros [[? _]%delegates_spec _]%is_expanded_flow_spec. Qed.

Lemma entry_oid_visited h root d i :
discovered h root d → i ∈ visited d → _entry_oid h i ∈ visited d.
Proof.
intros Hd Hi. unfold _entry_oid.
destruct (_is_expanded_flow h (Some i)) eqn:He; [|done].
destruct (_real_start h i) as [rs|] eqn:Hr; [|done].
eapply real_start_visited; [done|exact Hi|by apply is_expanded_is_flow|done].
Qed.

Lemma exit_fallback_cases h oid resolved :
(resolved ≠ ∅ ∧ exit_fallback h oid resolved = resolved)
∨ (resolved = ∅ ∧ ∃ rs, _real_start h oid = Some rs
                        ∧ exit_fallback h oid resolved = {[rs]})
∨ (resolved = ∅ ∧ _real_start h oid = None
   ∧ exit_fallback h oid resolved = {[oid]}).
Proof.
unfold exit_fallback, set_or.
destruct (decide (resolved = ∅)) as [->|Hne].
- right. destruct (_real_start h oid) as [rs|].
  + left. split; [done|]. exists rs. split; [done|].
    rewrite decide_False; [done|]. apply non_empty_singleton_L.
  + right. by rewrite decide_True.
- left. split; [done|]. by rewrite decide_False.
Qed.

Lemma exit_visited h root d fuel : ∀ oid st r st',
discovered h root d → oid ∈ visited d → exit_cache_visited d st →
_exit_source_oids lo fuel h d oid st = Ok (r, st') →
r ⊆ visited d ∧ exit_cache_visited d st'.
Proof.
induction fuel as [|fuel IH]; intros oid st r st' Hd Hoid Hcv Hr; [done|].
destruct (exit_cases h oid st) as [He|[[He [c Hc]]|[(He & Hc & Hp)|(He & Hc & Hp)]]].
- rewrite exit_not_expanded in Hr by done. simplify_eq. split; [set_solver|done].
- rewrite (exit_cached _ _ _ _ _ c) in Hr by done. simplify_eq. split; [by eapply Hcv|done].
- destruct (exit_in_progress fuel h d oid st) as (rs & Hrs & Hr'); try done.
  rewrite Hr' in Hr. simplify_eq. split; [|done].
  apply singleton_subseteq_l.
  eapply real_start_visited; [done|exact Hoid|by apply is_expanded_is_flow|done].
- rewrite exit_compute in Hr by done.
  destruct (fold_result _ _ _) as [[resolved st1]|e] eqn:E in Hr; simpl in Hr; [|done].
  simplify_eq.
  assert (resolved ⊆ visited d ∧ exit_cache_visited d st1) as [Hres Hcv1].
  { revert E. generalize (lo oid (flow_leaves h (start_node (get h oid)))).
    intros l.
    assert (∅ ⊆ visited d ∧ exit_cache_visited d
              (ExitState (exit_cache st) ({[oid]} ∪ exit_computing st))) as Hinit
      by (split; [set_solver|done]).
    revert Hinit. generalize (ExitState (exit_cache st) ({[oid]} ∪ exit_computing st)).
    generalize (∅ : gset nat).
    induction l as [|lid l IHl]; intros acc s0 [Hacc Hs0] E; simpl in E; [by simplify_eq|].
    destruct (obj_by_id_get d lid) as [leaf|] eqn:Hleaf; simpl in E; [|by eapply IHl].
    apply obj_by_id_get_Some in Hleaf as [-> Hlid].
    destruct (_is_expanded_flow h (Some lid)); simpl in E.
    - destruct (_exit_source_oids lo fuel h d lid s0) as [[r2 s2]|e] eqn:E2; simpl in E; [|done].
      destruct (IH _ _ _ _ Hd Hlid Hs0 E2) as [Hr2 Hs2].
      eapply IHl; [|exact E]. split; [set_solver|done].
    - eapply IHl; [|exact E]. split; [set_solver|done]. }
  assert (exit_fallback h oid resolved ⊆ visited d) as Hfb.
  { destruct (exit_fallback_cases h oid resolved)
      as [[_ ->]|[(_ & rs & Hrs & ->)|(_ & _ & ->)]]; [done| |set_solver].
    apply singleton_subseteq_l.
    eapply real_start_visited; [done|exact Hoid|by apply is_expanded_is_flow|done]. }
  split; [done|]. intros k v. simpl. rewrite lookup_insert.
  case_decide; [naive_solver|apply Hcv1].
Qed.

(** A call that returns leaves [exit_computing] as it was, only adds to the
  cache, and has cached its result when it was not in progress. *)
Lemma exit_preserves h d fuel oid st r st' :
_exit_source_oids lo fuel h d oid st = Ok (r, st') →
exit_computing st' = exit_computing st
∧ exit_cache st ⊆ exit_cache st'
∧ (_is_expanded_flow h (Some oid) = true → oid ∉ exit_computing st →
   exit_cache st' !! oid = Some r).
Proof.
intros Hr.
destruct (exit_total h d (fuel + S (size (heap_ids h ∖ exit_computing st))) oid st)
  as (r' & st'' & Hr' & H1 & H2 & H3); [lia|].
rewrite (exit_fuel_mono _ _ _ _ _ _ _ Hr) in Hr' by lia. by simplify_eq.
Qed.








Lemma discover_discovered h max_nodes max_str root d :
discover h max_nodes max_str root = Ok d → discovered h root d.
Proof.
intros Hd. pose proof (discover_spec h max_nodes max_str root) as Hs.
rewrite Hd in Hs. apply Hs.
Qed.

Lemma leaf_visited h root d oid start l :
discovered h root d → oid ∈ visited d → is_flow (get h oid) = true →
start_node (get h oid) = Some start → rtc (succ_step h) start l →
l ∈ visited d.
Proof.
intros Hd Hoid Hf Hs Hl.
assert (start ∈ visited d) as Hstart.
{ eapply discovered_closed; [done|exact Hoid|]. left. unfold flow_start.
  rewrite Hf, Hs. apply list_elem_of_here. }
clear Hs. induction Hl as [|x y z Hxy Hyz IH]; [done|].
apply IH. eapply discovered_closed; [done|exact Hstart|]. by right.
Qed.

Lemma is_expanded_start h i :
_is_expanded_flow h (Some i) = true → is_Some (start_node (get h i)).
Proof. by intros [[_ ?]%delegates_spec _]%is_expanded_flow_spec. Qed.

End ExitSources.


(** ** The rewritten edges *)

Lemma add_sources_elem (re : gset (nat * string * nat)) act t (l : list nat) e :
  e ∈ foldl (λ res s, {[ (s, act, t) ]} ∪ res) re l
  ↔ e ∈ re ∨ ∃ s, s ∈ l ∧ e = (s, act, t).
Proof.
  revert re. induction l as [|x l IH]; intros re; simpl.
  - split; [auto|]. intros [?|(s & Hs & _)]; [done|by apply elem_of_nil in Hs].
  - rewrite IH, elem_of_union, elem_of_singleton. split.
    + intros [[->|?]|(s & Hs & ->)]; [right|by left|right].
      * exists x. split; [apply list_elem_of_here|done].
      * exists s. split; [by apply list_elem_of_further|done].
    + intros [?|(s & [->|Hs]%elem_of_cons & ->)]; [left; by right|left; by left|right; eauto].
Qed.

Section RewriteEdges.
Variable lo : leaf_order.

Lemma exit_result_exit_set h d fuel oid st r st' :
_exit_source_oids lo fuel h d oid st = Ok (r, st') → exit_computing st = ∅ →
r = exit_set h st' oid ∧ exit_computing st' = ∅ ∧ exit_cache st ⊆ exit_cache st'
∧ (_is_expanded_flow h (Some oid) = true → is_Some (exit_cache st' !! oid)).
Proof.
intros Hr Hc. destruct (exit_preserves _ _ _ _ _ _ _ _ Hr) as (Hc' & Hsub & Hcached).
split; [|split; [congruence|split; [done|]]].
- unfold exit_set. destruct (_is_expanded_flow h (Some oid)) eqn:He.
  + rewrite Hcached; [done|done|rewrite Hc; set_solver].
  + destruct fuel; [done|]. rewrite exit_not_expanded in Hr by done. by simplify_eq.
- intros He. rewrite Hcached; [eauto|done|rewrite Hc; set_solver].
Qed.

Lemma exit_set_stable h st st' src :
exit_cache st ⊆ exit_cache st' →
(_is_expanded_flow h (Some src) = true → is_Some (exit_cache st !! src)) →
exit_set h st' src = exit_set h st src.
Proof.
intros Hsub Hs. unfold exit_set.
destruct (_is_expanded_flow h (Some src)); [|done].
destruct Hs as [v Hv]; [done|]. rewrite Hv.
by rewrite (proj1 (map_subseteq_spec _ _) Hsub _ _ Hv).
Qed.

Lemma exit_call_stable h d st src :
(_is_expanded_flow h (Some src) = true → is_Some (exit_cache st !! src)) →
_exit_source_oids lo (exit_fuel h) h d src st = Ok (exit_set h st src, st).
Proof.
intros Hs. unfold exit_set, exit_fuel.
destruct (_is_expanded_flow h (Some src)) eqn:He.
- destruct Hs as [v Hv]; [done|]. rewrite Hv. simpl. by apply exit_cached.
- by apply exit_not_expanded.
Qed.

Lemma edge_endpoints_visited h root d src act tgt :
discovered h root d → (src, act, tgt) ∈ edges d →
src ∈ visited d ∧ tgt ∈ visited d.
Proof.
intros Hd [Hsrc Hl]%(disc_edges _ _ _ Hd). split; [done|].
eapply discovered_closed; [done|exact Hsrc|]. right.
unfold succ_step. apply list_elem_of_fmap. by exists (act, tgt).
Qed.

Lemma exit_fuel_enough h st :
exit_computing st = ∅ → size (heap_ids h ∖ exit_computing st) < exit_fuel h.
Proof.
intros ->. unfold exit_fuel, heap_ids.
rewrite difference_empty_L, size_set_seq. lia.
Qed.

Lemma rewrite_edge_visited h d re st src act tgt :
src ∈ visited d → tgt ∈ visited d →
rewrite_edge lo h d (re, st) (src, act, tgt)
= '(srcs, st) ← _exit_source_oids lo (exit_fuel h) h d src st;
  Ok (foldl (λ res s_oid, {[ (s_oid, act, _entry_oid h tgt) ]} ∪ res)
            re (elements srcs), st).
Proof.
intros Hs Ht. unfold rewrite_edge. by rewrite !obj_by_id_get_visited.
Qed.

Lemma rewrite_edges_fold h root d :
discovered h root d →
∀ l re0 st0,
(∀ e, e ∈ l → e ∈ edges d) → exit_computing st0 = ∅ → exit_cache_visited d st0 →
∃ re st, fold_result (rewrite_edge lo h d) (re0, st0) l = Ok (re, st)
  ∧ exit_computing st = ∅ ∧ exit_cache st0 ⊆ exit_cache st
  ∧ exit_cache_visited d st
  ∧ (∀ s act t, (s, act, t) ∈ re ↔
       (s, act, t) ∈ re0
       ∨ ∃ src tgt, (src, act, tgt) ∈ l ∧ s ∈ exit_set h st src
                    ∧ t = _entry_oid h tgt)
  ∧ (∀ src act tgt, (src, act, tgt) ∈ l →
       _is_expanded_flow h (Some src) = true → is_Some (exit_cache st !! src))
  ∧ (∀ s act t, (s, act, t) ∈ re → (s, act, t) ∈ re0 ∨ (s ∈ visited d ∧ t ∈ visited d)).
Proof.
intros Hd. induction l as [|[[src act] tgt] l IH]; intros re0 st0 Hl Hc Hcv.
- exists re0, st0. simpl. split; [done|]. split; [done|]. split; [done|].
  split; [done|]. split; [|split].
  + intros s a t. split; [auto|].
    intros [?|(? & ? & Hin & _)]; [done|by apply elem_of_nil in Hin].
  + intros ? ? ? Hin. by apply elem_of_nil in Hin.
  + auto.
- destruct (edge_endpoints_visited h root d src act tgt Hd) as [Hsrc Htgt].
  { apply Hl, list_elem_of_here. }
  cbn [fold_result]. rewrite rewrite_edge_visited by done.
  destruct (exit_total lo h d (exit_fuel h) src st0 (exit_fuel_enough h st0 Hc))
    as (r & st1 & Hr & _).
  rewrite Hr. simpl.
  destruct (exit_result_exit_set _ _ _ _ _ _ _ Hr Hc) as (-> & Hc1 & Hsub1 & Hcached1).
  destruct (exit_visited lo _ _ _ _ _ _ _ _ Hd Hsrc Hcv Hr) as [Hrvis Hcv1].
  destruct (IH (foldl (λ res s_oid, {[ (s_oid, act, _entry_oid h tgt) ]} ∪ res) re0
                  (elements (exit_set h st1 src))) st1)
    as (re & st & -> & Hc2 & Hsub2 & Hcv2 & Hre & Hcached2 & Hvis2); try done.
  { intros e He. apply Hl. by apply list_elem_of_further. }
  exists re, st. split; [done|]. split; [done|]. split; [by etrans|]. split; [done|].
  assert (exit_set h st src = exit_set h st1 src) as Hstable
    by (by apply exit_set_stable).
  split; [|split].
  + intros s a t. rewrite Hre, add_sources_elem. split.
    * intros [[?|(s' & Hs'%elem_of_elements & ?)]|(src' & tgt' & Hin & ? & ?)].
      -- by left.
      -- simplify_eq. right. exists src, tgt. rewrite Hstable.
         split; [apply list_elem_of_here|done].
      -- right. exists src', tgt'. split; [by apply list_elem_of_further|done].
    * intros [?|(src' & tgt' & [?|Hin]%elem_of_cons & Hs & ->)].
      -- left. by left.
      -- simplify_eq. left. right. exists s. rewrite <- Hstable, elem_of_elements. done.
      -- right. eauto.
  + intros src' a tgt' [?|Hin]%elem_of_cons He.
    * simplify_eq. destruct (Hcached1 He) as [v Hv]. exists v.
      by apply (proj1 (map_subseteq_spec _ _) Hsub2).
    * by eapply Hcached2.
  + intros s a t Hin. destruct (Hvis2 s a t Hin) as [Hold|?]; [|by right].
    apply add_sources_elem in Hold as [?|(s' & Hs'%elem_of_elements & ?)]; [by left|].
    simplify_eq. right. split; [by apply Hrvis|by eapply entry_oid_visited].
Qed.


(** The rewritten edges join discovered objects. *)
Lemma rewrite_edges_visited es h root d re st :
discovered h root d → (∀ e, e ∈ es → e ∈ edges d) →
rewrite_edges lo es h d = Ok (re, st) →
∀ s act t, (s, act, t) ∈ re → s ∈ visited d ∧ t ∈ visited d.
Proof.
intros Hd Hes Hre. unfold rewrite_edges in Hre.
destruct (rewrite_edges_fold h root d Hd es ∅ (ExitState ∅ ∅))
  as (re' & st' & Hf & _ & _ & _ & _ & _ & Hvis).
{ done. }
{ done. }
{ intros k v Hk. simpl in Hk. by rewrite lookup_empty in Hk. }
rewrite Hf in Hre. simplify_eq. intros s act t Hin.
destruct (Hvis s act t Hin) as [?|?]; [set_solver|done].
Qed.

Lemma rewrite_edges_ok es h root d :
discovered h root d → (∀ e, e ∈ es → e ∈ edges d) →
∃ re st, rewrite_edges lo es h d = Ok (re, st).
Proof.
intros Hd Hes. unfold rewrite_edges.
destruct (rewrite_edges_fold h root d Hd es ∅ (ExitState ∅ ∅))
  as (re' & st' & Hf & _); eauto.
intros k v Hk. simpl in Hk. by rewrite lookup_empty in Hk.
Qed.

Lemma elements_edges_sub (X : gset edge) e : e ∈ elements X → e ∈ X.
Proof. by rewrite elem_of_elements. Qed.





End RewriteEdges.


(** ** The buckets of edges *)

Lemma map_result_ok {A B} (f : A → result B) (l : list A) :
  (∀ x, x ∈ l → is_ok (f x)) →
  ∃ ys, map_result f l = Ok ys ∧ Forall2 (λ x y, f x = Ok y) l ys.
Proof.
  induction l as [|x l IH]; intros Hf; simpl; [eauto|].
  pose proof (Hf x (list_elem_of_here _ _)) as Hx.
  destruct (f x) as [y|e] eqn:E; [|done]. simpl.
  destruct IH as (ys & -> & Hys).
  { intros z Hz. apply Hf. by apply list_elem_of_further. }
  simpl. eexists. split; [done|]. by constructor.
Qed.

Lemma edge_key_ok h root d e :
  discovered h root d → e.1.1 ∈ visited d → e.2 ∈ visited d →
  ∃ k, edge_key (order_index_by_obj_id d) e = Ok k.
Proof.
  intros Hd Hs Ht. unfold edge_key.
  destruct (getitem_ok (order_index_by_obj_id d) e.1.1) as (i & -> & _).
  { by eapply order_index_is_Some. }
  destruct (getitem_ok (order_index_by_obj_id d) e.2) as (j & -> & _).
  { by eapply order_index_is_Some. }
  simpl. eauto.
Qed.

Lemma keyed_snd {A K} (f : A → result K) (l : list A) (ys : list (K * A)) :
  Forall2 (λ x y, (k ← f x; Ok (k, x)) = Ok y) l ys → ys.*2 = l.
Proof.
  induction 1 as [|x y l ys Hxy _ IH]; [done|]. csimpl. rewrite IH. f_equal.
  destruct (f x); simpl in Hxy; by simplify_eq.
Qed.

Lemma sort_bucket_ok h root d bucket :
  discovered h root d →
  (∀ e, e ∈ bucket → e.1.1 ∈ visited d ∧ e.2 ∈ visited d) →
  ∃ sorted, sort_bucket (order_index_by_obj_id d) bucket = Ok sorted
            ∧ sorted ≡ₚ bucket.
Proof.
  intros Hd Hb. unfold sort_bucket.
  destruct (map_result_ok (λ e, k ← edge_key (order_index_by_obj_id d) e; Ok (k, e)) bucket)
    as (keyed & -> & Hk).
  { intros e [Hs Ht]%Hb. destruct (edge_key_ok h root d e Hd Hs Ht) as [k ->]. done. }
  simpl. eexists. split; [done|].
  rewrite merge_sort_Permutation. by rewrite (keyed_snd _ _ _ Hk).
Qed.

Lemma bucket_edges_elem (containers parents : gmap nat nat)
    (re : gset (nat * string * nat)) c l e :
  bucket_edges containers parents re !! c = Some l → e ∈ l → e ∈ re.
Proof.
  unfold bucket_edges. intros Hl He.
  assert (∀ (es : list (nat * string * nat)) (m : gmap (option nat) (list (nat * string * nat))),
            (∀ c l e, m !! c = Some l → e ∈ l → e ∈ re) →
            (∀ e, e ∈ es → e ∈ re) →
            ∀ c l e,
              foldl (λ m e, let c := _edge_container containers parents e.1.1 e.2 in
                            <[c := default [] (m !! c) ++ [e]]> m) m es !! c = Some l →
              e ∈ l → e ∈ re) as Hgen.
  { clear. induction es as [|x es IH]; intros m Hm Hes c l e; simpl; [apply Hm|].
    apply IH.
    - intros c' l' e'. rewrite lookup_insert. case_decide as Hc.
      + intros [= <-] [Hin| ->%list_elem_of_singleton]%elem_of_app.
        * destruct (m !! _) as [l0|] eqn:E; simpl in Hin; [by eapply Hm|].
          by apply elem_of_nil in Hin.
        * apply Hes, list_elem_of_here.
      + apply Hm.
    - intros e' He'. apply Hes. by apply list_elem_of_further. }
  eapply (Hgen (elements re) ∅); [| |exact Hl|exact He].
  - intros ? ? ?. by rewrite lookup_empty.
  - intros e'. by rewrite elem_of_elements.
Qed.

Lemma edges_by_container_ok (h : list obj) (root : nat) (d : discovery)
    (containers parents : gmap nat nat)
    (re : gset (nat * string * nat)) :
  discovered h root d →
  (∀ s act t, (s, act, t) ∈ re → s ∈ visited d ∧ t ∈ visited d) →
  ∃ buckets, edges_by_container (order_index_by_obj_id d) containers parents re
             = Ok buckets
    ∧ (∀ c l e, buckets !! c = Some l → e ∈ l → e ∈ re)
    ∧ buckets_visited d buckets.
Proof.
  intros Hd Hre. unfold edges_by_container.
  destruct (fold_result_inv
    (λ m '(c, bucket), sorted ← sort_bucket (order_index_by_obj_id d) bucket;
                       Ok (<[c := sorted]> m))
    (λ m : gmap (option nat) (list (nat * string * nat)),
       ∀ c l e, m !! c = Some l → e ∈ l → e ∈ re)
    (map_to_list (bucket_edges containers parents re)) ∅)
    as (buckets & -> & Hb).
  - intros ? ? ?. by rewrite lookup_empty.
  - intros m [c bucket] Hin%elem_of_map_to_list Hm.
    destruct (sort_bucket_ok h root d bucket Hd) as (sorted & -> & Hperm).
    { intros [[s act] t] He. apply (Hre s act t).
      by eapply bucket_edges_elem. }
    simpl. eexists. split; [done|].
    intros c' l' e'. rewrite lookup_insert. case_decide.
    + intros [= <-] He. rewrite Hperm in He. by eapply bucket_edges_elem.
    + apply Hm.
  - exists buckets. split; [done|]. split; [done|].
    intros c l [[s act] t] Hl He. apply (Hre s act t). by eapply Hb.
Qed.

(** ** Containers above an object *)

Lemma contained_in_det (c : gmap nat nat) x y z :
  contained_in c x y → contained_in c x z → y = z.
Proof. unfold contained_in. congruence. Qed.

Lemma up_det (c : gmap nat nat) k : ∀ x y z,
  nsteps (contained_in c) k x y → nsteps (contained_in c) k x z → y = z.
Proof.
  induction k as [|k IH]; intros x y z Hy Hz.
  - inversion Hy; inversion Hz; congruence.
  - inversion Hy as [|? ? y' ? Hxy Hy']; inversion Hz as [|? ? z' ? Hxz Hz']; subst.
    rewrite (contained_in_det _ _ _ _ Hxy Hxz) in Hy'. by eapply IH.
Qed.

(** Two objects above [g], the lower one first: the next container of the
    lower one is on the way to the upper one. *)
Lemma up_between (c : gmap nat nat) k1 k2 g a b t :
  nsteps (contained_in c) k1 g a → nsteps (contained_in c) k2 g b →
  k1 < k2 → c !! a = Some t →
  nsteps (contained_in c) (S k1) g t.
Proof.
  intros Ha Hb Hlt Hat.
  eapply nsteps_r; [exact Ha|exact Hat].
Qed.

Lemma up_has_next (c : gmap nat nat) k1 k2 g a b :
  nsteps (contained_in c) k1 g a → nsteps (contained_in c) k2 g b →
  k1 < k2 → is_Some (c !! a).
Proof.
  intros Ha Hb Hlt.
  replace k2 with (k1 + S (k2 - S k1)) in Hb by lia.
  apply nsteps_add_inv in Hb as (a' & Ha' & Hrest).
  rewrite (up_det _ _ _ _ _ Ha' Ha) in Hrest.
  inversion Hrest as [|? ? t ? Hat _]; subst. by exists t.
Qed.

(** The blocks inside two different children of a flow on the stack are
    different. *)
Lemma below_disjoint (c : gmap nat nat) (stk : gset nat) t c1 c2 g :
  c !! c1 = Some t → c !! c2 = Some t → t ∈ stk → c1 ≠ c2 →
  below c stk c1 g → below c stk c2 g → False.
Proof.
  intros H1 H2 Ht Hne (k1 & Hk1 & Ha1) (k2 & Hk2 & Ha2).
  destruct (lt_eq_lt_dec k1 k2) as [[Hlt| ->]|Hlt].
  - apply (Ha2 (S k1) t); [lia| |done].
    eapply nsteps_r; [exact Hk1|exact H1].
  - apply Hne. by eapply up_det.
  - apply (Ha1 (S k2) t); [lia| |done].
    eapply nsteps_r; [exact Hk2|exact H2].
Qed.

Lemma below_child (c : gmap nat nat) (stk : gset nat) t child g :
  c !! child = Some t → t ∉ stk →
  below c ({[t]} ∪ stk) child g → below c stk t g.
Proof.
  intros Hc Ht (k & Hk & Ha). exists (S k). split.
  - eapply nsteps_r; [exact Hk|exact Hc].
  - intros j x Hj Hx. destruct (decide (j = S k)) as [->|Hne].
    + assert (nsteps (contained_in c) (S k) g t) as Hgt
        by (eapply nsteps_r; [exact Hk|exact Hc]).
      by rewrite (up_det _ _ _ _ _ Hx Hgt).
    + specialize (Ha j x ltac:(lia) Hx). set_solver.
Qed.

Lemma below_self (c : gmap nat nat) (stk : gset nat) t : t ∉ stk → below c stk t t.
Proof.
  intros Ht. exists 0. split; [constructor|].
  intros j x Hj Hx. assert (j = 0) as -> by lia. by inversion Hx; subst.
Qed.

Lemma below_not_stack (c : gmap nat nat) (stk : gset nat) t g : below c stk t g → g ∉ stk.
Proof. intros (k & _ & Ha). apply (Ha 0 g); [lia|constructor]. Qed.

(** Two flows without a container hold different blocks. *)
Lemma below_top_disjoint (c : gmap nat nat) f1 f2 g :
  c !! f1 = None → c !! f2 = None →
  below c ∅ f1 g → below c ∅ f2 g → f1 = f2.
Proof.
  intros H1 H2 (k1 & Hk1 & _) (k2 & Hk2 & _).
  destruct (lt_eq_lt_dec k1 k2) as [[Hlt| ->]|Hlt].
  - destruct (up_has_next _ _ _ _ _ _ Hk1 Hk2 Hlt) as [? ?]. congruence.
  - by eapply up_det.
  - destruct (up_has_next _ _ _ _ _ _ Hk2 Hk1 Hlt) as [? ?]. congruence.
Qed.

(** A block of the entry flow that is also inside a flow without a
    container: the entry flow has a container. *)
Lemma below_root_top (c : gmap nat nat) root f g :
  c !! f = None → root ≠ f →
  below c ∅ root g → below c ∅ f g → is_Some (c !! root).
Proof.
  intros Hf Hne (k1 & Hk1 & _) (k2 & Hk2 & _).
  destruct (lt_eq_lt_dec k1 k2) as [[Hlt| ->]|Hlt].
  - by eapply up_has_next.
  - destruct Hne. by eapply up_det.
  - destruct (up_has_next _ _ _ _ _ _ Hk2 Hk1 Hlt) as [? ?]. congruence.
Qed.

(** ** The rendering steps *)

Lemma subgraph_ids_app l1 l2 :
  subgraph_ids (l1 ++ l2) = subgraph_ids l1 ++ subgraph_ids l2.
Proof. apply omap_app. Qed.

Lemma quiet_step_refl st : quiet_step st st.
Proof. split; [done|]. split; [done|]. exists []. by rewrite app_nil_r. Qed.

Lemma quiet_step_trans st1 st2 st3 :
  quiet_step st1 st2 → quiet_step st2 st3 → quiet_step st1 st3.
Proof.
  intros (?&?&a1&Hl1&Ha1) (?&?&a2&Hl2&Ha2).
  split; [congruence|]. split; [congruence|]. exists (a1 ++ a2).
  rewrite Hl2, Hl1, <- app_assoc, subgraph_ids_app, Ha1, Ha2. done.
Qed.

Lemma fold_quiet {B} (f : rstate → B → result rstate) l st :
  (∀ st x, x ∈ l → ∃ st', f st x = Ok st' ∧ quiet_step st st') →
  ∃ st', fold_result f st l = Ok st' ∧ quiet_step st st'.
Proof.
  intros Hf. apply (fold_result_inv f (quiet_step st)); [apply quiet_step_refl|].
  intros a x Hx Ha. destruct (Hf a x Hx) as (a' & -> & Hq).
  exists a'. split; [done|]. by eapply quiet_step_trans.
Qed.

Section RenderSteps.
Variables (h : list obj) (root : nat) (d : discovery).
Variable names_by_id : gmap nat (list string).
Variable show_default : bool.
Hypothesis Hd : discovered h root d.

Lemma emit_node_def_ok indent st oid :
  oid ∈ visited d →
  ∃ st', emit_node_def h d names_by_id indent st oid = Ok st' ∧ quiet_step st st'.
Proof.
  intros Hv. unfold emit_node_def.
  destruct (getitem_ok (mermaid_id_by_obj_id d) oid) as (mid & -> & _).
  { by eapply mermaid_id_is_Some. }
  simpl. unfold obj_by_id_getitem. rewrite obj_by_id_get_visited by done. simpl.
  destruct (_label_for h names_by_id oid (label_st st)) as [label ls].
  eexists. split; [done|]. split; [done|]. split; [done|]. simpl. eauto.
Qed.

Lemma emit_edge_line_ok indent st (e : nat * string * nat) :
  e.1.1 ∈ visited d → e.2 ∈ visited d →
  ∃ st', emit_edge_line d show_default indent st e = Ok st' ∧ quiet_step st st'.
Proof.
  intros Hs Ht. unfold emit_edge_line.
  destruct (getitem_ok (mermaid_id_by_obj_id d) e.1.1) as (s & -> & _).
  { by eapply mermaid_id_is_Some. }
  destruct (getitem_ok (mermaid_id_by_obj_id d) e.2) as (t & -> & _).
  { by eapply mermaid_id_is_Some. }
  simpl. eexists. split; [done|]. split; [done|]. split; [done|]. simpl.
  eexists. split; [done|]. by destruct (bool_decide _ && negb _).
Qed.

Lemma sort_by_order_ok (l : list nat) :
  (∀ x, x ∈ l → x ∈ visited d) →
  ∃ l', sort_by_order (order_index_by_obj_id d) l = Ok l' ∧ l' ≡ₚ l.
Proof.
  intros Hl. unfold sort_by_order.
  destruct (map_result_ok (λ o, i ← getitem (order_index_by_obj_id d) o; Ok (i, o)) l)
    as (keyed & -> & Hk).
  { intros x Hx%Hl. destruct (getitem_ok (order_index_by_obj_id d) x) as (i & -> & _).
    - by eapply order_index_is_Some.
    - done. }
  simpl. eexists. split; [done|].
  rewrite merge_sort_Permutation. by rewrite (keyed_snd _ _ _ Hk).
Qed.
End RenderSteps.

Lemma renders_quiet d st st' : quiet_step st st' → renders d st st' [].
Proof.
  intros (Hr & Hs & a & Hl & Ha). split; [done|]. split; [simpl; set_solver|].
  by exists a.
Qed.

Lemma renders_trans d st1 st2 st3 T1 T2 :
  renders d st1 st2 T1 → renders d st2 st3 T2 → renders d st1 st3 (T1 ++ T2).
Proof.
  intros (Hs1 & Hr1 & a1 & Hl1 & Ha1) (Hs2 & Hr2 & a2 & Hl2 & Ha2).
  split; [congruence|]. split.
  - rewrite Hr2, Hr1, list_to_set_app_L. set_solver.
  - exists (a1 ++ a2).
    rewrite Hl2, Hl1, <- app_assoc, subgraph_ids_app, Ha1, Ha2, fmap_app. done.
Qed.

Section RenderFlow.
Variables (h : list obj) (root : nat) (d : discovery).
Variable names_by_id : gmap nat (list string).
Variable show_default : bool.
Variable bodies : gmap nat (gset nat).
Variable containers : gmap nat nat.
Variable expanded : gset nat.
Variable buckets : gmap (option nat) (list (nat * string * nat)).
Hypothesis Hd : discovered h root d.
Hypothesis Hexp : ∀ f, f ∈ expanded → f ∈ visited d.
Hypothesis Hbody : ∀ fid x, x ∈ body_of bodies fid → x ∈ visited d.
Hypothesis Hbuck : buckets_visited d buckets.

Local Abbreviation render :=
  (_render_flow h d names_by_id show_default bodies containers expanded buckets).

Lemma render_flow_on_stack fuel fid indent st :
  fid ∈ rendering_stack st → render (S fuel) fid indent st = Ok st.
Proof. intros Hs. cbn [_render_flow]. by rewrite decide_True. Qed.

Lemma bucket_edges_ok indent st c :
  ∃ st', fold_result (emit_edge_line d show_default indent) st
           (default [] (buckets !! c)) = Ok st' ∧ quiet_step st st'.
Proof.
  apply fold_quiet. intros s e He.
  destruct (buckets !! c) as [l|] eqn:E; simpl in He; [|by apply elem_of_nil in He].
  destruct (Hbuck c l e E He) as [? ?]. by eapply emit_edge_line_ok.
Qed.

Lemma child_flow_spec fid nid :
  is_child_flow h d containers expanded fid nid = true →
  nid ∈ expanded ∧ containers !! nid = Some fid.
Proof.
  unfold is_child_flow. rewrite !andb_true_iff, !bool_decide_eq_true. naive_solver.
Qed.

(** The loop over the children of [fid], given what a nested call does. *)
Lemma render_children fuel fid indent (stk : gset nat) :
  fid ∉ stk →
  (∀ c ind st, c ∈ expanded → rendering_stack st = {[fid]} ∪ stk →
     ∃ st' Tr, render fuel c ind st = Ok st' ∧ renders d st st' Tr ∧ NoDup Tr
       ∧ ∀ g, g ∈ Tr → below containers ({[fid]} ∪ stk) c g ∧ g ∈ expanded) →
  ∀ cs st,
  NoDup cs → (∀ c, c ∈ cs → c ∈ expanded ∧ containers !! c = Some fid) →
  rendering_stack st = {[fid]} ∪ stk →
  ∃ st' Tr,
    fold_result (λ st c, render fuel c indent st) st cs = Ok st'
    ∧ renders d st st' Tr ∧ NoDup Tr
    ∧ ∀ g, g ∈ Tr → g ∈ expanded
           ∧ ∃ c, c ∈ cs ∧ below containers ({[fid]} ∪ stk) c g.
Proof.
  intros Hfid Hcall. induction cs as [|c cs IH]; intros st Hnd Hcs Hst.
  - exists st, []. simpl. split; [done|]. split; [by apply renders_quiet, quiet_step_refl|].
    split; [constructor|]. intros g Hg. by apply elem_of_nil in Hg.
  - apply NoDup_cons in Hnd as [Hc Hnd].
    destruct (Hcs c (list_elem_of_here _ _)) as [Hce Hcc].
    destruct (Hcall c indent st Hce Hst) as (st1 & T1 & Hr1 & Hren1 & Hnd1 & Hb1).
    destruct (IH st1 Hnd) as (st2 & T2 & Hr2 & Hren2 & Hnd2 & Hb2).
    { intros c' Hc'. apply Hcs. by apply list_elem_of_further. }
    { destruct Hren1 as [-> _]. done. }
    exists st2, (T1 ++ T2). cbn [fold_result]. rewrite Hr1. simpl.
    split; [done|]. split; [by eapply renders_trans|]. split.
    + apply NoDup_app. split; [done|]. split; [|done].
      intros g Hg1 Hg2. destruct (Hb1 g Hg1) as [Hbel1 _].
      destruct (Hb2 g Hg2) as (_ & c' & Hc' & Hbel2).
      destruct (Hcs c' (list_elem_of_further _ _ _ Hc')) as [_ Hcc'].
      eapply (below_disjoint containers ({[fid]} ∪ stk) fid c c' g); try done.
      * set_solver.
      * intros ->. done.
    + intros g [Hg|Hg]%elem_of_app.
      * destruct (Hb1 g Hg) as [? ?]. split; [done|]. exists c.
        split; [apply list_elem_of_here|done].
      * destruct (Hb2 g Hg) as (? & c' & ? & ?). split; [done|]. exists c'.
        split; [by apply list_elem_of_further|done].
Qed.

Lemma render_flow_spec fuel : ∀ fid indent st,
  fid ∈ expanded → rendering_stack st ⊆ expanded →
  size expanded < fuel + size (rendering_stack st) →
  ∃ st' Tr, render fuel fid indent st = Ok st' ∧ renders d st st' Tr ∧ NoDup Tr
    ∧ (∀ g, g ∈ Tr → below containers (rendering_stack st) fid g ∧ g ∈ expanded)
    ∧ (fid ∉ rendering_stack st → fid ∈ Tr).
Proof.
  induction fuel as [|fuel IH]; intros fid indent st Hfid Hstk Hfuel.
  { pose proof (subseteq_size _ _ Hstk). simpl in Hfuel. lia. }
  destruct (decide (fid ∈ rendering_stack st)) as [Hon|Hoff].
  { rewrite render_flow_on_stack by done. exists st, [].
    split; [done|]. split; [by apply renders_quiet, quiet_step_refl|].
    split; [constructor|]. split; [|done]. intros g Hg. by apply elem_of_nil in Hg. }
  cbn [_render_flow]. rewrite decide_False by done.
  unfold obj_by_id_getitem. rewrite obj_by_id_get_visited by (by apply Hexp). simpl.
  destruct (getitem_ok (mermaid_id_by_obj_id d) fid) as (mid & -> & Hmid).
  { eapply mermaid_id_is_Some; [done|by apply Hexp]. }
  simpl. destruct (_label_for h names_by_id fid (label_st st)) as [label ls].
  (* the children and the nodes of the body *)
  destruct (sort_by_order_ok h root d Hd
              (filter (λ nid, is_child_flow h d containers expanded fid nid = true)
                      (elements (body_of bodies fid))))
    as (children & -> & Hchildren).
  { intros x [_ Hx%elem_of_elements]%list_elem_of_filter. by eapply Hbody. }
  simpl.
  destruct (sort_by_order_ok h root d Hd
              (filter (λ nid, is_direct_node h d containers fid nid = true)
                      (elements (body_of bodies fid))))
    as (nodes & -> & Hnodes).
  { intros x [_ Hx%elem_of_elements]%list_elem_of_filter. by eapply Hbody. }
  simpl.
  set (st0 := RState (lines st ++ [LSubgraph indent ("subflow_" +:+ mid) (_escape label false)])
                (rendered_flows st) ({[fid]} ∪ rendering_stack st) ls).
  destruct (fold_quiet (emit_node_def h d names_by_id (indent +:+ "  ")) nodes st0)
    as (st1 & -> & Hq1).
  { intros s x Hx. eapply emit_node_def_ok; [done|].
    rewrite Hnodes in Hx. apply list_elem_of_filter in Hx as [_ Hx%elem_of_elements].
    by eapply Hbody. }
  simpl.
  destruct (render_children fuel fid (indent +:+ "  ") (rendering_stack st) Hoff)
    with (cs := children) (st := st1) as (st2 & Tc & -> & Hren2 & Hnd2 & Hb2).
  { intros c ind s Hc Hs. rewrite <- Hs.
    destruct (IH c ind s) as (s' & T' & ? & ? & ? & ? & _); [done| | |by exists s', T'].
    - rewrite Hs. set_solver.
    - rewrite Hs, size_union, size_singleton by set_solver. lia. }
  { rewrite Hchildren. apply NoDup_filter, NoDup_elements. }
  { intros c Hc. rewrite Hchildren in Hc.
    apply list_elem_of_filter in Hc as [Hc _]. by apply child_flow_spec. }
  { destruct Hq1 as (_ & -> & _). done. }
  simpl.
  destruct (bucket_edges_ok (indent +:+ "  ") st2 (Some fid)) as (st3 & -> & Hq3).
  simpl. eexists _, (fid :: Tc). split; [done|].
  destruct Hq1 as (Hr1 & Hs1 & a1 & Hl1 & Ha1).
  destruct Hren2 as (Hs2 & Hr2 & a2 & Hl2 & Ha2).
  destruct Hq3 as (Hr3 & Hs3 & a3 & Hl3 & Ha3).
  split; [|split; [|split]].
  - split; [|split]; simpl.
    + rewrite Hs3, Hs2, Hs1. simpl. set_solver.
    + rewrite Hr3, Hr2, Hr1. simpl. set_solver.
    + exists ([LSubgraph indent ("subflow_" +:+ mid) (_escape label false)]
              ++ a1 ++ a2 ++ a3 ++ [LEnd indent]).
      split.
      * rewrite Hl3, Hl2, Hl1. simpl. by rewrite <- !app_assoc.
      * rewrite !subgraph_ids_app, Ha1, Ha2, Ha3. simpl.
        rewrite app_nil_r. unfold sub_id_of. by rewrite Hmid.
  - apply NoDup_cons. split; [|done]. intros Hin.
    destruct (Hb2 fid Hin) as (_ & c & _ & Hbel%below_not_stack). set_solver.
  - intros g [->|Hg]%elem_of_cons.
    + split; [by apply below_self|done].
    + destruct (Hb2 g Hg) as (Hge & c & Hc & Hbel). split; [|done].
      rewrite Hchildren in Hc. apply list_elem_of_filter in Hc as [[_ Hcc]%child_flow_spec _].
      by eapply below_child.
  - intros _. apply list_elem_of_here.
Qed.
End RenderFlow.

(** ** The top level of the rendering *)

(** When the entry flow has a container, every discovered object has one. *)
Lemma root_container_all h root d x :
  discovered h root d →
  is_Some (container_flow_by_node_id h d !! root) →
  x ∈ visited d → is_Some (container_flow_by_node_id h d !! x).
Proof.
  intros Hd Hroot Hx. apply (disc_reach _ _ _ Hd) in Hx. unfold reachable in Hx.
  revert x Hx. apply (rtc_ind_r (λ x, is_Some (container_flow_by_node_id h d !! x))); [done|].
  intros y z Hy%(disc_reach _ _ _ Hd) Hyz [F HF].
  apply container_Some in HF as [HF Hbody].
  apply not_eq_None_Some. intros Hnone. rewrite container_None in Hnone.
  destruct Hyz as [Hstart|Hsucc].
  - unfold flow_start in Hstart. destruct (is_flow (get h y)) eqn:Hf; [|by apply elem_of_nil in Hstart].
    destruct (start_node (get h y)) as [sn|] eqn:Hs; [|by apply elem_of_nil in Hstart].
    apply list_elem_of_singleton in Hstart as ->.
    apply (Hnone y).
    + apply elem_of_flow_ids. split; [by eapply elem_of_visit_order|done].
    + apply flow_body_spec. exists sn. split; [done|constructor].
  - apply (Hnone F HF). apply flow_body_spec in Hbody as (s & Hs & Hsy).
    apply flow_body_spec. exists s. split; [done|]. by eapply rtc_r.
Qed.

Section RenderTop.
Variables (h : list obj) (root : nat) (d : discovery).
Variable names_by_id : gmap nat (list string).
Variable show_default : bool.
Variable bodies : gmap nat (gset nat).
Variable containers : gmap nat nat.
Variable expanded : gset nat.
Variable buckets : gmap (option nat) (list (nat * string * nat)).
Hypothesis Hd : discovered h root d.
Hypothesis Hexp : ∀ f, f ∈ expanded → f ∈ visited d.
Hypothesis Hbody : ∀ fid x, x ∈ body_of bodies fid → x ∈ visited d.
Hypothesis Hbuck : buckets_visited d buckets.
Hypothesis Hroot : is_Some (containers !! root) →
                   ∀ f, f ∈ flow_ids h d → is_Some (containers !! f).

Local Abbreviation render :=
  (_render_flow h d names_by_id show_default bodies containers expanded buckets).

Lemma render_top_call fid st :
  fid ∈ expanded → rendering_stack st = ∅ →
  ∃ st' Tr, render (render_fuel expanded) fid "  " st = Ok st'
    ∧ renders d st st' Tr ∧ NoDup Tr
    ∧ (∀ g, g ∈ Tr → below containers ∅ fid g)
    ∧ fid ∈ Tr ∧ (∀ g, g ∈ Tr → g ∈ expanded).
Proof.
  intros Hfid Hs.
  destruct (render_flow_spec h root d names_by_id show_default bodies containers
              expanded buckets Hd Hexp Hbody Hbuck (render_fuel expanded) fid "  " st)
    as (st' & Tr & Hr & Hren & Hnd & Hb & Hin); [done|rewrite Hs; set_solver| |].
  { unfold render_fuel. lia. }
  exists st', Tr. split; [done|]. split; [done|]. split; [done|]. split; [|split].
  - intros g Hg. destruct (Hb g Hg) as [Hbel _]. by rewrite Hs in Hbel.
  - apply Hin. rewrite Hs. set_solver.
  - intros g Hg. by destruct (Hb g Hg).
Qed.

Lemma top_trace_root Tr :
  (∀ g, g ∈ Tr → below containers ∅ root g) → top_trace containers root Tr.
Proof. intros Hb g Hg. left. by apply Hb. Qed.

(** The loop over [flow_ids] that renders the flows without a container. *)
Lemma render_top_loop st0 : ∀ fl st T,
  (∀ f, f ∈ fl → f ∈ flow_ids h d) →
  rendering_stack st = ∅ → renders d st0 st T → NoDup T →
  top_trace containers root T → (∀ g, g ∈ T → g ∈ expanded) →
  ∃ st' T',
    fold_result
      (λ st fid,
         if bool_decide (fid ≠ root) && bool_decide (fid ∈ expanded)
            && bool_decide (containers !! fid = None)
            && bool_decide (fid ∉ rendered_flows st)
         then render (render_fuel expanded) fid "  " st
         else Ok st) st fl = Ok st'
    ∧ renders d st0 st' T' ∧ NoDup T' ∧ top_trace containers root T'
    ∧ (∀ g, g ∈ T' → g ∈ expanded).
Proof.
  induction fl as [|fid fl IH]; intros st T Hfl Hs Hren Hnd Htop HTe.
  { exists st, T. done. }
  cbn [fold_result].
  destruct (bool_decide (fid ≠ root) && bool_decide (fid ∈ expanded)
            && bool_decide (containers !! fid = None)
            && bool_decide (fid ∉ rendered_flows st)) eqn:Hcond.
  - apply andb_true_iff in Hcond as [[[Hne He]%andb_true_iff Hc]%andb_true_iff Hr].
    apply bool_decide_eq_true in Hne, He, Hc, Hr.
    destruct (render_top_call fid st He Hs)
      as (st1 & T1 & -> & Hren1 & Hnd1 & Hb1 & Hin1 & HT1).
    cbn [mbind result_mbind result_bind]. apply (IH st1 (T ++ T1)).
    + intros f Hf. apply Hfl. by apply list_elem_of_further.
    + destruct Hren1 as [-> _]. done.
    + by eapply renders_trans.
    + apply NoDup_app. split; [done|]. split; [|done].
      intros g Hg Hg1. specialize (Hb1 g Hg1).
      destruct (Htop g Hg) as [Hroot_g|(f & Hf & Hfc & Hfg)].
      * (* a block of the entry flow inside a flow without a container *)
        destruct (Hroot (below_root_top containers root fid g Hc
                           ltac:(congruence) Hroot_g Hb1) fid) as [? ?].
        { apply Hfl, list_elem_of_here. }
        congruence.
      * assert (f = fid) as -> by (by eapply below_top_disjoint).
        apply Hr. destruct Hren as (_ & -> & _).
        apply elem_of_union. right. by apply elem_of_list_to_set.
    + intros g [Hg|Hg]%elem_of_app.
      * destruct (Htop g Hg) as [?|(f & Hf & ? & ?)]; [by left|].
        right. exists f. split; [apply elem_of_app; by left|done].
      * right. exists fid. split; [apply elem_of_app; by right|]. split; [done|by apply Hb1].
    + intros g [Hg|Hg]%elem_of_app; auto.
  - cbn [mbind result_mbind result_bind]. apply (IH st T); try done.
    intros f Hf. apply Hfl. by apply list_elem_of_further.
Qed.

Lemma render_top_flows_ok st :
  rendering_stack st = ∅ →
  ∃ st' T,
    render_top_flows h d names_by_id show_default bodies containers expanded
      buckets root st = Ok st'
    ∧ renders d st st' T ∧ NoDup T ∧ (∀ g, g ∈ T → g ∈ expanded).
Proof.
  intros Hs. unfold render_top_flows.
  destruct (decide (root ∈ expanded)) as [He|He].
  - destruct (render_top_call root st He Hs)
      as (st1 & T1 & -> & Hren1 & Hnd1 & Hb1 & _ & HT1).
    cbn [mbind result_mbind result_bind].
    destruct (render_top_loop st (flow_ids h d) st1 T1) as (st2 & T2 & -> & ? & ? & _ & ?);
      try done.
    + destruct Hren1 as [-> _]. done.
    + by apply top_trace_root.
    + by exists st2, T2.
  - cbn [mbind result_mbind result_bind].
    destruct (render_top_loop st (flow_ids h d) st []) as (st2 & T2 & -> & ? & ? & _ & ?);
      try done.
    + by apply renders_quiet, quiet_step_refl.
    + constructor.
    + intros g Hg. by apply elem_of_nil in Hg.
    + intros g Hg. by apply elem_of_nil in Hg.
    + by exists st2, T2.
Qed.

Lemma render_top_nodes_ok st :
  ∃ st', render_top_nodes h d names_by_id containers st = Ok st'
         ∧ quiet_step st st'.
Proof.
  unfold render_top_nodes. apply fold_quiet. intros s oid Hoid.
  destruct (negb _ && _).
  - eapply emit_node_def_ok; [done|]. by eapply elem_of_visit_order.
  - exists s. split; [done|apply quiet_step_refl].
Qed.
End RenderTop.

(** ** The highlight block *)

Lemma add_warnings_nil st : add_warnings [] st = st.
Proof.
  destruct st as [ls rf rs [c u m1 m2 ws]]. unfold add_warnings. simpl.
  by rewrite app_nil_r.
Qed.

Lemma add_warnings_app ws1 ws2 st :
  add_warnings ws2 (add_warnings ws1 st) = add_warnings (ws1 ++ ws2) st.
Proof. unfold add_warnings. simpl. by rewrite app_assoc. Qed.

Lemma flow_ids_visited h d fid : fid ∈ flow_ids h d → fid ∈ visited d.
Proof. by intros (_ & ? & _)%elem_of_flow_ids. Qed.

Lemma flow_ids_is_flow h d fid : fid ∈ flow_ids h d → is_flow (get h fid) = true.
Proof. by intros (_ & _ & ?)%elem_of_flow_ids. Qed.

Lemma highlight_step_spec h root d hs st fid :
  discovered h root d → fid ∈ flow_ids h d →
  highlight_step h d (hs, st) fid
  = Ok (match _real_start h fid with
        | Some rs => ({[rs]} ∪ hs, st)
        | None => (hs, add_warnings [NoResolvableStart] st)
        end).
Proof.
  intros Hd Hfid. unfold highlight_step, obj_by_id_getitem.
  rewrite obj_by_id_get_visited by (by eapply flow_ids_visited).
  cbn [mbind result_mbind result_bind].
  destruct (_real_start h fid) as [rs|] eqn:Hrs; [|done].
  rewrite decide_True; [done|].
  eapply mermaid_id_is_Some; [done|].
  eapply real_start_visited; [done|by eapply flow_ids_visited|
                              by eapply flow_ids_is_flow|done].
Qed.

Lemma collect_highlights_fold h root d :
  discovered h root d →
  ∀ fl hs st, (∀ f, f ∈ fl → f ∈ flow_ids h d) →
  fold_result (highlight_step h d) (hs, st) fl
  = Ok (hs ∪ list_to_set (omap (_real_start h) fl),
        add_warnings ((λ _, NoResolvableStart) <$> filter (λ f, _real_start h f = None) fl) st).
Proof.
  intros Hd. induction fl as [|fid fl IH]; intros hs st Hfl.
  - simpl. rewrite add_warnings_nil. f_equal. f_equal. set_solver.
  - cbn [fold_result].
    rewrite (highlight_step_spec h root d) by (done || apply Hfl, list_elem_of_here).
    cbn [mbind result_mbind result_bind]. rewrite filter_cons. csimpl.
    destruct (_real_start h fid) as [rs|] eqn:Hrs.
    + rewrite IH by (intros f Hf; apply Hfl; by apply list_elem_of_further).
      rewrite decide_False by done. f_equal. f_equal. set_solver.
    + rewrite IH by (intros f Hf; apply Hfl; by apply list_elem_of_further).
      rewrite decide_True by done. csimpl.
      f_equal. f_equal. by rewrite add_warnings_app.
Qed.

Lemma collect_highlights_spec h root d st :
  discovered h root d →
  collect_highlights h d st
  = Ok (highlight_ids h d,
        add_warnings ((λ _, NoResolvableStart) <$> unresolved_flows h d) st).
Proof.
  intros Hd. unfold collect_highlights.
  rewrite (collect_highlights_fold h root d Hd) by done.
  unfold highlight_ids, unresolved_flows. f_equal. f_equal. set_solver.
Qed.

Lemma class_lines_ok d (rids : list nat) : ∀ st,
  (∀ r, r ∈ rids → is_Some (mermaid_id_by_obj_id d !! r)) →
  ∃ mids,
    Forall2 (λ rid mid, mermaid_id_by_obj_id d !! rid = Some mid) rids mids
    ∧ fold_result
        (λ st rid, mid ← getitem (mermaid_id_by_obj_id d) rid;
                   Ok (push_line (LClass mid) st)) st rids
      = Ok (RState (lines st ++ (LClass <$> mids)) (rendered_flows st)
                   (rendering_stack st) (label_st st)).
Proof.
  induction rids as [|r rids IH]; intros st Hr.
  - exists []. split; [constructor|]. simpl. rewrite app_nil_r. by destruct st.
  - destruct (getitem_ok (mermaid_id_by_obj_id d) r) as (mid & Hg & Hm).
    { apply Hr, list_elem_of_here. }
    destruct (IH (push_line (LClass mid) st)) as (mids & Hmids & Hf).
    { intros r' Hr'. apply Hr. by apply list_elem_of_further. }
    exists (mid :: mids). split; [by constructor|].
    cbn [fold_result]. rewrite Hg. cbn [mbind result_mbind result_bind].
    rewrite Hf. simpl. by rewrite <- app_assoc.
Qed.

Lemma render_highlights_spec h root d st :
  discovered h root d →
  ∃ rids mids,
    rids ≡ₚ elements (highlight_ids h d)
    ∧ Forall2 (λ rid mid, mermaid_id_by_obj_id d !! rid = Some mid) rids mids
    ∧ render_highlights h d st
      = Ok (RState (lines st ++ highlight_lines mids) (rendered_flows st)
                   (rendering_stack st)
                   (label_st (add_warnings ((λ _, NoResolvableStart)
                                              <$> unresolved_flows h d) st))).
Proof.
  intros Hd. unfold render_highlights.
  rewrite (collect_highlights_spec h root d st Hd).
  cbn [mbind result_mbind result_bind].
  destruct (decide (highlight_ids h d = ∅)) as [He|Hne].
  - exists [], []. rewrite He, elements_empty. split; [done|]. split; [constructor|].
    simpl. by rewrite app_nil_r.
  - assert (∀ r, r ∈ highlight_ids h d → r ∈ visited d) as Hvis.
    { intros r. unfold highlight_ids. rewrite elem_of_list_to_set, list_elem_of_omap.
      intros (fid & Hfid & Hrs).
      eapply real_start_visited; [done|by eapply flow_ids_visited|
                                  by eapply flow_ids_is_flow|done]. }
    destruct (sort_by_order_ok h root d Hd (elements (highlight_ids h d)))
      as (rids & -> & Hperm).
    { intros r Hr%elem_of_elements. by apply Hvis. }
    cbn [mbind result_mbind result_bind].
    destruct (class_lines_ok d rids
                (push_line LClassDef
                   (add_warnings ((λ _, NoResolvableStart) <$> unresolved_flows h d) st)))
      as (mids & Hmids & ->).
    { intros r Hr. eapply mermaid_id_is_Some; [done|]. apply Hvis.
      rewrite Hperm in Hr. by apply elem_of_elements. }
    exists rids, mids. split; [done|]. split; [done|]. simpl.
    f_equal. f_equal. rewrite <- app_assoc. simpl.
    destruct mids as [|m mids]; [|done].
    (* the set is not empty, so there is a line *)
    apply Forall2_nil_inv_r in Hmids. subst.
    apply Permutation_nil in Hperm.
    apply elements_empty_inv in Hperm. by apply leibniz_equiv in Hperm.
Qed.

(** ** The whole call *)

Lemma append_inj_prefix (p a b : string) : p +:+ a = p +:+ b → a = b.
Proof.
  induction p as [|c p IH]; intros H; [exact H|].
  change (String c (p +:+ a) = String c (p +:+ b)) in H.
  apply IH. by injection H.
Qed.

Lemma mermaid_id_lookup d o mid :
  mermaid_id_by_obj_id d !! o = Some mid ↔
  ∃ i, order_index_by_obj_id d !! o = Some i ∧ mid = "n" +:+ pretty i.
Proof.
  unfold mermaid_id_by_obj_id. rewrite lookup_fmap, fmap_Some. naive_solver.
Qed.

(** Two discovered objects have different block identifiers. *)
Lemma sub_id_of_inj h root d x y :
  discovered h root d → x ∈ visited d → y ∈ visited d →
  sub_id_of d x = sub_id_of d y → x = y.
Proof.
  intros Hd Hx Hy Heq. unfold sub_id_of in Heq.
  apply (mermaid_id_is_Some h root d x Hd) in Hx as [mx Hmx].
  apply (mermaid_id_is_Some h root d y Hd) in Hy as [my Hmy].
  rewrite Hmx, Hmy in Heq. simpl in Heq. apply append_inj_prefix in Heq. subst my.
  apply mermaid_id_lookup in Hmx as (i & Hi & ->).
  apply mermaid_id_lookup in Hmy as (j & Hj & Heq).
  apply append_inj_prefix in Heq. apply (inj pretty) in Heq. subst j.
  apply (order_index_lookup d _ _ (disc_nodup _ _ _ Hd)) in Hi, Hj. congruence.
Qed.

Lemma expanded_flow_ids_elem h d f :
  f ∈ expanded_flow_ids h d ↔
  f ∈ flow_ids h d ∧ _is_expanded_flow h (Some f) = true.
Proof.
  unfold expanded_flow_ids. rewrite elem_of_list_to_set, list_elem_of_filter.
  split.
  - intros [He Hf]. split; [done|].
    by rewrite obj_by_id_get_visited in He by (by eapply flow_ids_visited).
  - intros [Hf He]. split; [|done].
    by rewrite obj_by_id_get_visited by (by eapply flow_ids_visited).
Qed.

Lemma body_visited h root d fid x :
  discovered h root d → x ∈ body_of (body_by_flow_id h d) fid → x ∈ visited d.
Proof.
  intros Hd. rewrite body_of_flow_ids. case_decide as Hf; [|set_solver].
  intros (start & Hs & Hr)%flow_body_spec.
  eapply leaf_visited; [done|by eapply flow_ids_visited|by eapply flow_ids_is_flow|done|done].
Qed.

Lemma subgraph_ids_highlight mids : subgraph_ids (highlight_lines mids) = [].
Proof.
  destruct mids as [|m mids]; [done|]. simpl.
  induction mids as [|m' mids IH]; [done|]. done.
Qed.

Lemma visualize_lines_ok h flow namespace direction show_default highlight_starts
    max_nodes n d :
  direction_u direction ∈ valid_directions →
  int_value max_nodes = Some n → (0 < n)%Z →
  discover h n (str_of_max_nodes max_nodes) flow = Ok d →
  ∃ start body rids mids ws,
    mermaid_id_by_obj_id d !! _entry_oid h flow = Some start
    ∧ (NoDup (subgraph_ids body)
       ∧ ∃ T, NoDup T ∧ (∀ f, f ∈ T → f ∈ expanded_flow_ids h d)
              ∧ subgraph_ids body = sub_id_of d <$> T)
    ∧ rids ≡ₚ elements (highlight_ids h d)
    ∧ Forall2 (λ rid mid, mermaid_id_by_obj_id d !! rid = Some mid) rids mids
    ∧ visualize_lines h flow namespace direction show_default highlight_starts max_nodes
      = Ok ([LFence; LHeader (direction_u direction); LStart start] ++ body
            ++ (if highlight_starts then highlight_lines mids else [])
            ++ [LFenceEnd],
            ws ++ (if highlight_starts
                   then (λ _, NoResolvableStart) <$> unresolved_flows h d
                   else [])).
Proof.
  intros Hdir Hint Hpos Hdisc. pose proof (discover_discovered _ _ _ _ _ Hdisc) as Hd.
  unfold visualize_lines, visualize_lines_in. rewrite decide_True by done. rewrite Hint.
  rewrite decide_False by lia.
  destruct (namespace_items namespace) as [items ws0].
  rewrite Hdisc. cbn [mbind result_mbind result_bind].
  destruct (rewrite_edges_ok set_order (elements (edges d)) h flow d Hd
              (elements_edges_sub _)) as (re & est & Hre).
  rewrite Hre.
  cbn [mbind result_mbind result_bind].
  destruct (edges_by_container_ok h flow d (container_flow_by_node_id h d)
              (parent_flow_by_flow_id h d) re Hd) as (buckets & -> & _ & Hbuck).
  { eapply rewrite_edges_visited; [done|apply elements_edges_sub|done]. }
  cbn [mbind result_mbind result_bind].
  destruct (getitem_ok (mermaid_id_by_obj_id d) (_entry_oid h flow)) as (start & -> & Hstart).
  { eapply mermaid_id_is_Some; [done|]. eapply entry_oid_visited; [done|].
    by eapply discovered_root. }
  cbn [mbind result_mbind result_bind].
  set (st0 := RState [LFence; LHeader (direction_u direction); LStart start] ∅ ∅
                (LabelState ∅ ∅ ∅ ∅ ws0)).
  assert (∀ f, f ∈ expanded_flow_ids h d → f ∈ visited d) as Hexp.
  { intros f [Hf _]%expanded_flow_ids_elem. by eapply flow_ids_visited. }
  assert (∀ fid x, x ∈ body_of (body_by_flow_id h d) fid → x ∈ visited d) as Hbody.
  { intros fid x. by apply (body_visited h flow d). }
  assert (is_Some (container_flow_by_node_id h d !! flow) →
          ∀ f, f ∈ flow_ids h d → is_Some (container_flow_by_node_id h d !! f)) as Hroot.
  { intros Hr f Hf. eapply root_container_all; [done|done|by eapply flow_ids_visited]. }
  destruct (render_top_flows_ok h flow d (names_by_obj_id items) show_default
              (body_by_flow_id h d) (container_flow_by_node_id h d)
              (expanded_flow_ids h d) buckets Hd Hexp Hbody Hbuck Hroot st0 eq_refl)
    as (st1 & T & -> & (Hs1 & Hr1 & a1 & Hl1 & Ha1) & HndT & HTe).
  cbn [mbind result_mbind result_bind].
  destruct (render_top_nodes_ok h flow d (names_by_obj_id items)
              (container_flow_by_node_id h d) Hd st1)
    as (st2 & -> & (_ & _ & a2 & Hl2 & Ha2)).
  cbn [mbind result_mbind result_bind].
  destruct (bucket_edges_ok h flow d show_default buckets Hd Hbuck "  " st2 None)
    as (st3 & -> & (_ & _ & a3 & Hl3 & Ha3)).
  cbn [mbind result_mbind result_bind].
  destruct (render_highlights_spec h flow d st3 Hd) as (rids & mids & Hperm & Hmids & Hhl).
  assert (NoDup (subgraph_ids (a1 ++ a2 ++ a3))) as Hnd.
  { rewrite !subgraph_ids_app, Ha1, Ha2, Ha3, !app_nil_r.
    apply NoDup_fmap_2_strong; [|done].
    intros x y Hx Hy. eapply sub_id_of_inj; [done| |]; apply Hexp; by apply HTe. }
  assert (∃ T, NoDup T ∧ (∀ f, f ∈ T → f ∈ expanded_flow_ids h d)
               ∧ subgraph_ids (a1 ++ a2 ++ a3) = sub_id_of d <$> T) as Htr.
  { exists T. split; [done|]. split; [done|].
    by rewrite !subgraph_ids_app, Ha1, Ha2, Ha3, !app_nil_r. }
  exists start, (a1 ++ a2 ++ a3), rids, mids.
  destruct highlight_starts.
  - rewrite Hhl. cbn [mbind result_mbind result_bind].
    exists (warnings (label_st st3)).
    split; [done|]. split; [done|]. split; [done|]. split; [done|].
    simpl. rewrite Hl3, Hl2, Hl1. simpl. by rewrite <- !app_assoc.
  - cbn [mbind result_mbind result_bind]. exists (warnings (label_st st3)).
    split; [done|]. split; [done|]. split; [done|]. split; [done|].
    simpl. rewrite Hl3, Hl2, Hl1. simpl. by rewrite <- !app_assoc, app_nil_r.
Qed.

(** ** Failures of the call *)

Lemma visualize_lines_bad_direction h flow namespace direction sd hl max_nodes :
  direction_u direction ∉ valid_directions →
  visualize_lines h flow namespace direction sd hl max_nodes
  = Fail (ValueError "direction must be one of LR/RL/TB/TD/BT").
Proof. intros Hdir. unfold visualize_lines, visualize_lines_in. by rewrite decide_False. Qed.

Lemma visualize_lines_bad_budget h flow namespace direction sd hl max_nodes :
  direction_u direction ∈ valid_directions → ¬ budget_valid max_nodes →
  visualize_lines h flow namespace direction sd hl max_nodes
  = Fail (ValueError "max_nodes must be a positive integer").
Proof.
  intros Hdir Hb. unfold visualize_lines, visualize_lines_in. rewrite decide_True by done.
  destruct (int_value max_nodes) as [n|] eqn:Hn; [|done].
  rewrite decide_True; [done|].
  destruct (decide (n ≤ 0)%Z); [done|]. destruct Hb. exists n. split; [done|lia].
Qed.

Lemma visualize_lines_over_budget h flow namespace direction sd hl max_nodes n e :
  direction_u direction ∈ valid_directions →
  int_value max_nodes = Some n → (0 < n)%Z →
  discover h n (str_of_max_nodes max_nodes) flow = Fail e →
  visualize_lines h flow namespace direction sd hl max_nodes = Fail e.
Proof.
  intros Hdir Hn Hpos Hd. unfold visualize_lines, visualize_lines_in. rewrite decide_True by done.
  rewrite Hn, decide_False by lia.
  destruct (namespace_items namespace) as [items ws0]. by rewrite Hd.
Qed.

(** A successful call has passed the three checks. *)
Lemma visualize_lines_inv h flow namespace direction sd hl max_nodes ls ws :
  visualize_lines h flow namespace direction sd hl max_nodes = Ok (ls, ws) →
  direction_u direction ∈ valid_directions
  ∧ ∃ n d, int_value max_nodes = Some n ∧ (0 < n)%Z
           ∧ discover h n (str_of_max_nodes max_nodes) flow = Ok d.
Proof.
  intros Hv.
  destruct (decide (direction_u direction ∈ valid_directions)) as [Hdir|Hdir].
  2:{ rewrite visualize_lines_bad_direction in Hv by done. done. }
  split; [done|].
  destruct (int_value max_nodes) as [n|] eqn:Hn.
  2:{ rewrite visualize_lines_bad_budget in Hv; [done|done|].
      intros (n & Hn' & _). congruence. }
  destruct (decide (0 < n)%Z) as [Hpos|Hpos].
  2:{ rewrite visualize_lines_bad_budget in Hv; [done|done|].
      intros (n' & Hn' & ?). simplify_eq. lia. }
  destruct (discover h n (str_of_max_nodes max_nodes) flow) as [d|e] eqn:Hd.
  - by exists n, d.
  - erewrite visualize_lines_over_budget in Hv by done. done.
Qed.

(** ** The number of reachable objects *)

(** The budget check never fires while the budget is above the number of
    iterations still to run plus the objects already visited. *)
Lemma discover_loop_large h max_nodes max_str fuel : ∀ queue d,
  (Z.of_nat (length (visit_order d) + fuel) ≤ max_nodes)%Z →
  ∀ msg, discover_loop fuel h max_nodes max_str queue d ≠ Fail (RuntimeError msg).
Proof.
  induction fuel as [|fuel IH]; intros queue d Hle msg; [done|].
  cbn [discover_loop]. destruct queue as [|cid queue]; [done|].
  destruct (decide (cid ∈ visited d)); [apply IH; lia|].
  rewrite decide_False by (rewrite length_app; simpl; lia).
  rewrite scan_successors_eq. apply IH. simpl. rewrite length_app. simpl. lia.
Qed.

(** The reachable objects form a finite set. *)
Lemma reachable_finite h flow :
  ∃ R : gset nat, ∀ x, x ∈ R ↔ reachable h flow x.
Proof.
  pose proof (discover_spec h (Z.of_nat (traversal_fuel h)) EmptyString flow) as Hs.
  destruct (discover h (Z.of_nat (traversal_fuel h)) EmptyString flow) as [d|e] eqn:Hd.
  - exists (visited d). apply Hs.
  - destruct Hs as [-> _]. exfalso. unfold discover in Hd.
    eapply discover_loop_large; [|exact Hd]. simpl. lia.
Qed.

Lemma nodup_subset_size (l : list nat) (R : gset nat) :
  NoDup l → (∀ x, x ∈ l → x ∈ R) → length l ≤ size R.
Proof.
  intros Hnd Hl. rewrite <- (size_list_to_set (C := gset nat) l) by done.
  apply subseteq_size. intros x Hx%elem_of_list_to_set. by apply Hl.
Qed.

(** The discovery succeeds exactly when the reachable objects fit in the
    budget. *)
Lemma discover_budget h max_nodes max_str flow (R : gset nat) :
  (∀ x, x ∈ R ↔ reachable h flow x) →
  match discover h max_nodes max_str flow with
  | Ok d => (Z.of_nat (size R) ≤ max_nodes)%Z ∧ R = visited d
  | Fail e => e = RuntimeError ("max_nodes exceeded: " +:+ max_str)
              ∧ (max_nodes < Z.of_nat (size R))%Z
  end.
Proof.
  intros HR. pose proof (discover_spec h max_nodes max_str flow) as Hs.
  destruct (discover h max_nodes max_str flow) as [d|e].
  - destruct Hs as [Hd Hle].
    assert (R = visited d) as ->.
    { apply set_eq. intros x. by rewrite HR, (disc_reach _ _ _ Hd). }
    split; [|done]. rewrite (disc_visited _ _ _ Hd).
    rewrite size_list_to_set by apply (disc_nodup _ _ _ Hd). done.
  - destruct Hs as [-> (l & Hnd & Hl & Hlt)]. split; [done|].
    pose proof (nodup_subset_size l R Hnd) as Hsz.
    specialize (Hsz ltac:(intros x Hx; apply HR; by apply Hl)). lia.
Qed.

Lemma visualize_is_ok h flow namespace direction sd hl max_nodes :
  is_ok (visualize h flow namespace direction sd hl max_nodes)
  ↔ is_ok (visualize_lines h flow namespace direction sd hl max_nodes).
Proof.
  unfold visualize.
  by destruct (visualize_lines _ _ _ _ _ _ _) as [[ls ws]|e].
Qed.

Lemma visualize_fail h flow namespace direction sd hl max_nodes e :
  visualize h flow namespace direction sd hl max_nodes = Fail e
  ↔ visualize_lines h flow namespace direction sd hl max_nodes = Fail e.
Proof.
  unfold visualize.
  destruct (visualize_lines _ _ _ _ _ _ _) as [[ls ws]|e']; simpl; [done|].
  split; intros [= ->]; done.
Qed.

(** The outcome of a call whose direction is valid. *)
Lemma visualize_lines_outcome h flow namespace direction sd hl max_nodes (R : gset nat) :
  (∀ x, x ∈ R ↔ reachable h flow x) →
  direction_u direction ∈ valid_directions →
  match visualize_lines h flow namespace direction sd hl max_nodes with
  | Ok _ => budget_allows max_nodes (size R)
  | Fail e =>
      (e = ValueError "max_nodes must be a positive integer"
       ∧ ¬ budget_valid max_nodes)
      ∨ (e = RuntimeError ("max_nodes exceeded: " +:+ str_of_max_nodes max_nodes)
         ∧ ∃ n, int_value max_nodes = Some n ∧ (0 < n)%Z
                ∧ (n < Z.of_nat (size R))%Z)
  end.
Proof.
  intros HR Hdir.
  destruct (int_value max_nodes) as [n|] eqn:Hn.
  2:{ rewrite visualize_lines_bad_budget; [|done|intros (n & ? & _); congruence].
      left. split; [done|]. intros (n & ? & _). congruence. }
  destruct (decide (0 < n)%Z) as [Hpos|Hpos].
  2:{ rewrite visualize_lines_bad_budget; [|done|intros (n' & ? & ?); simplify_eq; lia].
      left. split; [done|]. intros (n' & ? & ?). simplify_eq. lia. }
  pose proof (discover_budget h n (str_of_max_nodes max_nodes) flow R HR) as Hb.
  destruct (discover h n (str_of_max_nodes max_nodes) flow) as [d|e] eqn:Hd.
  - destruct (visualize_lines_ok h flow namespace direction sd hl max_nodes n d)
      as (start & body & rids & mids & ws & _ & _ & _ & _ & ->); try done.
    exists n. split; [done|]. split; [done|]. apply Hb.
  - erewrite visualize_lines_over_budget; try done.
    destruct Hb as [-> Hlt]. right. split; [done|]. by exists n.
Qed.

(** * Two calls on the same graph *)

Lemma child_step_same h h' x y :
  get h' x = get h x → child_step h x y → child_step h' x y.
Proof. unfold child_step, succ_step. by intros ->. Qed.

Lemma same_graph_reachable h h' flow x :
  same_graph h h' flow → reachable h flow x → reachable h' flow x.
Proof.
  intros Hs Hx.
  enough (reachable h flow x ∧ reachable h' flow x) as [_ ?] by done.
  revert x Hx. apply (rtc_ind_r (λ x, reachable h flow x ∧ reachable h' flow x)).
  - split; constructor.
  - intros y z _ Hyz [Hy Hy']. split; [by eapply rtc_r|].
    eapply rtc_r; [exact Hy'|]. eapply child_step_same; [|done]. by apply Hs.
Qed.

Lemma same_graph_back h h' flow x :
  same_graph h h' flow → reachable h' flow x → reachable h flow x.
Proof.
  intros Hs. revert x. apply (rtc_ind_r (λ x, reachable h flow x)); [constructor|].
  intros y z _ Hyz Hy. eapply rtc_r; [exact Hy|].
  eapply child_step_same; [|done]. symmetry. by apply Hs.
Qed.

Lemma same_graph_sym h h' flow : same_graph h h' flow → same_graph h' h flow.
Proof. intros Hs x Hx. symmetry. apply Hs. by eapply same_graph_back. Qed.

(** ** The discovery *)

Lemma discover_loop_same h h' flow max_nodes max_str :
  same_graph h h' flow →
  ∀ fuel fuel' queue d,
    (∀ x, x ∈ queue → reachable h flow x) →
    discover_loop fuel h max_nodes max_str queue d ≠ Fail OutOfFuel →
    discover_loop fuel' h' max_nodes max_str queue d ≠ Fail OutOfFuel →
    discover_loop fuel' h' max_nodes max_str queue d
    = discover_loop fuel h max_nodes max_str queue d.
Proof.
  intros Hs. induction fuel as [|fuel IH]; intros fuel' queue d Hq H1 H2; [done|].
  destruct fuel' as [|fuel']; [done|]. simpl in *.
  destruct queue as [|cid queue]; [done|].
  assert (reachable h flow cid) as Hcid by (apply Hq, list_elem_of_here).
  case_decide.
  { apply IH; [|done..]. intros x Hx. apply Hq. by apply list_elem_of_further. }
  case_decide; [done|]. rewrite (Hs cid Hcid) in *.
  rewrite scan_successors_eq in *. apply IH; [|done..].
  intros x. rewrite !elem_of_app. intros [[Hx|Hx]|Hx].
  - apply Hq. by apply list_elem_of_further.
  - eapply rtc_r; [exact Hcid|]. by left.
  - eapply rtc_r; [exact Hcid|]. by right.
Qed.

Lemma discover_same h h' flow max_nodes max_str :
  same_graph h h' flow →
  discover h' max_nodes max_str flow = discover h max_nodes max_str flow.
Proof.
  intros Hs. unfold discover.
  pose proof (discover_spec h max_nodes max_str flow) as H1.
  pose proof (discover_spec h' max_nodes max_str flow) as H2.
  unfold discover in H1, H2. eapply discover_loop_same; [done| | |].
  - intros x ->%list_elem_of_singleton. constructor.
  - destruct (discover_loop _ h _ _ _ _); [done|]. by destruct H1 as [-> _].
  - destruct (discover_loop _ h' _ _ _ _); [done|]. by destruct H2 as [-> _].
Qed.

(** ** The real start, the bodies and the leaves *)

Lemma flow_start_reachable h flow i s :
  reachable h flow i → is_flow (get h i) = true →
  start_node (get h i) = Some s → reachable h flow s.
Proof.
  intros Hi Hf Hst. eapply rtc_r; [exact Hi|]. left. unfold flow_start.
  rewrite Hf, Hst. apply list_elem_of_here.
Qed.

Lemma delegates_chain_same h h' flow x t :
  same_graph h h' flow → reachable h flow x → rtc (delegates_to h) x t →
  rtc (delegates_to h') x t ∧ reachable h flow t.
Proof.
  intros Hs Hx Hc. induction Hc as [x|x y z Hxy Hyz IH]; [by split; [constructor|]|].
  assert (reachable h flow y) as Hy.
  { eapply rtc_r; [exact Hx|]. by apply delegates_to_child. }
  destruct (IH Hy) as [Hc' Hz]. split; [|done].
  eapply rtc_l; [|exact Hc']. unfold delegates_to, delegates in *.
  by rewrite (Hs x Hx).
Qed.

Lemma real_start_transfer h h' flow i t :
  same_graph h h' flow → reachable h flow i → is_flow (get h i) = true →
  _real_start h i = Some t → _real_start h' i = Some t.
Proof.
  intros Hs Hi Hf (x0 & Hst & Hc & Ht)%real_start_sound.
  pose proof (flow_start_reachable _ _ _ _ Hi Hf Hst) as Hx0.
  destruct (delegates_chain_same h h' flow x0 t Hs Hx0 Hc) as [Hc' Hrt].
  eapply real_start_stops; [by rewrite (Hs i Hi)|exact Hc'|].
  unfold delegates in *. by rewrite (Hs t Hrt).
Qed.

Lemma real_start_same h h' flow i :
  same_graph h h' flow → reachable h flow i → is_flow (get h i) = true →
  _real_start h' i = _real_start h i.
Proof.
  intros Hs Hi Hf. destruct (_real_start h i) as [t|] eqn:E.
  - by eapply real_start_transfer.
  - destruct (_real_start h' i) as [t|] eqn:E'; [|done].
    eapply (real_start_transfer h' h flow) in E'.
    + by rewrite E in E'.
    + by apply same_graph_sym.
    + by eapply same_graph_reachable.
    + by rewrite (Hs i Hi).
Qed.

Lemma is_expanded_same h h' flow i :
  same_graph h h' flow → reachable h flow i →
  _is_expanded_flow h' (Some i) = _is_expanded_flow h (Some i).
Proof.
  intros Hs Hi. unfold _is_expanded_flow. rewrite (Hs i Hi).
  destruct (is_flow (get h i)) eqn:Hf; [|done].
  by rewrite (real_start_same h h' flow).
Qed.

Lemma entry_oid_same h h' flow i :
  same_graph h h' flow → reachable h flow i → _entry_oid h' i = _entry_oid h i.
Proof.
  intros Hs Hi. unfold _entry_oid. rewrite (is_expanded_same h h' flow) by done.
  destruct (_is_expanded_flow h (Some i)) eqn:He; [|done].
  rewrite (real_start_same h h' flow); [done..|]. by apply is_expanded_is_flow.
Qed.

Lemma succ_chain_same h h' flow s x :
  same_graph h h' flow → reachable h flow s → rtc (succ_step h) s x →
  rtc (succ_step h') s x ∧ reachable h flow x.
Proof.
  intros Hs Hx Hc. induction Hc as [x|x y z Hxy Hyz IH]; [by split; [constructor|]|].
  assert (reachable h flow y) as Hy by (eapply rtc_r; [exact Hx|]; by right).
  destruct (IH Hy) as [Hc' Hz]. split; [|done].
  eapply rtc_l; [|exact Hc']. unfold succ_step in *. by rewrite (Hs x Hx).
Qed.

Lemma flow_body_subseteq h h' flow i :
  same_graph h h' flow → reachable h flow i → is_flow (get h i) = true →
  flow_body h i ⊆ flow_body h' i.
Proof.
  intros Hs Hi Hf x (s & Hst & Hc)%flow_body_spec. apply flow_body_spec.
  exists s. rewrite (Hs i Hi). split; [done|].
  eapply succ_chain_same; [done| |done]. by eapply flow_start_reachable.
Qed.

Lemma flow_body_same h h' flow i :
  same_graph h h' flow → reachable h flow i → is_flow (get h i) = true →
  flow_body h' i = flow_body h i.
Proof.
  intros Hs Hi Hf. apply set_eq. intros x. split; intros Hx.
  - eapply (flow_body_subseteq h' h flow); [by apply same_graph_sym| | |done].
    + by eapply same_graph_reachable.
    + by rewrite (Hs i Hi).
  - by eapply (flow_body_subseteq h h' flow).
Qed.

Lemma flow_leaves_subseteq h h' flow s :
  same_graph h h' flow → reachable h flow s →
  flow_leaves h (Some s) ⊆ flow_leaves h' (Some s).
Proof.
  intros Hs Hr x [Hc Hl]%flow_leaves_spec. apply flow_leaves_spec.
  destruct (succ_chain_same h h' flow s x Hs Hr Hc) as [Hc' Hx].
  split; [done|]. by rewrite (Hs x Hx).
Qed.

Lemma flow_leaves_same h h' flow s :
  same_graph h h' flow → reachable h flow s →
  flow_leaves h' (Some s) = flow_leaves h (Some s).
Proof.
  intros Hs Hr. apply set_eq. intros x. split; intros Hx.
  - eapply (flow_leaves_subseteq h' h flow); [by apply same_graph_sym| |done].
    by eapply same_graph_reachable.
  - by eapply (flow_leaves_subseteq h h' flow).
Qed.

Lemma fold_result_ext {A B} (f g : A → B → result A) l a :
  (∀ a x, x ∈ l → f a x = g a x) → fold_result f a l = fold_result g a l.
Proof.
  revert a. induction l as [|x l IH]; intros a Hfg; [done|]. cbn [fold_result].
  rewrite (Hfg a x) by apply list_elem_of_here.
  destruct (g a x) as [a'|e]; [|done]. cbn [mbind result_mbind result_bind].
  apply IH. intros a0 y Hy. apply Hfg. by apply list_elem_of_further.
Qed.

Lemma result_bind_ext {A B} (m : result A) (f g : A → result B) :
  (∀ x, m = Ok x → f x = g x) → m ≫= f = m ≫= g.
Proof. intros Hfg. destruct m as [x|e]; [by apply Hfg|done]. Qed.

Lemma foldl_ext_in {A B} (f g : A → B → A) l a :
  (∀ a x, x ∈ l → f a x = g a x) → foldl f a l = foldl g a l.
Proof.
  revert a. induction l as [|x l IH]; intros a Hfg; [done|]. cbn [foldl].
  rewrite (Hfg a x) by apply list_elem_of_here.
  apply IH. intros a0 y Hy. apply Hfg. by apply list_elem_of_further.
Qed.

Section Frame.
Variables (h h' : list obj) (flow : nat) (d : discovery).
Hypothesis Hs : same_graph h h' flow.
Hypothesis Hd : discovered h flow d.

Lemma visited_same i : i ∈ visited d → get h' i = get h i.
Proof. intros Hi. apply Hs. by apply (disc_reach _ _ _ Hd). Qed.

Lemma is_expanded_visited_same i :
i ∈ visited d → _is_expanded_flow h' (Some i) = _is_expanded_flow h (Some i).
Proof.
intros Hi. apply (is_expanded_same h h' flow); [done|].
by apply (disc_reach _ _ _ Hd).
Qed.

Lemma is_expanded_get_same i :
_is_expanded_flow h' (obj_by_id_get d i) = _is_expanded_flow h (obj_by_id_get d i).
Proof.
unfold obj_by_id_get. case_decide; [|done].
apply (is_expanded_same h h' flow); [done|]. by apply (disc_reach _ _ _ Hd).
Qed.

Lemma isinstance_flow_same i :
isinstance_flow h' (obj_by_id_get d i) = isinstance_flow h (obj_by_id_get d i).
Proof.
unfold obj_by_id_get. case_decide; [|done]. simpl. by rewrite visited_same.
Qed.

Lemma flow_ids_same : flow_ids h' d = flow_ids h d.
Proof.
unfold flow_ids. apply list_filter_iff. intros i.
by rewrite isinstance_flow_same.
Qed.

Lemma flow_ids_body_same i :
i ∈ flow_ids h d → flow_body h' i = flow_body h i.
Proof.
intros (_ & Hi & Hf)%elem_of_flow_ids.
apply (flow_body_same h h' flow); [done| |done]. by apply (disc_reach _ _ _ Hd).
Qed.

Lemma body_by_flow_id_same : body_by_flow_id h' d = body_by_flow_id h d.
Proof.
unfold body_by_flow_id. rewrite flow_ids_same. apply foldl_ext_in.
intros m i Hi. by rewrite flow_ids_body_same.
Qed.

Lemma container_same :
container_flow_by_node_id h' d = container_flow_by_node_id h d.
Proof.
unfold container_flow_by_node_id. by rewrite flow_ids_same, body_by_flow_id_same.
Qed.

Lemma parent_same : parent_flow_by_flow_id h' d = parent_flow_by_flow_id h d.
Proof.
unfold parent_flow_by_flow_id. rewrite flow_ids_same, container_same.
apply foldl_ext_in. intros m i _.
destruct (container_flow_by_node_id h d !! i) as [p|]; [|done].
by rewrite isinstance_flow_same.
Qed.

Lemma expanded_flow_ids_same : expanded_flow_ids h' d = expanded_flow_ids h d.
Proof.
unfold expanded_flow_ids. rewrite flow_ids_same. f_equal.
apply list_filter_iff. intros i. by rewrite is_expanded_get_same.
Qed.

(** ** The exit sources and the rewritten edges *)

Variable lo : leaf_order.

Lemma exit_fallback_same oid resolved :
oid ∈ visited d → is_flow (get h oid) = true →
exit_fallback h' oid resolved = exit_fallback h oid resolved.
Proof.
intros Hi Hf. unfold exit_fallback.
rewrite (real_start_same h h' flow); [done..| |done].
by apply (disc_reach _ _ _ Hd).
Qed.

Lemma exit_source_oids_same fuel : ∀ oid st,
oid ∈ visited d →
_exit_source_oids lo fuel h' d oid st = _exit_source_oids lo fuel h d oid st.
Proof.
induction fuel as [|fuel IH]; intros oid st Hoid; [done|].
assert (reachable h flow oid) as Hr by (by apply (disc_reach _ _ _ Hd)).
cbn [_exit_source_oids]. rewrite (is_expanded_same h h' flow) by done.
destruct (_is_expanded_flow h (Some oid)) eqn:He; [|done]. cbn [negb].
pose proof (is_expanded_is_flow _ _ He) as Hf.
destruct (is_expanded_start _ _ He) as [s Hst].
destruct (exit_cache st !! oid); [done|].
rewrite (real_start_same h h' flow) by done.
destruct (if decide (oid ∈ exit_computing st) then _real_start h oid else None);
  [done|].
rewrite (visited_same oid Hoid), Hst.
rewrite (flow_leaves_same h h' flow)
  by (done || by eapply flow_start_reachable).
assert (∀ acc lid,
          resolve_leaf h' d (_exit_source_oids lo fuel h' d) acc lid
          = resolve_leaf h d (_exit_source_oids lo fuel h d) acc lid) as Hleaf.
{ intros [resolved st1] lid. unfold resolve_leaf.
  destruct (obj_by_id_get d lid) as [o|] eqn:Eo; [|done].
  apply obj_by_id_get_Some in Eo as [-> Hl].
  rewrite is_expanded_visited_same by done.
  destruct (_is_expanded_flow h (Some lid)); [|done]. by rewrite IH. }
rewrite (fold_result_ext _ _ _ _ (λ a x _, Hleaf a x)).
destruct (fold_result _ _ _) as [[resolved st1]|e]; [|done].
cbn [mbind result_mbind result_bind]. by rewrite exit_fallback_same.
Qed.

Lemma exit_fuel_total (g : list obj) oid st :
is_ok (_exit_source_oids lo (exit_fuel g) g d oid st).
Proof.
destruct (exit_total lo g d (exit_fuel g) oid st) as (r & st' & -> & _); [|done].
unfold exit_fuel.
pose proof (subseteq_size (heap_ids g ∖ exit_computing st) (heap_ids g)
              ltac:(set_solver)) as Hle.
unfold heap_ids in Hle at 2. rewrite size_set_seq in Hle. lia.
Qed.

Lemma exit_call_same oid st :
oid ∈ visited d →
_exit_source_oids lo (exit_fuel h') h' d oid st
= _exit_source_oids lo (exit_fuel h) h d oid st.
Proof.
intros Hoid. pose proof (exit_fuel_total h oid st) as H1.
pose proof (exit_fuel_total h' oid st) as H2.
destruct (_exit_source_oids lo (exit_fuel h) h d oid st) as [x|] eqn:E1; [|done].
destruct (_exit_source_oids lo (exit_fuel h') h' d oid st) as [x'|] eqn:E2; [|done].
apply (exit_fuel_mono _ _ _ _ (exit_fuel h `max` exit_fuel h')) in E1; [|lia].
apply (exit_fuel_mono _ _ _ _ (exit_fuel h `max` exit_fuel h')) in E2; [|lia].
rewrite exit_source_oids_same in E2 by done. congruence.
Qed.

Lemma rewrite_edges_same es : rewrite_edges lo es h' d = rewrite_edges lo es h d.
Proof.
unfold rewrite_edges. apply fold_result_ext.
intros [re st] [[src act] tgt] _. unfold rewrite_edge.
destruct (obj_by_id_get d src) as [o|] eqn:Eo; [|done].
apply obj_by_id_get_Some in Eo as [-> Hsrc].
destruct (obj_by_id_get d tgt) as [o|] eqn:Et; [|done].
apply obj_by_id_get_Some in Et as [-> Htgt].
rewrite exit_call_same by done.
rewrite (entry_oid_same h h' flow); [done..|]. by apply (disc_reach _ _ _ Hd).
Qed.
End Frame.

(** ** The rendering *)

Section FrameRender.
Variables (h h' : list obj) (flow : nat) (d : discovery).
Variable names_by_id : gmap nat (list string).
Variable show_default : bool.
Variable bodies : gmap nat (gset nat).
Variable containers : gmap nat nat.
Variable expanded : gset nat.
Variable buckets : gmap (option nat) (list (nat * string * nat)).
Hypothesis Hs : same_graph h h' flow.
Hypothesis Hd : discovered h flow d.

Lemma label_for_same oid ls :
oid ∈ visited d →
_label_for h' names_by_id oid ls = _label_for h names_by_id oid ls.
Proof.
intros Hoid. unfold _label_for. by rewrite (visited_same h h' flow d Hs Hd).
Qed.

Lemma emit_node_def_same indent st oid :
emit_node_def h' d names_by_id indent st oid
= emit_node_def h d names_by_id indent st oid.
Proof.
unfold emit_node_def.
destruct (getitem (mermaid_id_by_obj_id d) oid) as [mid|]; [|done].
cbn [mbind result_mbind result_bind]. unfold obj_by_id_getitem.
destruct (obj_by_id_get d oid) as [o|] eqn:Eo; [|done].
apply obj_by_id_get_Some in Eo as [-> Hoid].
cbn [mbind result_mbind result_bind]. by rewrite label_for_same.
Qed.

Lemma is_child_flow_same fid nid :
is_child_flow h' d containers expanded fid nid
= is_child_flow h d containers expanded fid nid.
Proof.
unfold is_child_flow. by rewrite (isinstance_flow_same h h' flow d Hs Hd).
Qed.

Lemma is_direct_node_same fid nid :
is_direct_node h' d containers fid nid = is_direct_node h d containers fid nid.
Proof.
unfold is_direct_node. by rewrite (is_expanded_get_same h h' flow d Hs Hd).
Qed.

Lemma render_flow_same fuel : ∀ fid indent st,
_render_flow h' d names_by_id show_default bodies containers expanded buckets
  fuel fid indent st
= _render_flow h d names_by_id show_default bodies containers expanded buckets
    fuel fid indent st.
Proof.
induction fuel as [|fuel IH]; intros fid indent st; [done|].
cbn [_render_flow]. case_decide; [done|]. unfold obj_by_id_getitem.
destruct (obj_by_id_get d fid) as [f|] eqn:Ef; [|done].
apply obj_by_id_get_Some in Ef as [-> Hfid].
cbn [mbind result_mbind result_bind].
destruct (getitem (mermaid_id_by_obj_id d) fid) as [mid|]; [|done].
cbn [mbind result_mbind result_bind label_st].
rewrite label_for_same by done.
destruct (_label_for h names_by_id fid (label_st st)) as [label ls].
rewrite (list_filter_iff
           (λ nid, is_child_flow h' d containers expanded fid nid = true)
           (λ nid, is_child_flow h d containers expanded fid nid = true))
  by (intros nid; by rewrite is_child_flow_same).
rewrite (list_filter_iff
           (λ nid, is_direct_node h' d containers fid nid = true)
           (λ nid, is_direct_node h d containers fid nid = true))
  by (intros nid; by rewrite is_direct_node_same).
destruct (sort_by_order _ _) as [l1|]; [|done].
cbn [mbind result_mbind result_bind].
destruct (sort_by_order _ _) as [l2|]; [|done].
cbn [mbind result_mbind result_bind].
rewrite (fold_result_ext _ _ _ _
           (λ a x _, emit_node_def_same (indent +:+ "  ") a x)).
destruct (fold_result (emit_node_def h d names_by_id (indent +:+ "  ")) _ _)
  as [st1|]; [|done].
cbn [mbind result_mbind result_bind].
by rewrite (fold_result_ext _ _ _ _ (λ a x _, IH x (indent +:+ "  ") a)).
Qed.

Lemma render_top_flows_same st :
render_top_flows h' d names_by_id show_default bodies containers expanded
  buckets flow st
= render_top_flows h d names_by_id show_default bodies containers expanded
    buckets flow st.
Proof.
unfold render_top_flows. generalize (render_fuel expanded). intros fuel.
rewrite render_flow_same, (flow_ids_same h h' flow d Hs Hd).
apply result_bind_ext. intros st1 _. apply fold_result_ext.
intros a x _. by rewrite render_flow_same.
Qed.

Lemma render_top_nodes_same st :
render_top_nodes h' d names_by_id containers st
= render_top_nodes h d names_by_id containers st.
Proof.
unfold render_top_nodes. apply fold_result_ext. intros a x _.
by rewrite (is_expanded_get_same h h' flow d Hs Hd), emit_node_def_same.
Qed.

Lemma highlight_step_same acc fid :
fid ∈ flow_ids h d → highlight_step h' d acc fid = highlight_step h d acc fid.
Proof.
intros (_ & Hfid & Hf)%elem_of_flow_ids. unfold highlight_step.
destruct acc as [hs st]. unfold obj_by_id_getitem.
rewrite obj_by_id_get_visited by done. cbn [mbind result_mbind result_bind].
rewrite (real_start_same h h' flow); [done..| |done].
by apply (disc_reach _ _ _ Hd).
Qed.

Lemma render_highlights_same st :
render_highlights h' d st = render_highlights h d st.
Proof.
unfold render_highlights, collect_highlights.
rewrite (flow_ids_same h h' flow d Hs Hd).
by rewrite (fold_result_ext _ _ _ _ (λ a x Hx, highlight_step_same a x Hx)).
Qed.
End FrameRender.

Lemma visualize_lines_same h h' flow namespace direction sd hl max_nodes :
  same_graph h h' flow →
  visualize_lines h' flow namespace direction sd hl max_nodes
  = visualize_lines h flow namespace direction sd hl max_nodes.
Proof.
  intros Hs. unfold visualize_lines, visualize_lines_in. case_decide; [|done].
  destruct (int_value max_nodes) as [n|]; [|done]. case_decide; [done|].
  destruct (namespace_items namespace) as [items ws].
  rewrite (discover_same h h' flow) by done.
  apply result_bind_ext. intros d Hd%discover_discovered. cbv beta zeta.
  rewrite (rewrite_edges_same h h' flow d Hs Hd set_order).
  apply result_bind_ext. intros [re est] _. cbv beta iota.
  rewrite (container_same h h' flow d Hs Hd), (parent_same h h' flow d Hs Hd).
  apply result_bind_ext. intros buckets _. cbv beta.
  rewrite (entry_oid_same h h' flow) by (done || constructor).
  apply result_bind_ext. intros start _. cbv beta.
  rewrite (body_by_flow_id_same h h' flow d Hs Hd),
    (expanded_flow_ids_same h h' flow d Hs Hd).
  rewrite (render_top_flows_same h h' flow d) by done.
  apply result_bind_ext. intros st1 _. cbv beta.
  rewrite (render_top_nodes_same h h' flow d) by done.
  apply result_bind_ext. intros st2 _. cbv beta.
  apply result_bind_ext. intros st3 _. cbv beta.
  destruct hl; [|done]. by rewrite (render_highlights_same h h' flow d).
Qed.

(** The result of a call depends only on the objects that the discovery
    reaches from the entry flow.  In two program states in which these
    objects are the same, whatever else differs, the two calls with the
    same arguments return the same text and the same warnings, or raise
    the same error. *)
Theorem visualize_same h h' flow namespace direction sd hl max_nodes :
  same_graph h h' flow →
  visualize h' flow namespace direction sd hl max_nodes
  = visualize h flow namespace direction sd hl max_nodes.
Proof. intros Hs. unfold visualize. by rewrite (visualize_lines_same h h'). Qed.

Lemma visualize_same_witness :
  same_graph ex_chain (ex_chain ++ [Obj "Node" false (Some 0) ∅]) 0
  ∧ visualize (ex_chain ++ [Obj "Node" false (Some 0) ∅]) 0 NsFalsy None false
      true (MaxInt 1000)
    = visualize ex_chain 0 NsFalsy None false true (MaxInt 1000).
Proof.
  assert (same_graph ex_chain (ex_chain ++ [Obj "Node" false (Some 0) ∅]) 0) as Hs.
  { assert (discover ex_chain 1000 "1000" 0 = Ok d_chain) as Hd
      by (vm_compute; reflexivity).
    intros x Hx. apply (disc_reach _ _ _ (discover_discovered _ _ _ _ _ Hd)) in Hx.
    assert (x = 0 ∨ x = 1 ∨ x = 2) as [-> | [-> | ->]]
      by (unfold d_chain in Hx; simpl in Hx; set_solver).
    all: reflexivity. }
  split; [exact Hs|].
  exact (visualize_same _ _ _ _ _ _ _ _ Hs).
Defined.

(** * The claims *)

Lemma visualize_succeeds h flow namespace direction sd hl max_nodes (R : gset nat) :
  (∀ x, x ∈ R ↔ reachable h flow x) →
  direction_u direction ∈ valid_directions →
  budget_allows max_nodes (size R) →
  is_ok (visualize_lines h flow namespace direction sd hl max_nodes).
Proof.
  intros HR Hdir (n & Hn & Hpos & Hle).
  pose proof (visualize_lines_outcome h flow namespace direction sd hl max_nodes R HR Hdir) as Ho.
  destruct (visualize_lines _ _ _ _ _ _ _) as [x|e]; [done|].
  destruct Ho as [[_ Hb]|[_ (n' & Hn' & _ & Hlt)]].
  - destruct Hb. by exists n.
  - simplify_eq. lia.
Qed.

(** ** C1: containment *)

(** C1, as amended.  For every graph, the container of an object is the
    first flow, in the order of the visits, whose body has the object
    ([flow_ids] lists the visited flows in that order), an object that is
    in no body has no container, and a flow is never recorded as its own
    parent: a parent pointer is the container of the flow and differs from
    the flow. *)
Theorem containment_first_claim h d :
  sublist (flow_ids h d) (visit_order d)
  ∧ (∀ nid, container_flow_by_node_id h d !! nid
            = head (filter (λ fid, nid ∈ flow_body h fid) (flow_ids h d)))
  ∧ (∀ nid fid, container_flow_by_node_id h d !! nid = Some fid ↔
       ∃ l1 l2, flow_ids h d = l1 ++ fid :: l2 ∧ nid ∈ flow_body h fid
                ∧ ∀ f, f ∈ l1 → nid ∉ flow_body h f)
  ∧ (∀ nid, container_flow_by_node_id h d !! nid = None ↔
       ∀ f, f ∈ flow_ids h d → nid ∉ flow_body h f)
  ∧ (∀ fid, parent_flow_by_flow_id h d !! fid ≠ Some fid)
  ∧ (∀ fid p, parent_flow_by_flow_id h d !! fid = Some p →
       container_flow_by_node_id h d !! fid = Some p ∧ p ≠ fid).
Proof.
  split; [apply sublist_filter|]. split; [apply container_lookup|].
  split; [|split; [apply container_None|split]].
  - intros nid fid. rewrite container_lookup.
    apply (head_filter_Some (λ f, nid ∈ flow_body h f)).
  - intros fid Hp. by apply parent_Some in Hp as [_ ?].
  - apply parent_Some.
Qed.

(** C1 as it is stated fails: in the graph [ex_mutual] every flow is the
    parent of the other, so the parent pointers have a cycle. *)
Lemma containment_forest_counterexample :
  discover ex_mutual 1000 "1000" 0 = Ok d_mutual
  ∧ parent_flow_by_flow_id ex_mutual d_mutual !! 0 = Some 2
  ∧ parent_flow_by_flow_id ex_mutual d_mutual !! 2 = Some 0
  ∧ ¬ parent_forest (parent_flow_by_flow_id ex_mutual d_mutual).
Proof.
  assert (parent_flow_by_flow_id ex_mutual d_mutual !! 0 = Some 2) as H0
    by (vm_compute; reflexivity).
  assert (parent_flow_by_flow_id ex_mutual d_mutual !! 2 = Some 0) as H2
    by (vm_compute; reflexivity).
  split; [vm_compute; reflexivity|]. split; [done|]. split; [done|].
  intros Hf. apply (Hf 0). eapply tc_l; [exact H0|]. by apply tc_once.
Qed.

(** ** C2: exit sources *)


(** ** C4: rewritten edges *)


(** ** C3: real start *)

Lemma visualize_lines_highlighted h flow namespace direction sd max_nodes ls ws :
  visualize_lines h flow namespace direction sd true max_nodes = Ok (ls, ws) →
  ∃ d pre rids mids,
    discovery_of h flow max_nodes d
    ∧ ls = pre ++ highlight_lines mids ++ [LFenceEnd]
    ∧ Forall2 (λ rid mid, mermaid_id_by_obj_id d !! rid = Some mid) rids mids
    ∧ (∀ rid, rid ∈ rids ↔ ∃ f, f ∈ flow_ids h d ∧ _real_start h f = Some rid)
    ∧ (∀ f, f ∈ flow_ids h d → _real_start h f = None → NoResolvableStart ∈ ws).
Proof.
  intros Hv. destruct (visualize_lines_inv _ _ _ _ _ _ _ _ _ Hv)
    as (Hdir & n & d & Hint & Hpos & Hd).
  destruct (visualize_lines_ok h flow namespace direction sd true max_nodes n d
              Hdir Hint Hpos Hd)
    as (start & body & rids & mids & ws' & _ & _ & Hperm & Hmids & Hv').
  rewrite Hv in Hv'. injection Hv' as -> ->.
  exists d, ([LFence; LHeader (direction_u direction); LStart start] ++ body), rids, mids.
  split; [by exists n|]. split; [by rewrite <- app_assoc|]. split; [done|]. split.
  - intros rid. rewrite Hperm, elem_of_elements. unfold highlight_ids.
    rewrite elem_of_list_to_set, list_elem_of_omap. naive_solver.
  - intros f Hf Hn. apply elem_of_app. right. apply list_elem_of_fmap.
    exists f. split; [done|]. by apply list_elem_of_filter.
Qed.

Lemma delegates_false_cases h x :
  delegates h x = false ↔ is_flow (get h x) = false ∨ start_node (get h x) = None.
Proof.
  unfold delegates. rewrite andb_false_iff, bool_decide_eq_false.
  split; (intros [?|Hs]; [by left|right]).
  - by destruct (start_node (get h x)); [destruct Hs|].
  - by rewrite Hs; intros [].
Qed.

(** C3.  The loop of [_real_start] returns for every flow of every graph.
    It follows the [start_node] chain while the object at hand is a flow
    with a [start_node], and returns the first object that is not: a chain
    that reaches such an object resolves to it, and a resolved real start
    is always such an object at the end of the chain.  A chain that comes
    back to an object it has passed resolves to nothing.  With the starts
    highlighted, a call that returns has a warning for every discovered
    flow without a real start, and the highlighted objects are exactly the
    real starts of the discovered flows that have one.  For [F1] whose
    [start_node] is the flow [F2] whose [start_node] is the plain node [N],
    the real start of [F1] is [N]. *)
Theorem real_start_resolution h fid :
  real_start_loop (S (length h)) h (start_node (get h fid)) ∅
  = Some (_real_start h fid)
  ∧ (∀ x0 y, start_node (get h fid) = Some x0 → rtc (delegates_to h) x0 y →
       is_flow (get h y) = false ∨ start_node (get h y) = None →
       _real_start h fid = Some y)
  ∧ (∀ t, _real_start h fid = Some t →
       ∃ x0, start_node (get h fid) = Some x0 ∧ rtc (delegates_to h) x0 t
             ∧ (is_flow (get h t) = false ∨ start_node (get h t) = None))
  ∧ (∀ x0 y, start_node (get h fid) = Some x0 → rtc (delegates_to h) x0 y →
       tc (delegates_to h) y y → _real_start h fid = None)
  ∧ (∀ flow namespace direction sd max_nodes (R : gset nat),
       (∀ x, x ∈ R ↔ reachable h flow x) →
       direction_u direction ∈ valid_directions →
       budget_allows max_nodes (size R) →
       ∃ ls ws d pre rids mids,
         visualize_lines h flow namespace direction sd true max_nodes = Ok (ls, ws)
         ∧ discovery_of h flow max_nodes d
         ∧ ls = pre ++ highlight_lines mids ++ [LFenceEnd]
         ∧ Forall2 (λ rid mid, mermaid_id_by_obj_id d !! rid = Some mid) rids mids
         ∧ (∀ rid, rid ∈ rids ↔
              ∃ f, f ∈ flow_ids h d ∧ _real_start h f = Some rid)
         ∧ (fid ∈ flow_ids h d → _real_start h fid = None →
            NoResolvableStart ∈ ws))
  ∧ (∀ f2 n, start_node (get h fid) = Some f2 → is_flow (get h f2) = true →
       start_node (get h f2) = Some n → is_flow (get h n) = false →
       _real_start h fid = Some n).
Proof.
  split; [apply real_start_total|]. split; [|split; [|split; [|split]]].
  - intros x0 y Hs Hc Hy. eapply real_start_stops; [done..|].
    by apply delegates_false_cases.
  - intros t (x0 & Hs & Hc & Ht)%real_start_sound. exists x0.
    by rewrite <- delegates_false_cases.
  - apply real_start_cycle.
  - intros flow namespace direction sd max_nodes R HR Hdir Hb.
    pose proof (visualize_succeeds h flow namespace direction sd true max_nodes R
                  HR Hdir Hb) as Hok.
    destruct (visualize_lines _ _ _ _ _ _ _) as [[ls ws]|] eqn:Hv; [|done].
    destruct (visualize_lines_highlighted _ _ _ _ _ _ _ _ Hv)
      as (d & pre & rids & mids & Hd & Hls & Hm & Hr & Hw).
    exists ls, ws, d, pre, rids, mids. naive_solver.
  - intros f2 n Hs Hf2 Hn Hnf. eapply real_start_stops; [done| |].
    + apply rtc_once. split; [|done]. unfold delegates. rewrite Hf2, Hn. done.
    + apply delegates_false_cases. by left.
Qed.

Lemma real_start_resolution_witness :
  start_node (get ex_chain 0) = Some 1 ∧ is_flow (get ex_chain 1) = true
  ∧ start_node (get ex_chain 1) = Some 2 ∧ is_flow (get ex_chain 2) = false
  ∧ _real_start ex_chain 0 = Some 2.
Proof.
  assert (start_node (get ex_chain 0) = Some 1) as H0 by reflexivity.
  assert (is_flow (get ex_chain 1) = true) as H1 by reflexivity.
  assert (start_node (get ex_chain 1) = Some 2) as H2 by reflexivity.
  assert (is_flow (get ex_chain 2) = false) as H3 by reflexivity.
  split; [exact H0|]. split; [exact H1|]. split; [exact H2|]. split; [exact H3|].
  destruct (real_start_resolution ex_chain 0) as (_ & _ & _ & _ & _ & Hc).
  exact (Hc 1 2 H0 H1 H2 H3).
Defined.

(** ** C5: one block for a flow *)

Lemma visualize_lines_blocks h flow namespace direction sd hl max_nodes ls ws :
  visualize_lines h flow namespace direction sd hl max_nodes = Ok (ls, ws) →
  NoDup (subgraph_ids ls)
  ∧ ∃ d T, discovery_of h flow max_nodes d ∧ NoDup T
           ∧ (∀ f, f ∈ T → f ∈ expanded_flow_ids h d)
           ∧ subgraph_ids ls = sub_id_of d <$> T.
Proof.
  intros Hv. destruct (visualize_lines_inv _ _ _ _ _ _ _ _ _ Hv)
    as (Hdir & n & d & Hint & Hpos & Hd).
  destruct (visualize_lines_ok h flow namespace direction sd hl max_nodes n d
              Hdir Hint Hpos Hd)
    as (start & body & rids & mids & ws' & _ & (Hnd & T & HT & HTe & Hsub) & _ & _ & Hv').
  assert (subgraph_ids ([LFence; LHeader (direction_u direction); LStart start]
            ++ body ++ (if hl then highlight_lines mids else []) ++ [LFenceEnd])
          = subgraph_ids body) as Heq.
  { rewrite !subgraph_ids_app. simpl. rewrite app_nil_r.
    destruct hl; [rewrite subgraph_ids_highlight|]; by rewrite app_nil_r. }
  rewrite Hv in Hv'. injection Hv' as Hls _. cbn [app] in Heq. rewrite Hls, Heq.
  split; [done|]. exists d, T. split; [by exists n|done].
Qed.

(** C5.  In the output of every call that returns, no two [subgraph] lines
    have the same identifier: the blocks are those of a list of expanded
    flows without repetition, one block for each.  A call of
    [_render_flow] for a flow that is on the rendering stack returns the
    state as it is, and the rendering of every graph returns: the call
    never ends for want of fuel. *)
Theorem render_flow_once h flow namespace direction sd hl max_nodes :
  (∀ ls ws,
     visualize_lines h flow namespace direction sd hl max_nodes = Ok (ls, ws) →
     NoDup (subgraph_ids ls)
     ∧ ∃ d T, discovery_of h flow max_nodes d ∧ NoDup T
              ∧ (∀ f, f ∈ T → f ∈ expanded_flow_ids h d)
              ∧ subgraph_ids ls = sub_id_of d <$> T)
  ∧ (∀ d names_by_id bodies containers expanded buckets fuel fid indent st,
       fid ∈ rendering_stack st →
       _render_flow h d names_by_id sd bodies containers expanded buckets
         (S fuel) fid indent st = Ok st)
  ∧ visualize_lines h flow namespace direction sd hl max_nodes ≠ Fail OutOfFuel
  ∧ (∀ key, visualize_lines h flow namespace direction sd hl max_nodes
            ≠ Fail (KeyError key)).
Proof.
  split; [apply visualize_lines_blocks|]. split.
  { intros. by apply render_flow_on_stack. }
  destruct (reachable_finite h flow) as [R HR].
  destruct (decide (direction_u direction ∈ valid_directions)) as [Hdir|Hdir].
  - pose proof (visualize_lines_outcome h flow namespace direction sd hl max_nodes
                  R HR Hdir) as Ho.
    destruct (visualize_lines _ _ _ _ _ _ _) as [x|e]; [done|].
    split; [|intros key]; intros [= ->]; naive_solver.
  - rewrite visualize_lines_bad_direction by done. done.
Qed.

Lemma render_flow_once_witness :
  visualize_lines ex_nested 0 NsFalsy None false true (MaxInt 1000)
  = Ok ([LFence; LHeader "LR"; LStart "n2";
         LSubgraph "  " "subflow_n0" "Flow"; LNode "    " "n3" "N";
         LSubgraph "    " "subflow_n1" "Flow#2";
         LNode "      " "n2" "N#2"; LNode "      " "n4" "N#3";
         LEdge "      " "n2" None "n4"; LEnd "    ";
         LEdge "    " "n4" None "n3"; LEnd "  ";
         LClassDef; LClass "n2"; LFenceEnd],
        [MissingNamespace; MissingName "Flow"; MissingName "N";
         MissingName "Flow"; MissingName "N"; MissingName "N"])
  ∧ NoDup ["subflow_n0"; "subflow_n1"].
Proof.
  split; [vm_compute; reflexivity|].
  destruct (render_flow_once ex_nested 0 NsFalsy None false true (MaxInt 1000))
    as (Hb & _).
  destruct (Hb _ _ ltac:(vm_compute; reflexivity)) as [Hnd _]. exact Hnd.
Defined.

(** ** C6: the node budget *)

(** C6.  Take a call with a direction that is accepted, and let [R] be the
    set of the objects the discovery can reach from the entry flow.  The
    call returns exactly when the budget is a positive integer that is at
    least the size of [R].  It raises [ValueError] exactly when the budget
    is not a positive integer, whatever the graph is, and it raises
    [RuntimeError] exactly when the budget is a positive integer smaller
    than the size of [R]; it raises nothing else. *)
Theorem budget_outcome h flow :
  ∃ R : gset nat,
    (∀ x, x ∈ R ↔ reachable h flow x)
    ∧ ∀ namespace direction sd hl max_nodes,
        direction_u direction ∈ valid_directions →
        (is_ok (visualize h flow namespace direction sd hl max_nodes)
         ↔ budget_allows max_nodes (size R))
        ∧ (∀ e, visualize h flow namespace direction sd hl max_nodes = Fail e ↔
             (e = ValueError "max_nodes must be a positive integer"
              ∧ ¬ budget_valid max_nodes)
             ∨ (e = RuntimeError
                      ("max_nodes exceeded: " +:+ str_of_max_nodes max_nodes)
                ∧ ∃ n, int_value max_nodes = Some n ∧ (0 < n)%Z
                       ∧ (n < Z.of_nat (size R))%Z))
        ∧ (¬ budget_valid max_nodes →
           ∀ h' flow', visualize h' flow' namespace direction sd hl max_nodes
                       = Fail (ValueError "max_nodes must be a positive integer")).
Proof.
  destruct (reachable_finite h flow) as [R HR]. exists R. split; [done|].
  intros namespace direction sd hl max_nodes Hdir.
  pose proof (visualize_lines_outcome h flow namespace direction sd hl max_nodes
                R HR Hdir) as Ho.
  split; [|split].
  - rewrite visualize_is_ok. split.
    + intros Hok. by destruct (visualize_lines _ _ _ _ _ _ _).
    + by apply visualize_succeeds.
  - intros e. rewrite visualize_fail. split.
    + intros Hf. by rewrite Hf in Ho.
    + intros Hcase. destruct (visualize_lines _ _ _ _ _ _ _) as [x|e'].
      * destruct Ho as (n & Hn & Hpos & Hle).
        destruct Hcase as [[_ Hb]|[_ (n' & Hn' & _ & Hlt)]].
        -- destruct Hb. by exists n.
        -- simplify_eq. lia.
      * f_equal.
        destruct Ho as [[-> Hb]|[-> (n & Hn & Hpos & Hlt)]];
          destruct Hcase as [[-> Hb']|[-> (n' & Hn' & Hpos' & Hlt')]]; try done.
        -- destruct Hb. by exists n'.
        -- destruct Hb'. by exists n.
  - intros Hb h' flow'. apply visualize_fail. by apply visualize_lines_bad_budget.
Qed.

Lemma budget_outcome_witness :
  direction_u (Some "td") ∈ valid_directions
  ∧ ∃ R : gset nat,
      (∀ x, x ∈ R ↔ reachable ex_chain 0 x)
      ∧ (is_ok (visualize ex_chain 0 NsFalsy (Some "td") false false (MaxInt 3))
         ↔ budget_allows (MaxInt 3) (size R)).
Proof.
  assert (direction_u (Some "td") ∈ valid_directions) as Hdir
    by (vm_compute; set_solver).
  split; [exact Hdir|].
  destruct (budget_outcome ex_chain 0) as (R & HR & Hcall). exists R.
  split; [exact HR|].
  exact (proj1 (Hcall NsFalsy (Some "td") false false (MaxInt 3) Hdir)).
Defined.

(** ** C7: the direction *)

Lemma direction_u_nonempty s :
  s ≠ EmptyString → direction_u (Some s) = upper s.
Proof. by destruct s. Qed.

Lemma direction_u_falsy direction :
  falsy_direction direction → direction_u direction = "LR".
Proof. by intros [-> | ->]. Qed.

Lemma visualize_header h flow namespace direction sd hl max_nodes (R : gset nat) :
  (∀ x, x ∈ R ↔ reachable h flow x) →
  direction_u direction ∈ valid_directions →
  budget_allows max_nodes (size R) →
  ∃ rest ws,
    visualize_lines h flow namespace direction sd hl max_nodes
    = Ok (LFence :: LHeader (direction_u direction) :: rest, ws)
    ∧ visualize h flow namespace direction sd hl max_nodes
      = Ok (String.concat newline
              ("```mermaid" :: ("flowchart " +:+ direction_u direction)
               :: (line_text <$> rest)), ws).
Proof.
  intros HR Hdir (n & Hn & Hpos & Hle).
  pose proof (discover_budget h n (str_of_max_nodes max_nodes) flow R HR) as Hb.
  destruct (discover h n (str_of_max_nodes max_nodes) flow) as [d|e] eqn:Hd.
  - destruct (visualize_lines_ok h flow namespace direction sd hl max_nodes n d
                Hdir Hn Hpos Hd)
      as (start & body & rids & mids & ws & _ & _ & _ & _ & Hv).
    eexists _, _. unfold visualize. rewrite Hv. split; reflexivity.
  - destruct Hb as [_ Hlt]. lia.
Qed.

(** C7, as amended.  A direction that is not empty and whose uppercase form
    is outside LR, RL, TB, TD and BT is rejected with [ValueError], whatever
    the graph is.  A direction that is not empty and whose uppercase form
    is one of the five gives, when the budget allows the graph, a call that
    returns and whose second line is [flowchart] followed by the uppercase
    form.  The empty string and [None] are not rejected: they are read as
    LR. *)
Theorem direction_checked h flow namespace direction sd hl max_nodes :
  (∀ s, direction = Some s → s ≠ EmptyString → upper s ∉ valid_directions →
     visualize h flow namespace direction sd hl max_nodes
     = Fail (ValueError "direction must be one of LR/RL/TB/TD/BT"))
  ∧ (∀ s (R : gset nat), direction = Some s → s ≠ EmptyString →
       upper s ∈ valid_directions →
       (∀ x, x ∈ R ↔ reachable h flow x) → budget_allows max_nodes (size R) →
       ∃ rest ws,
         visualize h flow namespace direction sd hl max_nodes
         = Ok (String.concat newline
                 ("```mermaid" :: ("flowchart " +:+ upper s) :: rest), ws))
  ∧ (falsy_direction direction →
     visualize h flow namespace direction sd hl max_nodes
     = visualize h flow namespace (Some "LR") sd hl max_nodes).
Proof.
  split; [|split].
  - intros s -> Hs Hout. apply visualize_fail.
    apply visualize_lines_bad_direction. by rewrite direction_u_nonempty.
  - intros s R -> Hs Hin HR Hb.
    destruct (visualize_header h flow namespace (Some s) sd hl max_nodes R HR)
      as (rest & ws & _ & Hv); [by rewrite direction_u_nonempty|done|].
    rewrite direction_u_nonempty in Hv by done. eauto.
  - by intros [-> | ->].
Qed.

Lemma direction_checked_witness :
  visualize ex_chain 0 NsFalsy (Some "sideways") false false (MaxInt 1000)
  = Fail (ValueError "direction must be one of LR/RL/TB/TD/BT").
Proof.
  destruct (direction_checked ex_chain 0 NsFalsy (Some "sideways") false false
              (MaxInt 1000)) as (Hrej & _).
  apply (Hrej "sideways"); [reflexivity|discriminate|].
  vm_compute. set_solver.
Defined.

(** C7 as it is stated fails: the empty string is outside the five values,
    in any case of the letters, and the call returns. *)
Lemma direction_counterexample :
  (EmptyString ∉ valid_directions) ∧ (upper EmptyString ∉ valid_directions)
  ∧ visualize_lines ex_chain 0 NsFalsy (Some EmptyString) false false (MaxInt 1000)
    = Ok ([LFence; LHeader "LR"; LStart "n2";
           LSubgraph "  " "subflow_n0" "Flow";
           LSubgraph "    " "subflow_n1" "Flow#2";
           LNode "      " "n2" "Node"; LEnd "    "; LEnd "  "; LFenceEnd],
          [MissingNamespace; MissingName "Flow"; MissingName "Flow";
           MissingName "Node"])
  ∧ is_ok (visualize ex_chain 0 NsFalsy (Some EmptyString) false false
             (MaxInt 1000)).
Proof.
  split; [vm_compute; set_solver|]. split; [vm_compute; set_solver|].
  split; vm_compute; reflexivity.
Qed.

(** ** C10: a falsy direction *)

(** C10.  A direction that is [None] or the empty string is none of the
    five values, and it is not rejected: the call is the call with LR.
    When the budget allows the graph it returns, and the second line of
    the text is [flowchart LR]. *)
Theorem falsy_direction_is_LR h flow namespace direction sd hl max_nodes :
  falsy_direction direction →
  (direction ∉ (Some <$> valid_directions))
  ∧ direction_u direction = "LR"
  ∧ visualize h flow namespace direction sd hl max_nodes
    = visualize h flow namespace (Some "LR") sd hl max_nodes
  ∧ visualize h flow namespace direction sd hl max_nodes
    ≠ Fail (ValueError "direction must be one of LR/RL/TB/TD/BT")
  ∧ ∀ R : gset nat,
      (∀ x, x ∈ R ↔ reachable h flow x) → budget_allows max_nodes (size R) →
      ∃ rest ws,
        visualize h flow namespace direction sd hl max_nodes
        = Ok (String.concat newline ("```mermaid" :: "flowchart LR" :: rest), ws).
Proof.
  intros Hf. pose proof (direction_u_falsy _ Hf) as Hu.
  assert (direction_u direction ∈ valid_directions) as Hdir
    by (rewrite Hu; apply list_elem_of_here).
  split; [|split; [done|split; [by destruct Hf as [-> | ->]|split]]].
  - intros (s & -> & Hs)%list_elem_of_fmap. destruct Hf as [?|[= ->]]; [done|].
    vm_compute in Hs. set_solver.
  - destruct (reachable_finite h flow) as [R HR].
    rewrite visualize_fail.
    pose proof (visualize_lines_outcome h flow namespace direction sd hl max_nodes
                  R HR Hdir) as Ho.
    destruct (visualize_lines _ _ _ _ _ _ _) as [x|e]; [done|].
    intros [= ->]. naive_solver.
  - intros R HR Hb.
    destruct (visualize_header h flow namespace direction sd hl max_nodes R HR Hdir Hb)
      as (rest & ws & _ & Hv).
    rewrite Hu in Hv. eauto.
Qed.

Lemma falsy_direction_witness :
  falsy_direction None
  ∧ visualize ex_chain 0 NsFalsy None false false (MaxInt 1000)
    = visualize ex_chain 0 NsFalsy (Some "LR") false false (MaxInt 1000).
Proof.
  assert (falsy_direction None) as Hf by (left; reflexivity).
  split; [exact Hf|].
  destruct (falsy_direction_is_LR ex_chain 0 NsFalsy None false false
              (MaxInt 1000) Hf) as (_ & _ & Heq & _).
  exact Heq.
Defined.

(** ** C9: a flow without [start_node] *)

(** C9, at the graph [ex_hidden]: [F1.start_node] is [F2], [F2.start_node]
    is [F1], and [F2] has the successor [G], a flow without [start_node].
    The discovery visits [G], and the call for [F1] returns, but the text
    has no declaration for [G]: its lines are the two of the head, the
    [start] edge and the closing fence. *)
Theorem flow_without_start_not_declared :
  is_flow (get ex_hidden 2) = true ∧ start_node (get ex_hidden 2) = None
  ∧ reachable ex_hidden 0 2
  ∧ _is_expanded_flow ex_hidden (Some 2) = false
  ∧ visualize_lines ex_hidden 0 NsFalsy None false true (MaxInt 1000)
    = Ok ([LFence; LHeader "LR"; LStart "n0"; LFenceEnd],
          [MissingNamespace; NoResolvableStart; NoResolvableStart;
           NoResolvableStart])
  ∧ visualize ex_hidden 0 NsFalsy None false true (MaxInt 1000)
    = Ok (String.concat newline
            ["```mermaid"; "flowchart LR"; "  start((Start)) --> n0"; "```"],
          [MissingNamespace; NoResolvableStart; NoResolvableStart;
           NoResolvableStart]).
Proof.
  split; [reflexivity|]. split; [reflexivity|]. split.
  { eapply rtc_l; [left; vm_compute; apply list_elem_of_here|].
    apply rtc_once. right. vm_compute. apply list_elem_of_here. }
  split; [vm_compute; reflexivity|]. split; vm_compute; reflexivity.
Qed.

(** ** C8: the order of the sets *)


(** * Further properties of the code *)

(** ** The discovery *)

Lemma discover_loop_prefix h max_nodes max_str fuel : ∀ queue d d',
  discover_loop fuel h max_nodes max_str queue d = Ok d' →
  visit_order d `prefix_of` visit_order d'.
Proof.
  induction fuel as [|fuel IH]; intros queue d d' Hl; [done|]. simpl in Hl.
  destruct queue as [|cid queue]; [by simplify_eq|].
  case_decide; [by eapply IH|]. case_decide; [done|].
  destruct (scan_successors _ _ _ _) as [es q]. apply IH in Hl. simpl in Hl.
  etrans; [|exact Hl]. by apply prefix_app_r.
Qed.

Lemma discover_head h max_nodes max_str flow d :
  discover h max_nodes max_str flow = Ok d → head (visit_order d) = Some flow.
Proof.
  unfold discover, traversal_fuel.
  change (2 + heap_weight h ∅) with (S (S (heap_weight h ∅))).
  generalize (S (heap_weight h ∅)). intros fuel. simpl.
  rewrite decide_False by set_solver.
  case_decide; [done|]. destruct (scan_successors _ _ _ _) as [es q].
  intros [k Hk]%discover_loop_prefix. simpl in Hk. by rewrite Hk.
Qed.

Lemma first_visits_elem l : ∀ seen x,
  x ∈ first_visits seen l ↔ x ∈ l ∧ x ∉ seen.
Proof.
  induction l as [|y l IH]; intros seen x; simpl.
  - split; [by intros ?%elem_of_nil|by intros [?%elem_of_nil _]].
  - case_decide as Hy.
    + rewrite IH, elem_of_cons. split; [naive_solver|].
      intros [[->|?] ?]; [done|by split].
    + rewrite !elem_of_cons, IH. split.
      * intros [->|[? ?]]; [split; [by left|done]|]. split; [by right|set_solver].
      * intros [[->|?] ?]; [by left|]. destruct (decide (x = y)) as [->|]; [by left|].
        right. split; [done|set_solver].
Qed.

Lemma first_visits_app l1 : ∀ seen l2,
  first_visits seen (l1 ++ l2)
  = first_visits seen l1 ++ first_visits (list_to_set l1 ∪ seen) l2.
Proof.
  induction l1 as [|y l1 IH]; intros seen l2; simpl.
  - by rewrite (left_id_L ∅ (∪)).
  - case_decide as Hy.
    + rewrite IH. do 2 f_equal. set_solver.
    + simpl. rewrite IH. do 3 f_equal. set_solver.
Qed.

(** The queue is served in the order of the arrivals: the objects visited
    are the first occurrences in the list of all that was ever queued. *)
Lemma discover_loop_order h max_nodes max_str flow fuel : ∀ queue d d' served,
  discover_loop fuel h max_nodes max_str queue d = Ok d' →
  visited d = list_to_set (visit_order d) →
  flow :: (visit_order d ≫= queued_by h) = served ++ queue →
  first_visits ∅ served = visit_order d →
  visit_order d' = first_visits ∅ (flow :: (visit_order d' ≫= queued_by h)).
Proof.
  induction fuel as [|fuel IH]; intros queue d d' served Hl Hv Hq Hs; [done|].
  simpl in Hl. destruct queue as [|cid queue].
  { simplify_eq. rewrite app_nil_r in Hq. by rewrite Hq. }
  assert (cid ∈ visited d ↔ cid ∈ served) as Hcid.
  { rewrite Hv, elem_of_list_to_set, <- Hs, first_visits_elem. set_solver. }
  assert (list_to_set served ∪ (∅ : gset nat) = visited d) as Hset.
  { apply set_eq. intros x. rewrite Hv, elem_of_list_to_set, <- Hs, first_visits_elem.
    set_solver. }
  case_decide as Hin.
  - apply (IH _ _ _ (served ++ [cid])) in Hl; [done|done| |].
    + by rewrite <- app_assoc.
    + rewrite first_visits_app, Hset. simpl. rewrite decide_True by done.
      by rewrite app_nil_r.
  - case_decide; [done|]. rewrite scan_successors_eq in Hl.
    apply (IH _ _ _ (served ++ [cid])) in Hl; [done| | |]; simpl.
    + rewrite Hv, list_to_set_app_L. set_solver.
    + rewrite bind_app, app_comm_cons, Hq. simpl. rewrite app_nil_r.
      unfold queued_by. by rewrite <- !app_assoc.
    + rewrite first_visits_app, Hset. simpl. rewrite decide_False by done.
      by rewrite Hs.
Qed.

Lemma discover_order h max_nodes max_str flow d :
  discover h max_nodes max_str flow = Ok d →
  visit_order d = first_visits ∅ (flow :: (visit_order d ≫= queued_by h)).
Proof.
  intros Hd. by apply (discover_loop_order _ _ _ flow _ _ _ _ [] Hd).
Qed.

(** The discovery is a breadth-first walk from the entry flow over the
    [start_node] of flows and the successors that are not [None].  When it
    returns, [visit_order] lists, without repetition and beginning with the
    entry flow, exactly the objects that can be reached, in the order of a
    queue: the entry flow, then what the visited objects have queued, the
    start node of a flow before its successors and these in the order of
    their action labels, every object where it comes first.  [edges] holds
    exactly the triples of a visited object, an action and its successor,
    and the number of objects is within the budget.  It raises only
    [RuntimeError], and only when more objects can be reached than the
    budget allows. *)
Theorem discover_correct h max_nodes max_str flow :
  match discover h max_nodes max_str flow with
  | Ok d =>
      NoDup (visit_order d)
      ∧ head (visit_order d) = Some flow
      ∧ visit_order d = first_visits ∅ (flow :: (visit_order d ≫= queued_by h))
      ∧ visited d = list_to_set (visit_order d)
      ∧ (∀ x, x ∈ visit_order d ↔ reachable h flow x)
      ∧ (∀ c act n, (c, act, n) ∈ edges d ↔
           reachable h flow c ∧ successors (get h c) !! act = Some (Some n))
      ∧ (Z.of_nat (length (visit_order d)) ≤ max_nodes)%Z
  | Fail e =>
      e = RuntimeError ("max_nodes exceeded: " +:+ max_str)
      ∧ ∃ l : list nat, NoDup l ∧ (∀ x, x ∈ l → reachable h flow x)
                        ∧ (max_nodes < Z.of_nat (length l))%Z
  end.
Proof.
  pose proof (discover_spec h max_nodes max_str flow) as Hspec.
  destruct (discover h max_nodes max_str flow) as [d|e] eqn:Hd; [|done].
  destruct Hspec as [[Hv Hnd Hreach Hedges] Hlen].
  split; [done|]. split; [by eapply discover_head|].
  split; [by eapply discover_order|]. split; [done|].
  split; [|split; [|done]].
  - intros x. rewrite <- Hreach, Hv. by rewrite elem_of_list_to_set.
  - intros c act n. by rewrite Hedges, Hreach, live_successors_spec.
Qed.

(** ** The Mermaid identifiers *)

Lemma mermaid_id_of_position h max_nodes max_str flow d o mid :
  discover h max_nodes max_str flow = Ok d →
  mermaid_id_by_obj_id d !! o = Some mid ↔
  ∃ i, visit_order d !! i = Some o ∧ mid = "n" +:+ pretty i.
Proof.
  intros Hd%discover_discovered. rewrite mermaid_id_lookup.
  split; intros (i & Hi & ->); exists i; (split; [|done]);
    by apply (order_index_lookup d o i (disc_nodup _ _ _ Hd)).
Qed.

Lemma mermaid_id_root h max_nodes max_str flow d :
  discover h max_nodes max_str flow = Ok d →
  mermaid_id_by_obj_id d !! flow = Some "n0".
Proof.
  intros Hdisc. apply (mermaid_id_of_position _ _ _ _ _ _ _ Hdisc).
  exists 0. split; [|done].
  apply discover_head in Hdisc. by destruct (visit_order d).
Qed.

(** After a discovery that returns, an object has a Mermaid identifier
    exactly when it can be reached from the entry flow; the identifier is
    [n] followed by the position of the object in the order of the visits,
    so the entry flow is [n0], and no two objects have the same
    identifier. *)
Theorem mermaid_ids_distinct h max_nodes max_str flow d :
  discover h max_nodes max_str flow = Ok d →
  (∀ o, is_Some (mermaid_id_by_obj_id d !! o) ↔ reachable h flow o)
  ∧ (∀ o mid, mermaid_id_by_obj_id d !! o = Some mid ↔
       ∃ i, visit_order d !! i = Some o ∧ mid = "n" +:+ pretty i)
  ∧ (∀ o1 o2 mid, mermaid_id_by_obj_id d !! o1 = Some mid →
       mermaid_id_by_obj_id d !! o2 = Some mid → o1 = o2)
  ∧ mermaid_id_by_obj_id d !! flow = Some "n0".
Proof.
  intros Hdisc. pose proof (discover_discovered _ _ _ _ _ Hdisc) as Hd.
  pose proof (λ o mid, mermaid_id_of_position h max_nodes max_str flow d o mid Hdisc)
    as Hlook.
  split; [|split; [intros; apply Hlook|split]].
  - intros o. rewrite (mermaid_id_is_Some h flow d o Hd).
    apply (disc_reach _ _ _ Hd).
  - intros o1 o2 mid (i1 & H1 & ->)%(Hlook o1) (i2 & H2 & Heq)%(Hlook o2).
    apply append_inj_prefix, pretty_nat_inj in Heq. subst i2. congruence.
  - by eapply mermaid_id_root.
Qed.

Lemma mermaid_ids_witness :
  discover ex_simple 1000 "1000" 0 = Ok d_simple
  ∧ mermaid_id_by_obj_id d_simple !! 0 = Some "n0".
Proof.
  assert (discover ex_simple 1000 "1000" 0 = Ok d_simple) as Hd
    by (vm_compute; reflexivity).
  split; [exact Hd|].
  exact (proj2 (proj2 (proj2 (mermaid_ids_distinct _ _ _ _ _ Hd)))).
Defined.

(** ** The order of the action labels *)

Lemma str_compare_refl s : String.compare s s = Eq.
Proof.
  induction s as [|a s IH]; [done|]. simpl.
  assert (Ascii.compare a a = Eq) as -> by apply N.compare_refl. done.
Qed.

Lemma ascii_compare_lt_trans a b c :
  Ascii.compare a b = Lt → Ascii.compare b c = Lt → Ascii.compare a c = Lt.
Proof. unfold Ascii.compare. rewrite !N.compare_lt_iff. lia. Qed.

Lemma str_compare_lt_trans s1 : ∀ s2 s3,
  String.compare s1 s2 = Lt → String.compare s2 s3 = Lt →
  String.compare s1 s3 = Lt.
Proof.
  induction s1 as [|a s1 IH]; intros [|b s2] [|c s3]; simpl; try done.
  destruct (Ascii.compare a b) eqn:Eab; [| |done].
  - apply Ascii.compare_eq_iff in Eab as ->.
    destruct (Ascii.compare b c); [apply IH|done|done].
  - destruct (Ascii.compare b c) eqn:Ebc; [| |done].
    + apply Ascii.compare_eq_iff in Ebc as ->. by rewrite Eab.
    + by rewrite (ascii_compare_lt_trans a b c Eab Ebc).
Qed.

Lemma str_le_cases a b : str_le a b ↔ a = b ∨ String.compare a b = Lt.
Proof.
  unfold str_le, String.leb. split.
  - destruct (String.compare a b) eqn:E; [|by right|done].
    left. by apply String.compare_eq_iff.
  - intros [-> | ->]; [|done]. by rewrite str_compare_refl.
Qed.

Lemma str_le_trans : Transitive str_le.
Proof.
  intros a b c [-> | Hab]%str_le_cases [-> | Hbc]%str_le_cases;
    apply str_le_cases; eauto using str_compare_lt_trans.
Qed.

Lemma str_le_total : Total str_le.
Proof. intros a b. apply String.leb_total. Qed.

Lemma str_le_antisym : AntiSymm eq str_le.
Proof. intros a b. apply String.leb_antisym. Qed.

Lemma str_lt_irrefl a : String.ltb a a = false.
Proof. unfold String.ltb. by rewrite str_compare_refl. Qed.

Lemma sort_keys_sorted {V} (m : gmap string V) :
  StronglySorted str_le (_sort_keys m) ∧ NoDup (_sort_keys m).
Proof.
  split.
  - apply (@StronglySorted_merge_sort _ str_le _ str_le_trans str_le_total).
  - unfold _sort_keys. rewrite merge_sort_Permutation. apply NoDup_elements.
Qed.

Lemma omap_fst_sublist {A B} (f : A → option B) (l : list A) :
  sublist (fst <$> omap (λ a, (λ b, (a, b)) <$> f a) l) l.
Proof.
  induction l as [|a l IH]; [done|]. csimpl.
  destruct (f a); csimpl; by constructor.
Qed.

Lemma StronglySorted_sublist {A} (R : relation A) (l1 l2 : list A) :
  sublist l1 l2 → StronglySorted R l2 → StronglySorted R l1.
Proof.
  induction 1 as [|x l1 l2 Hsub IH|x l1 l2 Hsub IH];
    rewrite ?StronglySorted_cons; [done| |naive_solver].
  intros [Hx Hl]. split; [|by apply IH].
  eapply Forall_forall. intros y Hy. eapply Forall_forall in Hx; [done|].
  by eapply elem_of_sublist.
Qed.

(** ** The successors of an object *)

(** For a [successors] dictionary whose keys are all of type [str] (the
    dictionaries of the model; [sorted] then does not raise and the
    fallback of [_sort_keys] is not taken), the loops over
    [_sort_keys(succ)] run their body for exactly the actions whose
    successor is not [None], each action once and in increasing order of
    the labels.  The sorted keys do not depend on the order in which the
    dictionary lists them. *)
Theorem live_successors_sorted (o : obj) :
  (∀ act nxt, (act, nxt) ∈ live_successors o ↔
     successors o !! act = Some (Some nxt))
  ∧ NoDup (fst <$> live_successors o)
  ∧ StronglySorted str_le (fst <$> live_successors o)
  ∧ (∀ keys, keys ≡ₚ elements (dom (successors o)) →
       merge_sort str_le keys = _sort_keys (successors o)).
Proof.
  destruct (sort_keys_sorted (successors o)) as [Hsorted Hnd].
  assert (sublist (fst <$> live_successors o) (_sort_keys (successors o))) as Hsub.
  { apply (omap_fst_sublist (λ act, mjoin (successors o !! act))). }
  split; [apply live_successors_spec|]. split; [|split].
  - by eapply sublist_NoDup.
  - by eapply StronglySorted_sublist.
  - intros keys Hkeys. apply (@StronglySorted_unique _ str_le str_le_antisym).
    + apply (@StronglySorted_merge_sort _ str_le _ str_le_trans str_le_total).
    + done.
    + unfold _sort_keys. by rewrite !merge_sort_Permutation.
Qed.

(** ** The bodies of the flows *)

(** [body_by_flow_id] has an entry for exactly the discovered flows.  The
    body of a flow holds exactly the objects that can be reached from its
    [start_node] over successors that are not [None]; the [start_node] of
    a flow met on the way is not followed.  It is empty for a flow without
    [start_node], and every member of a body is a discovered object. *)
Theorem flow_bodies h max_nodes max_str flow d :
  discover h max_nodes max_str flow = Ok d →
  (∀ fid, is_Some (body_by_flow_id h d !! fid) ↔
     reachable h flow fid ∧ is_flow (get h fid) = true)
  ∧ ∀ fid body, body_by_flow_id h d !! fid = Some body →
      (∀ x, x ∈ body ↔
         ∃ start, start_node (get h fid) = Some start
                  ∧ rtc (succ_step h) start x)
      ∧ (start_node (get h fid) = None → body = ∅)
      ∧ (∀ x, x ∈ body → reachable h flow x).
Proof.
  intros Hdisc. pose proof (discover_discovered _ _ _ _ _ Hdisc) as Hd.
  assert (∀ fid, body_by_flow_id h d !! fid
                 = if decide (fid ∈ flow_ids h d) then Some (flow_body h fid)
                   else None) as Hlook.
  { intros fid. unfold body_by_flow_id. by rewrite foldl_insert_lookup. }
  split.
  - intros fid. rewrite Hlook. split.
    + case_decide as Hf; [|by intros []]. intros _.
      apply elem_of_flow_ids in Hf as (_ & Hv & Hfl).
      split; [by apply (disc_reach _ _ _ Hd)|done].
    + intros [Hr%(disc_reach _ _ _ Hd) Hfl]. rewrite decide_True; [by eexists|].
      apply elem_of_flow_ids. by rewrite (elem_of_visit_order h flow d).
  - intros fid body. rewrite Hlook. case_decide as Hfid; [|done]. intros [= <-].
    split; [apply flow_body_spec|]. split.
    + intros Hn. apply set_eq. intros x. rewrite flow_body_spec, Hn. set_solver.
    + intros x Hx. apply (disc_reach _ _ _ Hd), (body_visited h flow d fid); [done|].
      rewrite body_of_flow_ids. by rewrite decide_True.
Qed.

Lemma flow_bodies_witness :
  discover ex_nested 1000 "1000" 0 = Ok d_nested
  ∧ (is_Some (body_by_flow_id ex_nested d_nested !! 1) ↔
     reachable ex_nested 0 1 ∧ is_flow (get ex_nested 1) = true).
Proof.
  assert (discover ex_nested 1000 "1000" 0 = Ok d_nested) as Hd
    by (vm_compute; reflexivity).
  split; [exact Hd|].
  exact (proj1 (flow_bodies _ _ _ _ _ Hd) 1).
Defined.

(** ** The container of an edge *)

Lemma ancestors_loop_total parents fuel : ∀ c seen,
  size (dom parents ∖ seen) + 2 ≤ fuel →
  is_Some (ancestors_loop fuel parents c seen).
Proof.
  induction fuel as [|fuel IH]; intros c seen Hfuel; [lia|]. simpl.
  destruct c as [c|]; [|done]. case_decide as Hc; [done|].
  destruct (parents !! c) as [p|] eqn:Hp.
  - destruct (IH (Some p) ({[c]} ∪ seen)) as [rest ->]; [|done].
    assert (dom parents ∖ ({[c]} ∪ seen) ⊂ dom parents ∖ seen) as Hlt%subset_size; [|lia].
    apply elem_of_dom_2 in Hp. set_solver.
  - destruct fuel; [lia|]. done.
Qed.

Lemma ancestors_loop_spec parents fuel : ∀ c seen l,
  ancestors_loop fuel parents c seen = Some l →
  ∃ chain, l = (Some <$> chain) ++ [None] ∧ NoDup chain
    ∧ (∀ x, x ∈ chain →
         (x ∉ seen) ∧ ∃ c0, c = Some c0 ∧ rtc (contained_in parents) c0 x)
    ∧ (∀ c0, c = Some c0 → c0 ∉ seen → head chain = Some c0).
Proof.
  induction fuel as [|fuel IH]; intros c seen l Hl; [done|]. simpl in Hl.
  destruct c as [c|].
  2:{ exists []. simplify_eq. split; [done|]. split; [constructor|].
      split; [by intros x ?%elem_of_nil|done]. }
  case_decide as Hc.
  { exists []. simplify_eq. split; [done|]. split; [constructor|].
    split; [by intros x ?%elem_of_nil|]. by intros c0 [= ->]. }
  destruct (ancestors_loop fuel parents (parents !! c) ({[c]} ∪ seen))
    as [rest|] eqn:Hrest; [|done].
  injection Hl as <-. destruct (IH _ _ _ Hrest) as (chain & -> & Hnd & Hchain & _).
  exists (c :: chain). split; [done|]. split; [|split; [|done]].
  - constructor; [|done]. intros [Hx _]%Hchain. set_solver.
  - intros x [-> | Hx]%elem_of_cons.
    + split; [done|]. by exists c.
    + destruct (Hchain x Hx) as (Hseen & c1 & Hc1 & Hr). split; [set_solver|].
      exists c. split; [done|]. by eapply rtc_l.
Qed.

(** The walk over the parents of a flow stops on every table of parents,
    also when the pointers run in a circle: it yields flows that are all
    different, every one reached from the first over the parent pointers,
    and then [None]. *)
Theorem ancestors_walk (parents : gmap nat nat) (c : option nat) :
  ∃ chain,
    ancestors_loop (2 + size parents) parents c ∅
    = Some ((Some <$> chain) ++ [None])
    ∧ _ancestors parents c = (Some <$> chain) ++ [None]
    ∧ NoDup chain
    ∧ (∀ x, x ∈ chain → ∃ c0, c = Some c0 ∧ rtc (contained_in parents) c0 x)
    ∧ (∀ c0, c = Some c0 → head chain = Some c0).
Proof.
  destruct (ancestors_loop_total parents (2 + size parents) c ∅) as [l Hl].
  { rewrite difference_empty_L, size_dom. lia. }
  destruct (ancestors_loop_spec _ _ _ _ _ Hl) as (chain & -> & Hnd & Hchain & Hhead).
  exists chain. unfold _ancestors. rewrite Hl. split; [done|]. split; [done|].
  split; [done|]. split; [|intros c0 ->; by apply Hhead].
  intros x Hx. by destruct (Hchain x Hx).
Qed.

Lemma ancestors_elem parents c x :
  Some x ∈ _ancestors parents c →
  ∃ c0, c = Some c0 ∧ rtc (contained_in parents) c0 x.
Proof.
  destruct (ancestors_walk parents c) as (chain & _ & -> & _ & Hchain & _).
  rewrite elem_of_app, list_elem_of_fmap, list_elem_of_singleton.
  intros [(y & [= ->] & Hy)|?]; [by apply Hchain|done].
Qed.

Lemma ancestors_head parents c :
  head (_ancestors parents (Some c)) = Some (Some c).
Proof.
  destruct (ancestors_walk parents (Some c)) as (chain & _ & -> & _ & _ & Hhead).
  specialize (Hhead c eq_refl). by destruct chain; simplify_eq/=.
Qed.

Lemma ancestors_none parents : _ancestors parents None = [None].
Proof. done. Qed.

(** The flow in which an edge is drawn, when there is one, is above both
    ends: it is reached over the parent pointers from the container of the
    source and from the container of the target.  An edge between two
    objects of the same flow is drawn in this flow, and an edge with an end
    outside every flow is drawn at the top level. *)
Theorem edge_container_common (containers parents : gmap nat nat) (src tgt : nat) :
  (∀ c, _edge_container containers parents src tgt = Some c →
     ∃ cs ct, containers !! src = Some cs ∧ containers !! tgt = Some ct
              ∧ rtc (contained_in parents) cs c
              ∧ rtc (contained_in parents) ct c)
  ∧ (∀ c, containers !! src = Some c → containers !! tgt = Some c →
       _edge_container containers parents src tgt = Some c)
  ∧ (containers !! src = None ∨ containers !! tgt = None →
     _edge_container containers parents src tgt = None).
Proof.
  unfold _edge_container. split; [|split].
  - intros c Hc.
    destruct (head (filter _ _)) as [[c'|]|] eqn:Hhead; simplify_eq/=.
    apply head_Some_elem_of, list_elem_of_filter in Hhead as [Ht Hsrc].
    apply elem_of_list_to_set in Ht.
    apply ancestors_elem in Hsrc as (cs & Hcs & Hrs).
    apply ancestors_elem in Ht as (ct & Hct & Hrt). by exists cs, ct.
  - intros c -> ->.
    pose proof (ancestors_head parents c) as Hhead.
    destruct (_ancestors parents (Some c)) as [|a l]; simplify_eq/=.
    rewrite filter_cons, decide_True by set_solver. done.
  - intros [-> | ->].
    + rewrite ancestors_none, filter_cons. by case_decide.
    + rewrite ancestors_none.
      destruct (head (filter _ _)) as [[c'|]|] eqn:Hhead; [|done..].
      apply head_Some_elem_of, list_elem_of_filter in Hhead as [Ht _].
      set_solver.
Qed.

(** ** The buckets of edges *)

Lemma key_leb_spec (a b : nat * string * nat) :
  key_leb a b = true ↔
  a.1.1 < b.1.1
  ∨ (a.1.1 = b.1.1
     ∧ (String.compare a.1.2 b.1.2 = Lt ∨ (a.1.2 = b.1.2 ∧ a.2 ≤ b.2))).
Proof.
  unfold key_leb. case_decide as H1; [split; [by left|done]|].
  case_decide as H2; [split; [done|intros [?|[? _]]; lia]|].
  assert (a.1.1 = b.1.1) as Heq by lia.
  unfold String.ltb. rewrite (String.compare_antisym b.1.2 a.1.2).
  destruct (String.compare a.1.2 b.1.2) eqn:E; simpl.
  - apply String.compare_eq_iff in E. rewrite bool_decide_eq_true. split.
    + intros Hle. right. split; [done|]. by right.
    + intros [?|[_ [?|[_ ?]]]]; [lia|done|done].
  - split; [intros _; right; split; [done|by left]|done].
  - split; [done|]. intros [?|[_ [?|[Heq2 _]]]]; [lia|done|].
    rewrite Heq2, str_compare_refl in E. done.
Qed.

Lemma key_le_trans {A} : Transitive (@key_le A).
Proof.
  intros a b c. unfold key_le. rewrite !key_leb_spec.
  intros [?|[Hab1 Hab]] [?|[Hbc1 Hbc]]; [left; lia..|].
  right. split; [lia|].
  destruct Hab as [Hab|[Hab2 Hab3]], Hbc as [Hbc|[Hbc2 Hbc3]].
  - left. by eapply str_compare_lt_trans.
  - left. by rewrite <- Hbc2.
  - left. by rewrite Hab2.
  - right. split; [congruence|lia].
Qed.

Lemma key_le_total {A} : Total (@key_le A).
Proof.
  intros a b. unfold key_le. rewrite !key_leb_spec.
  destruct (lt_eq_lt_dec a.1.1.1 b.1.1.1) as [[?|Heq]|?]; [left; by left| |right; by left].
  destruct (String.compare a.1.1.2 b.1.1.2) eqn:E.
  - apply String.compare_eq_iff in E.
    destruct (le_ge_dec a.1.2 b.1.2); [left|right]; right; (split; [done|]); right;
      (split; [done|lia]).
  - left. right. split; [done|]. by left.
  - right. right. split; [done|]. left.
    rewrite String.compare_antisym, E. done.
Qed.

Lemma map_result_inv {A B} (f : A → result B) (l : list A) ys :
  map_result f l = Ok ys → Forall2 (λ x y, f x = Ok y) l ys.
Proof.
  revert ys. induction l as [|x l IH]; intros ys; simpl; [by intros [= <-]|].
  destruct (f x) as [y|] eqn:E; [|done]. simpl.
  destruct (map_result f l) as [ys'|]; [|done]. simpl. intros [= <-].
  constructor; [done|]. by apply IH.
Qed.

Lemma sort_bucket_sorted order_index bucket sorted :
  sort_bucket order_index bucket = Ok sorted →
  sorted ≡ₚ bucket
  ∧ ∃ keyed, sorted = keyed.*2
      ∧ Forall (λ ke, edge_key order_index ke.2 = Ok ke.1) keyed
      ∧ StronglySorted key_le keyed.
Proof.
  unfold sort_bucket.
  destruct (map_result _ bucket) as [keyed|] eqn:Hk; [|done]. simpl.
  intros [= <-]. apply map_result_inv in Hk.
  split.
  - rewrite merge_sort_Permutation. by rewrite (keyed_snd _ _ _ Hk).
  - exists (merge_sort key_le keyed). split; [done|]. split.
    + rewrite merge_sort_Permutation. apply Forall_forall. intros [k e] Hin.
      apply list_elem_of_lookup in Hin as [i Hi].
      destruct (Forall2_lookup_r _ _ _ _ _ Hk Hi) as (x & _ & Hx). simpl.
      destruct (edge_key order_index x) as [k'|] eqn:Ek; [|done].
      cbn [mbind result_mbind result_bind] in Hx. by simplify_eq.
    + apply (@StronglySorted_merge_sort _ key_le _ key_le_trans key_le_total).
Qed.

Lemma bucket_edges_fold (containers parents : gmap nat nat) (es : list edge) :
  ∀ (m : gmap (option nat) (list edge)) c,
    foldl (λ m e, let c := _edge_container containers parents e.1.1 e.2 in
                  <[c := default [] (m !! c) ++ [e]]> m) m es !! c
    = match filter (λ e, _edge_container containers parents e.1.1 e.2 = c) es with
      | [] => m !! c
      | l => Some (default [] (m !! c) ++ l)
      end.
Proof.
  induction es as [|e es IH]; intros m c; [done|]. cbn [foldl].
  rewrite IH, filter_cons. case_decide as Hc.
  - subst c. rewrite lookup_insert_eq. simpl.
    destruct (filter _ es); [done|]. by rewrite <- app_assoc.
  - by rewrite lookup_insert_ne.
Qed.

Lemma bucket_edges_lookup (containers parents : gmap nat nat) (re : gset edge) c l :
  bucket_edges containers parents re !! c = Some l ↔
  l = filter (λ e, _edge_container containers parents e.1.1 e.2 = c) (elements re)
  ∧ l ≠ [].
Proof.
  unfold bucket_edges. rewrite bucket_edges_fold, lookup_empty.
  destruct (filter _ _) as [|e l']; simpl; naive_solver.
Qed.

Lemma sorted_buckets_fold {A B} (f : A → result B) (l : list (option nat * A)) :
  ∀ m0 m : gmap (option nat) B,
    fold_result (λ m '(c, b), s ← f b; Ok (<[c := s]> m)) m0 l = Ok m →
    (∀ c s, m !! c = Some s →
       m0 !! c = Some s ∨ ∃ b, (c, b) ∈ l ∧ f b = Ok s)
    ∧ (∀ c, is_Some (m0 !! c) ∨ c ∈ l.*1 → is_Some (m !! c)).
Proof.
  induction l as [|[c0 b0] l IH]; intros m0 m; cbn [fold_result].
  - intros [= <-]. split; [by left|]. intros c [?|?%elem_of_nil]; done.
  - destruct (f b0) as [s0|] eqn:E; [|done]. cbn [mbind result_mbind result_bind].
    intros [Ha Hb]%IH. split.
    + intros c s [Hs|(b & Hin & Hf)]%Ha.
      * destruct (decide (c = c0)) as [->|Hne].
        -- rewrite lookup_insert_eq in Hs. simplify_eq. right. exists b0.
           split; [apply list_elem_of_here|done].
        -- rewrite lookup_insert_ne in Hs by done. by left.
      * right. exists b. split; [by apply list_elem_of_further|done].
    + intros c Hc. apply Hb. destruct (decide (c = c0)) as [->|Hne].
      * left. by rewrite lookup_insert_eq.
      * rewrite lookup_insert_ne by done.
        destruct Hc as [?|Hc]; [by left|right].
        csimpl in Hc. apply elem_of_cons in Hc as [?|?]; done.
Qed.

Lemma edges_by_container_spec (order_index C P : gmap nat nat) (re : gset edge)
    (buckets : gmap (option nat) (list edge)) :
  edges_by_container order_index C P re = Ok buckets →
  (∀ e, e ∈ re →
     ∃ l, buckets !! _edge_container C P e.1.1 e.2 = Some l ∧ e ∈ l)
  ∧ (∀ c l, buckets !! c = Some l →
       NoDup l
       ∧ (∀ e, e ∈ l ↔ e ∈ re ∧ _edge_container C P e.1.1 e.2 = c)
       ∧ ∃ keyed, l = keyed.*2
           ∧ Forall (λ ke, edge_key order_index ke.2 = Ok ke.1) keyed
           ∧ StronglySorted key_le keyed).
Proof.
  unfold edges_by_container. intros [Ha Hin]%sorted_buckets_fold.
  assert (∀ c l, buckets !! c = Some l →
            ∃ b, bucket_edges C P re !! c = Some b
                 ∧ sort_bucket order_index b = Ok l) as Hsorted.
  { intros c l [Hl|(b & Hb & Hs)]%Ha; [by rewrite lookup_empty in Hl|].
    exists b. by apply elem_of_map_to_list in Hb. }
  split.
  - intros e He. set (c := _edge_container C P e.1.1 e.2).
    assert (e ∈ filter (λ e', _edge_container C P e'.1.1 e'.2 = c) (elements re))
      as Hf by (apply list_elem_of_filter; by rewrite elem_of_elements).
    destruct (Hin c) as [l Hl].
    { right. apply list_elem_of_fmap.
      exists (c, filter (λ e', _edge_container C P e'.1.1 e'.2 = c) (elements re)).
      split; [done|]. apply elem_of_map_to_list, bucket_edges_lookup.
      split; [done|]. intros Hnil. rewrite Hnil in Hf. by apply elem_of_nil in Hf. }
    exists l. split; [done|].
    destruct (Hsorted c l Hl) as (b & [-> _]%bucket_edges_lookup & [Hperm _]%sort_bucket_sorted).
    by rewrite Hperm.
  - intros c l Hl.
    destruct (Hsorted c l Hl) as (b & [-> _]%bucket_edges_lookup & [Hperm Hkeys]%sort_bucket_sorted).
    split; [|split; [|done]].
    + rewrite Hperm. apply NoDup_filter, NoDup_elements.
    + intros e. rewrite Hperm, list_elem_of_filter, elem_of_elements. tauto.
Qed.

(** Every rewritten edge is put in the bucket of its container, and in no
    other.  A bucket lists its edges once each, in increasing order of the
    key of the code: the position of the source in the order of the
    visits, then the action label, then the position of the target.  This
    holds in whatever order the leaves and the discovered edges were
    taken. *)
Theorem edge_buckets_sorted order es h max_nodes max_str flow d re st :
  es ≡ₚ elements (edges d) →
  discover h max_nodes max_str flow = Ok d →
  rewrite_edges order es h d = Ok (re, st) →
  ∃ buckets,
    edges_by_container (order_index_by_obj_id d) (container_flow_by_node_id h d)
      (parent_flow_by_flow_id h d) re = Ok buckets
    ∧ (∀ e, e ∈ re →
         ∃ l, buckets !! _edge_container (container_flow_by_node_id h d)
                           (parent_flow_by_flow_id h d) e.1.1 e.2 = Some l
              ∧ e ∈ l)
    ∧ (∀ c l, buckets !! c = Some l →
         NoDup l
         ∧ (∀ e, e ∈ l ↔
              e ∈ re ∧ _edge_container (container_flow_by_node_id h d)
                         (parent_flow_by_flow_id h d) e.1.1 e.2 = c)
         ∧ ∃ keyed, l = keyed.*2
             ∧ Forall (λ ke, edge_key (order_index_by_obj_id d) ke.2 = Ok ke.1)
                      keyed
             ∧ StronglySorted key_le keyed).
Proof.
  intros Hes Hdisc Hre. pose proof (discover_discovered _ _ _ _ _ Hdisc) as Hd.
  destruct (edges_by_container_ok h flow d (container_flow_by_node_id h d)
              (parent_flow_by_flow_id h d) re Hd) as (buckets & Hb & _).
  { eapply rewrite_edges_visited; [done| |done].
    intros e. by rewrite Hes, elem_of_elements. }
  exists buckets. split; [done|]. by apply edges_by_container_spec.
Qed.

Lemma edge_buckets_witness :
  elements (edges d_nested) ≡ₚ elements (edges d_nested)
  ∧ discover ex_nested 1000 "1000" 0 = Ok d_nested
  ∧ ∃ re st, rewrite_edges set_order (elements (edges d_nested)) ex_nested
               d_nested = Ok (re, st)
      ∧ ∃ buckets,
          edges_by_container (order_index_by_obj_id d_nested)
            (container_flow_by_node_id ex_nested d_nested)
            (parent_flow_by_flow_id ex_nested d_nested) re = Ok buckets.
Proof.
  assert (discover ex_nested 1000 "1000" 0 = Ok d_nested) as Hd
    by (vm_compute; reflexivity).
  split; [reflexivity|]. split; [exact Hd|].
  destruct (rewrite_edges_ok set_order (elements (edges d_nested)) ex_nested 0 d_nested
              (discover_discovered _ _ _ _ _ Hd) (elements_edges_sub _))
    as (re & st & Hre).
  exists re, st. split; [exact Hre|].
  destruct (edge_buckets_sorted _ _ _ _ _ _ _ _ _ (reflexivity _) Hd Hre)
    as (buckets & Hb & _).
  by exists buckets.
Defined.

(** ** Escaping *)

Lemma str_app_cons a (s1 s2 : string) : String a s1 +:+ s2 = String a (s1 +:+ s2).
Proof. done. Qed.

Lemma str_app_assoc (s1 s2 s3 : string) : (s1 +:+ s2) +:+ s3 = s1 +:+ (s2 +:+ s3).
Proof.
  induction s1 as [|a s1 IH]; [done|]. by rewrite !str_app_cons, IH.
Qed.

Lemma replace_char_app c by_ s1 s2 :
  replace_char c by_ (s1 +:+ s2)
  = replace_char c by_ s1 +:+ replace_char c by_ s2.
Proof.
  induction s1 as [|a s1 IH]; [done|]. rewrite str_app_cons.
  cbn [replace_char]. case_decide; rewrite IH; [|done].
  symmetry. apply str_app_assoc.
Qed.

Lemma escape_app s1 s2 e : _escape (s1 +:+ s2) e = _escape s1 e +:+ _escape s2 e.
Proof. unfold _escape. destruct e; by rewrite !replace_char_app. Qed.

Lemma escape_cons a s e :
  _escape (String a s) e
  = (if decide (a = Ascii.ascii_of_nat 92)
     then String a (String a EmptyString)
     else if decide (a = Ascii.ascii_of_nat (if e then 124 else 34))
          then String (Ascii.ascii_of_nat 92) (String a EmptyString)
          else String a EmptyString) +:+ _escape s e.
Proof.
  change (String a s) with (String a EmptyString +:+ s). rewrite escape_app.
  f_equal. unfold _escape. cbn [replace_char].
  destruct (decide (a = Ascii.ascii_of_nat 92)) as [->|Hbs]; [by destruct e|].
  destruct e; cbn [replace_char]; cbv iota; by case_decide; subst.
Qed.

Lemma str_app_nil_l (s : string) : EmptyString +:+ s = s.
Proof. done. Qed.

Lemma escape_nil e : _escape EmptyString e = EmptyString.
Proof. by destruct e. Qed.

Lemma escape_inj e : ∀ s1 s2, _escape s1 e = _escape s2 e → s1 = s2.
Proof.
  induction s1 as [|a1 s1 IH]; intros [|a2 s2]; rewrite ?escape_cons, ?escape_nil.
  - done.
  - repeat case_decide; by rewrite !str_app_cons.
  - repeat case_decide; by rewrite !str_app_cons.
  - repeat case_decide; rewrite !str_app_cons, !str_app_nil_l;
      intros Heq; simplify_eq; f_equal; by apply IH.
Qed.

Lemma escape_plain (e : bool) : ∀ s,
  (∀ a, In a (String.list_ascii_of_string s) →
        a ≠ Ascii.ascii_of_nat 92 ∧ a ≠ Ascii.ascii_of_nat (if e then 124 else 34)) →
  _escape s e = s.
Proof.
  induction s as [|a s IH]; intros Hs; [apply escape_nil|]. rewrite escape_cons.
  destruct (Hs a) as [H1 H2]; [by left|].
  rewrite !decide_False by done. rewrite str_app_cons, str_app_nil_l.
  f_equal. apply IH.
  intros b Hb. apply Hs. by right.
Qed.

(** [_escape] works character by character: a backslash is doubled, the
    double quote (the vertical bar, for an edge label) gets a backslash
    before it, every other character is kept.  So a text without these
    characters is unchanged, the escaped text of a concatenation is the
    concatenation of the escaped texts, and two different texts never have
    the same escaped text. *)
Theorem escape_faithful (e : bool) :
  (∀ a s, _escape (String a s) e
          = (if decide (a = Ascii.ascii_of_nat 92)
             then String a (String a EmptyString)
             else if decide (a = Ascii.ascii_of_nat (if e then 124 else 34))
                  then String (Ascii.ascii_of_nat 92) (String a EmptyString)
                  else String a EmptyString) +:+ _escape s e)
  ∧ _escape EmptyString e = EmptyString
  ∧ (∀ s1 s2, _escape (s1 +:+ s2) e = _escape s1 e +:+ _escape s2 e)
  ∧ (∀ s, (∀ a, In a (String.list_ascii_of_string s) →
             a ≠ Ascii.ascii_of_nat 92
             ∧ a ≠ Ascii.ascii_of_nat (if e then 124 else 34)) →
          _escape s e = s)
  ∧ (∀ s1 s2, _escape s1 e = _escape s2 e → s1 = s2).
Proof.
  split; [intros; apply escape_cons|]. split; [apply escape_nil|].
  split; [intros; apply escape_app|]. split; [apply escape_plain|apply escape_inj].
Qed.

(** ** Labels *)

Lemma names_fold_lookup (items : list (option string * ns_value)) :
  ∀ (m : gmap nat (list string)) i,
    foldl (λ m kv, match kv with
                   | (Some k, NsNode i) => <[i := [k]]> m
                   | _ => m
                   end) m items !! i
    = match last (omap (λ kv, match kv with
                              | (Some k, NsNode j) =>
                                  if decide (j = i) then Some k else None
                              | _ => None
                              end) items) with
      | Some k => Some [k]
      | None => m !! i
      end.
Proof.
  induction items as [|kv items IH]; intros m i; [done|].
  cbn [foldl]. rewrite IH. csimpl.
  destruct kv as [[k|] [j|]]; try done.
  case_decide as Hj; csimpl.
  - subst j. rewrite last_cons, lookup_insert_eq. by destruct (last _).
  - by rewrite lookup_insert_ne.
Qed.

(** The table of names that [visualize] builds from [namespace] keeps one
    name for an object: the name of the last item of the dictionary whose
    key is a string and whose value is this object.  An object that no
    such item names is not in the table. *)
Theorem name_table_last_wins (items : list (option string * ns_value)) (i : nat) :
  (∀ names, names_by_obj_id items !! i = Some names →
     ∃ k, names = [k] ∧ (Some k, NsNode i) ∈ items)
  ∧ (names_by_obj_id items !! i = None ↔ ∀ k, (Some k, NsNode i) ∉ items)
  ∧ (∀ pre k post, items = pre ++ (Some k, NsNode i) :: post →
       (∀ k', (Some k', NsNode i) ∉ post) →
       names_by_obj_id items !! i = Some [k]).
Proof.
  unfold names_by_obj_id. rewrite names_fold_lookup, lookup_empty.
  set (f := λ kv : option string * ns_value,
              match kv with
              | (Some k, NsNode j) => if decide (j = i) then Some k else None
              | _ => None
              end).
  assert (∀ kv k, f kv = Some k ↔ kv = (Some k, NsNode i)) as Hf.
  { intros [[k'|] [j|]] k; unfold f; try (split; [done|by intros [=]]).
    case_decide; split; intros [=]; by subst. }
  split; [|split].
  - intros names. destruct (last (omap f items)) as [k|] eqn:Hl; [|done].
    intros [= <-]. exists k. split; [done|].
    apply last_Some_elem_of, list_elem_of_omap in Hl as (kv & Hin & ->%Hf). done.
  - destruct (last (omap f items)) as [k|] eqn:Hl.
    + split; [done|]. intros Hno. destruct (Hno k).
      apply last_Some_elem_of, list_elem_of_omap in Hl as (kv & Hin & ->%Hf). done.
    + split; [|done]. intros _ k Hin. apply last_None in Hl.
      assert (k ∈ omap f items) as Hk.
      { apply list_elem_of_omap. exists (Some k, NsNode i). split; [done|by apply Hf]. }
      rewrite Hl in Hk. by apply elem_of_nil in Hk.
  - intros pre k post -> Hpost. rewrite omap_app. csimpl.
    rewrite decide_True by done.
    assert (omap f post = []) as ->.
    { destruct (omap f post) as [|k' l] eqn:E; [done|].
      assert (k' ∈ omap f post) as (kv & Hin & ->%Hf)%list_elem_of_omap
        by (rewrite E; apply list_elem_of_here).
      by destruct (Hpost k'). }
    by rewrite last_snoc.
Qed.

Lemma names_singleton items i names :
  names_by_obj_id items !! i = Some names → ∃ k, names = [k].
Proof.
  unfold names_by_obj_id. rewrite names_fold_lookup, lookup_empty.
  destruct (last _) as [k|]; [|done]. intros [= <-]. by exists k.
Qed.

Lemma label_for_cached h names oid ls label :
  label_cache ls !! oid = Some label → _label_for h names oid ls = (label, ls).
Proof. intros Hc. unfold _label_for. by rewrite Hc. Qed.

(** [_label_for] gives an object one label for the whole call: the label is
    kept in the cache, the labels of the other objects are not touched, and
    a later call for the same object returns the same label and changes
    nothing.  With the table of names that [visualize] builds, an object
    that has a name is labelled with this name without any warning, and
    the only warning a call can add is the one for a missing name: the
    warning for several names is never given. *)
Theorem label_for_once h items oid ls :
  ∃ label ls',
    _label_for h (names_by_obj_id items) oid ls = (label, ls')
    ∧ label_cache ls' !! oid = Some label
    ∧ (∀ o, o ≠ oid → label_cache ls' !! o = label_cache ls !! o)
    ∧ (∀ l0, label_cache ls !! oid = Some l0 → label = l0 ∧ ls' = ls)
    ∧ _label_for h (names_by_obj_id items) oid ls' = (label, ls')
    ∧ (warnings ls' = warnings ls
       ∨ warnings ls' = warnings ls ++ [MissingName (cls (get h oid))])
    ∧ (∀ k, label_cache ls !! oid = None →
         names_by_obj_id items !! oid = Some [k] →
         label = k ∧ warnings ls' = warnings ls).
Proof.
  destruct (label_cache ls !! oid) as [l0|] eqn:Hc.
  { exists l0, ls. rewrite (label_for_cached _ _ _ _ _ Hc).
    split; [done|]. split; [done|]. split; [done|].
    split; [by intros ? [= ->]|]. split; [done|]. split; [by left|done]. }
  destruct (_label_for h (names_by_obj_id items) oid ls) as [label ls'] eqn:Hl.
  exists label, ls'. split; [done|].
  unfold _label_for in Hl. rewrite Hc in Hl.
  destruct (names_by_obj_id items !! oid) as [names|] eqn:Hn; simpl in Hl.
  - destruct (names_singleton _ _ _ Hn) as [k ->]. simpl in Hl.
    injection Hl as <- <-. simpl.
    split; [by rewrite lookup_insert_eq|].
    split; [by intros o Ho; rewrite lookup_insert_ne|].
    split; [done|]. split.
    { apply label_for_cached. simpl. by rewrite lookup_insert_eq. }
    split; [by left|]. by intros k' _ [= ->].
  - destruct (bool_decide (oid ∉ warned_missing_names ls)); simpl in Hl;
      injection Hl as <- <-; simpl.
    all: split; [by rewrite lookup_insert_eq|].
    all: split; [by intros o Ho; rewrite lookup_insert_ne|].
    all: split; [done|]. all: split;
      [apply label_for_cached; simpl; by rewrite lookup_insert_eq|].
    all: split; [|done]. all: (by right) || (by left).
Qed.

Lemma str_length_app (s1 s2 : string) :
  String.length (s1 +:+ s2) = String.length s1 + String.length s2.
Proof.
  induction s1 as [|a s1 IH]; [done|]. rewrite str_app_cons. simpl. by rewrite IH.
Qed.

Lemma unnamed_label_inj c n m :
  1 ≤ n → 1 ≤ m → unnamed_label c n = unnamed_label c m → n = m.
Proof.
  intros Hn Hm. unfold unnamed_label. repeat case_decide; [lia| | |].
  - intros Heq. apply (f_equal String.length) in Heq.
    rewrite str_length_app, str_app_cons in Heq. simpl in Heq. lia.
  - intros Heq. apply (f_equal String.length) in Heq.
    rewrite str_length_app, str_app_cons in Heq. simpl in Heq. lia.
  - intros Heq%String.app_inj. rewrite !str_app_cons in Heq.
    injection Heq as Heq. by apply pretty_nat_inj in Heq.
Qed.

Lemma labels_numbered_unnamed h names_by_id ls ls' oid :
  labels_numbered h names_by_id ls →
  label_cache ls' = <[oid := unnamed_label (cls (get h oid))
                      (default 0 (unnamed_counter_by_class ls !! cls (get h oid)) + 1)]>
                      (label_cache ls) →
  unnamed_counter_by_class ls'
  = <[cls (get h oid) :=
        default 0 (unnamed_counter_by_class ls !! cls (get h oid)) + 1]>
      (unnamed_counter_by_class ls) →
  labels_numbered h names_by_id ls'.
Proof.
  set (c := cls (get h oid)).
  set (n := default 0 (unnamed_counter_by_class ls !! c) + 1).
  intros [Hnum Hdist] Hcache Hcnt. split.
  - intros o label Hl Hu. rewrite Hcache in Hl. rewrite Hcnt.
    destruct (decide (o = oid)) as [->|Ho].
    + rewrite lookup_insert_eq in Hl. injection Hl as <-. exists n.
      fold c. rewrite lookup_insert_eq. simpl. unfold n. split; [lia|]. split; [lia|done].
    + rewrite lookup_insert_ne in Hl by done.
      destruct (Hnum o label Hl Hu) as (m & Hm1 & Hm2 & ->). exists m.
      split; [done|]. split; [|done].
      destruct (decide (cls (get h o) = c)) as [Heq|Hne].
      * rewrite Heq in Hm2 |- *. rewrite lookup_insert_eq. simpl. unfold n. lia.
      * by rewrite lookup_insert_ne.
  - intros o1 o2 label Hl1 Hl2 Hu1 Hu2 Hcls. rewrite Hcache in Hl1, Hl2.
    destruct (decide (o1 = oid)) as [->|H1], (decide (o2 = oid)) as [->|H2]; [done| | |].
    + rewrite lookup_insert_eq in Hl1. rewrite lookup_insert_ne in Hl2 by done.
      injection Hl1 as <-.
      destruct (Hnum o2 _ Hl2 Hu2) as (m & Hm1 & Hm2 & Heq).
      rewrite <- Hcls in Heq, Hm2. fold c in Heq, Hm2.
      apply unnamed_label_inj in Heq; unfold n in *; lia.
    + rewrite lookup_insert_eq in Hl2. rewrite lookup_insert_ne in Hl1 by done.
      injection Hl2 as <-.
      destruct (Hnum o1 _ Hl1 Hu1) as (m & Hm1 & Hm2 & Heq).
      rewrite Hcls in Heq, Hm2. fold c in Heq, Hm2.
      apply unnamed_label_inj in Heq; unfold n in *; lia.
    + rewrite lookup_insert_ne in Hl1, Hl2 by done. by eapply Hdist.
Qed.

Lemma labels_numbered_named h names_by_id ls ls' oid label :
  labels_numbered h names_by_id ls →
  default [] (names_by_id !! oid) ≠ [] →
  label_cache ls' = <[oid := label]> (label_cache ls) →
  unnamed_counter_by_class ls' = unnamed_counter_by_class ls →
  labels_numbered h names_by_id ls'.
Proof.
  intros [Hnum Hdist] Hn Hcache Hcnt. split.
  - intros o l Hl Hu. rewrite Hcache in Hl. rewrite Hcnt.
    destruct (decide (o = oid)) as [->|Ho]; [done|].
    rewrite lookup_insert_ne in Hl by done. by apply Hnum.
  - intros o1 o2 l Hl1 Hl2 Hu1 Hu2 Hcls. rewrite Hcache in Hl1, Hl2.
    destruct (decide (o1 = oid)) as [->|H1]; [done|].
    destruct (decide (o2 = oid)) as [->|H2]; [done|].
    rewrite lookup_insert_ne in Hl1, Hl2 by done. by eapply Hdist.
Qed.

(** The objects without a name are numbered within their class: the first
    is labelled with the name of the class and the [n]-th with the name,
    [#] and [n].  [_label_for] keeps this numbering, so no two objects of
    one class that have no name are given the same label. *)
Theorem unnamed_labels_distinct h names_by_id oid ls :
  labels_numbered h names_by_id ls →
  labels_numbered h names_by_id (_label_for h names_by_id oid ls).2
  ∧ (label_cache ls !! oid = None → default [] (names_by_id !! oid) = [] →
     (_label_for h names_by_id oid ls).1
     = unnamed_label (cls (get h oid))
         (default 0 (unnamed_counter_by_class ls !! cls (get h oid)) + 1)).
Proof.
  intros Hnum. unfold _label_for.
  destruct (label_cache ls !! oid) as [l0|] eqn:Hc; [done|].
  destruct (default [] (names_by_id !! oid)) as [|k ks] eqn:Hn.
  - split; [|by intros _ _; destruct (bool_decide _)].
    eapply (labels_numbered_unnamed h names_by_id ls _ oid Hnum);
      by destruct (bool_decide _).
  - split; [|done].
    eapply (labels_numbered_named h names_by_id ls _ oid _ Hnum);
      [by rewrite Hn|by destruct (_ && _)..].
Qed.

Lemma unnamed_labels_witness :
  labels_numbered ex_chain ∅ (LabelState ∅ ∅ ∅ ∅ [])
  ∧ labels_numbered ex_chain ∅
      (_label_for ex_chain ∅ 0 (LabelState ∅ ∅ ∅ ∅ [])).2.
Proof.
  assert (labels_numbered ex_chain ∅ (LabelState ∅ ∅ ∅ ∅ [])) as H0.
  { split; [intros oid label Hl|intros o1 o2 label Hl]; simpl in Hl;
      by rewrite lookup_empty in Hl. }
  split; [exact H0|].
  exact (proj1 (unnamed_labels_distinct ex_chain ∅ 0 _ H0)).
Defined.

(** ** The rewritten edges and the frame of the output *)

(** Every exit source set holds discovered objects only, and every
    rewritten edge joins two discovered objects under an action label of a
    discovered edge: both its ends have a Mermaid identifier, so the line of
    an edge never names an unknown node.  This holds in whatever order the
    leaves and the discovered edges were taken. *)
Theorem rendered_edges_discovered order es h max_nodes max_str flow d re st :
  es ≡ₚ elements (edges d) →
  discover h max_nodes max_str flow = Ok d →
  rewrite_edges order es h d = Ok (re, st) →
  (∀ s act t, (s, act, t) ∈ re →
     reachable h flow s ∧ reachable h flow t
     ∧ is_Some (mermaid_id_by_obj_id d !! s)
     ∧ is_Some (mermaid_id_by_obj_id d !! t)
     ∧ ∃ src tgt, (src, act, tgt) ∈ edges d)
  ∧ (∀ fid srcs x, exit_cache st !! fid = Some srcs → x ∈ srcs →
       reachable h flow x).
Proof.
  intros Hes Hdisc Hre. pose proof (discover_discovered _ _ _ _ _ Hdisc) as Hd.
  assert (∀ e, e ∈ es → e ∈ edges d) as Hsub
    by (intros e; by rewrite Hes, elem_of_elements).
  split.
  - intros s act t Hin.
    destruct (rewrite_edges_visited order es h flow d re st Hd Hsub Hre s act t Hin)
      as [Hs Ht].
    split; [by apply (disc_reach _ _ _ Hd)|]. split; [by apply (disc_reach _ _ _ Hd)|].
    split; [by apply (mermaid_id_is_Some h flow d)|].
    split; [by apply (mermaid_id_is_Some h flow d)|].
    unfold rewrite_edges in Hre.
    destruct (rewrite_edges_fold order h flow d Hd es ∅ (ExitState ∅ ∅))
      as (re' & st' & Hf & _ & _ & _ & Hchar & _).
    { done. }
    { done. }
    { intros k v Hk. simpl in Hk. by rewrite lookup_empty in Hk. }
    rewrite Hre in Hf. injection Hf as <- <-.
    apply Hchar in Hin as [?|(src & tgt & Hin%Hsub & _)]; [set_solver|].
    by exists src, tgt.
  - intros fid srcs x Hc Hx. apply (disc_reach _ _ _ Hd).
    unfold rewrite_edges in Hre.
    destruct (rewrite_edges_fold order h flow d Hd es ∅ (ExitState ∅ ∅))
      as (re' & st' & Hf & _ & _ & Hcv & _).
    { done. }
    { done. }
    { intros k v Hk. simpl in Hk. by rewrite lookup_empty in Hk. }
    rewrite Hre in Hf. injection Hf as <- <-. by eapply Hcv.
Qed.

Lemma rendered_edges_witness :
  elements (edges d_nested) ≡ₚ elements (edges d_nested)
  ∧ discover ex_nested 1000 "1000" 0 = Ok d_nested
  ∧ ∃ re st, rewrite_edges set_order (elements (edges d_nested)) ex_nested
               d_nested = Ok (re, st)
      ∧ ∀ s act t, (s, act, t) ∈ re →
          reachable ex_nested 0 s ∧ reachable ex_nested 0 t.
Proof.
  assert (discover ex_nested 1000 "1000" 0 = Ok d_nested) as Hd
    by (vm_compute; reflexivity).
  split; [reflexivity|]. split; [exact Hd|].
  destruct (rewrite_edges_ok set_order (elements (edges d_nested)) ex_nested 0 d_nested
              (discover_discovered _ _ _ _ _ Hd) (elements_edges_sub _))
    as (re & st & Hre).
  exists re, st. split; [exact Hre|]. intros s act t Hin.
  destruct (proj1 (rendered_edges_discovered _ _ _ _ _ _ _ _ _ (reflexivity _) Hd Hre)
              s act t Hin)
    as (Hs & Ht & _).
  by split.
Defined.

Lemma entry_oid_cases h flow :
  (∀ rs, is_flow (get h flow) = true → _real_start h flow = Some rs →
     _entry_oid h flow = rs)
  ∧ (is_flow (get h flow) = false ∨ _real_start h flow = None →
     _entry_oid h flow = flow).
Proof.
  unfold _entry_oid, _is_expanded_flow. split.
  - intros rs Hf Hrs. rewrite Hf, Hrs. simpl.
    destruct (start_node (get h flow)) as [s|] eqn:Hs.
    + by rewrite bool_decide_eq_true_2.
    + rewrite real_start_absent in Hrs by done. done.
  - intros [-> | ->]; [done|]. by rewrite andb_false_r.
Qed.

(** The lines of a call that returns are the opening fence, the header,
    the edge from the start marker, the body, and the closing fence.  The
    start marker points at the real start of the entry flow when it has
    one, and at the entry object itself, which is [n0], when it is no flow
    or when its real start cannot be resolved. *)
Theorem output_frame h flow namespace direction sd hl max_nodes ls ws :
  visualize_lines h flow namespace direction sd hl max_nodes = Ok (ls, ws) →
  ∃ d start body,
    discovery_of h flow max_nodes d
    ∧ ls = [LFence; LHeader (direction_u direction); LStart start] ++ body
           ++ [LFenceEnd]
    ∧ (∀ rs, is_flow (get h flow) = true → _real_start h flow = Some rs →
         mermaid_id_by_obj_id d !! rs = Some start)
    ∧ (is_flow (get h flow) = false ∨ _real_start h flow = None →
       start = "n0").
Proof.
  intros Hv. destruct (visualize_lines_inv _ _ _ _ _ _ _ _ _ Hv)
    as (Hdir & n & d & Hint & Hpos & Hd).
  destruct (visualize_lines_ok h flow namespace direction sd hl max_nodes n d
              Hdir Hint Hpos Hd)
    as (start & body & rids & mids & ws' & Hstart & _ & _ & _ & Hv').
  rewrite Hv in Hv'. injection Hv' as Hls _.
  exists d, start, (body ++ (if hl then highlight_lines mids else [])).
  split; [by exists n|]. split; [by rewrite Hls, <- !app_assoc|].
  destruct (entry_oid_cases h flow) as [He1 He2]. split.
  - intros rs Hf Hrs. by rewrite <- (He1 rs Hf Hrs).
  - intros Hcase. rewrite (He2 Hcase) in Hstart.
    rewrite (mermaid_id_root _ _ _ _ _ Hd) in Hstart. by injection Hstart.
Qed.

Lemma output_frame_witness :
  visualize_lines ex_cycle 0 NsFalsy None false false (MaxInt 1000)
  = Ok ([LFence; LHeader "LR"; LStart "n0"; LFenceEnd], [MissingNamespace])
  ∧ ∃ d start body,
      discovery_of ex_cycle 0 (MaxInt 1000) d
      ∧ [LFence; LHeader "LR"; LStart "n0"; LFenceEnd]
        = [LFence; LHeader (direction_u None); LStart start] ++ body ++ [LFenceEnd].
Proof.
  assert (visualize_lines ex_cycle 0 NsFalsy None false false (MaxInt 1000)
          = Ok ([LFence; LHeader "LR"; LStart "n0"; LFenceEnd], [MissingNamespace]))
    as Hv by (vm_compute; reflexivity).
  split; [exact Hv|].
  destruct (output_frame _ _ _ _ _ _ _ _ _ Hv) as (d & start & body & Hd & Hls & _).
  by exists d, start, body.
Defined.

(** ** The nesting of the blocks *)

Lemma nesting_app k a b :
  nesting k (a ++ b) = nesting k a ≫= (λ k', nesting k' b).
Proof.
  revert k. induction a as [|l a IH]; intros k; [done|].
  cbn [app nesting]. destruct l; repeat case_decide; try done; try apply IH.
  destruct k; [done|]. case_decide; [apply IH|done].
Qed.

Lemma nested_step_refl k st : nested_step k st st.
Proof. exists []. by rewrite app_nil_r. Qed.

Lemma nested_step_trans k st1 st2 st3 :
  nested_step k st1 st2 → nested_step k st2 st3 → nested_step k st1 st3.
Proof.
  intros (a & Ha & Hna) (b & Hb & Hnb). exists (a ++ b).
  split; [by rewrite Hb, Ha, app_assoc|]. rewrite nesting_app, Hna. done.
Qed.

Lemma result_bind_inv {A B} (m : result A) (f : A → result B) y :
  m ≫= f = Ok y → ∃ x, m = Ok x ∧ f x = Ok y.
Proof. destruct m as [x|e]; [by exists x|done]. Qed.

Lemma fold_nested {B} (f : rstate → B → result rstate) k l :
  (∀ st x st', f st x = Ok st' → nested_step k st st') →
  ∀ st st', fold_result f st l = Ok st' → nested_step k st st'.
Proof.
  intros Hf. induction l as [|x l IH]; intros st st'; cbn [fold_result].
  - intros [= <-]. apply nested_step_refl.
  - intros (st1 & H1 & H2)%result_bind_inv.
    eapply nested_step_trans; [by eapply Hf|by apply IH].
Qed.

Lemma emit_node_def_nested h d names_by_id k st oid st' :
  emit_node_def h d names_by_id (spaces (S k)) st oid = Ok st' →
  nested_step k st st'.
Proof.
  unfold emit_node_def. intros (mid & _ & (o & _ & Hst)%result_bind_inv)%result_bind_inv.
  destruct (_label_for h names_by_id o (label_st st)) as [label ls].
  injection Hst as <-. eexists. split; [done|]. cbn [nesting].
  by rewrite decide_True.
Qed.

Lemma emit_edge_line_nested d sd k st e st' :
  emit_edge_line d sd (spaces (S k)) st e = Ok st' → nested_step k st st'.
Proof.
  unfold emit_edge_line.
  intros (s & _ & (t & _ & Hst)%result_bind_inv)%result_bind_inv.
  injection Hst as <-. eexists. split; [done|].
  destruct (_ && _); cbn [nesting]; by rewrite decide_True.
Qed.

Lemma render_flow_nested h d names_by_id sd bodies containers expanded buckets fuel :
  ∀ fid k st st',
    _render_flow h d names_by_id sd bodies containers expanded buckets fuel fid
      (spaces (S k)) st = Ok st' →
    nested_step k st st'.
Proof.
  induction fuel as [|fuel IH]; intros fid k st st'; [done|].
  cbn [_render_flow]. case_decide.
  { intros [= <-]. apply nested_step_refl. }
  intros (f & _ & (mid & _ & Hst)%result_bind_inv)%result_bind_inv.
  cbn [label_st lines rendered_flows rendering_stack] in Hst.
  destruct (_label_for h names_by_id f (label_st st)) as [label ls].
  apply result_bind_inv in Hst as (children & _ & Hst).
  apply result_bind_inv in Hst as (nodes & _ & Hst).
  apply result_bind_inv in Hst as (st1 & H1 & Hst).
  apply result_bind_inv in Hst as (st2 & H2 & Hst).
  apply result_bind_inv in Hst as (st3 & H3 & Hst).
  injection Hst as <-.
  apply (fold_nested _ (S k)) in H1;
    [|intros; by eapply emit_node_def_nested].
  apply (fold_nested _ (S k)) in H2; [|intros ? ? ?; apply IH].
  apply (fold_nested _ (S k)) in H3;
    [|intros; by eapply emit_edge_line_nested].
  destruct (nested_step_trans _ _ _ _ (nested_step_trans _ _ _ _ H1 H2) H3)
    as (added & Hadd & Hn).
  cbn [lines] in Hadd.
  exists ([LSubgraph (spaces (S k)) ("subflow_" +:+ mid) (_escape label false)]
          ++ added ++ [LEnd (spaces (S k))]).
  cbn [lines]. split; [by rewrite Hadd, <- !app_assoc|].
  cbn [app nesting]. rewrite decide_True by done.
  rewrite nesting_app, Hn. cbn. by rewrite decide_True.
Qed.

Lemma render_top_flows_nested h d names_by_id sd bodies containers expanded buckets
    flow st st' :
  render_top_flows h d names_by_id sd bodies containers expanded buckets flow st
  = Ok st' →
  nested_step 0 st st'.
Proof.
  unfold render_top_flows. intros (st1 & H1 & H2)%result_bind_inv.
  eapply nested_step_trans.
  - case_decide; [|injection H1 as <-; apply nested_step_refl].
    by apply (render_flow_nested _ _ _ _ _ _ _ _ _ _ 0) in H1.
  - eapply (fold_nested _ 0); [|exact H2]. intros a x a' Ha. cbv beta in Ha.
    destruct (_ && _); [|injection Ha as <-; apply nested_step_refl].
    by apply (render_flow_nested _ _ _ _ _ _ _ _ _ _ 0) in Ha.
Qed.

Lemma render_top_nodes_nested h d names_by_id containers st st' :
  render_top_nodes h d names_by_id containers st = Ok st' → nested_step 0 st st'.
Proof.
  unfold render_top_nodes. apply (fold_nested _ 0). intros a x a' Ha.
  cbv beta in Ha. destruct (_ && _); [|injection Ha as <-; apply nested_step_refl].
  by apply (emit_node_def_nested _ _ _ 0) in Ha.
Qed.

Lemma render_highlights_nested h d st st' :
  render_highlights h d st = Ok st' → nested_step 0 st st'.
Proof.
  unfold render_highlights. intros ([hs st1] & H1 & H2)%result_bind_inv.
  assert (lines st1 = lines st) as Hl.
  { unfold collect_highlights in H1.
    assert (∀ l acc acc', fold_result (highlight_step h d) acc l = Ok acc' →
              lines acc'.2 = lines acc.2) as Hgen.
    { clear. induction l as [|x l IH]; intros acc acc'; cbn [fold_result].
      - by intros [= <-].
      - intros (acc1 & Hx & Hr)%result_bind_inv. rewrite (IH _ _ Hr).
        unfold highlight_step in Hx. destruct acc as [hs st].
        apply result_bind_inv in Hx as (f & _ & Hx).
        destruct (_real_start h f); [case_decide|]; by injection Hx as <-. }
    apply (Hgen _ _ _ H1). }
  case_decide.
  { injection H2 as <-. exists []. by rewrite app_nil_r. }
  apply result_bind_inv in H2 as (rids & _ & H2).
  assert (nested_step 0 (push_line LClassDef st1) st') as (added & Hadd & Hn).
  { eapply (fold_nested _ 0); [|exact H2]. intros a x a' Ha. cbv beta in Ha.
    apply result_bind_inv in Ha as (mid & _ & Ha). injection Ha as <-.
    by exists [LClass mid]. }
  exists (LClassDef :: added). cbn [lines push_line] in Hadd.
  split; [by rewrite Hadd, Hl, <- app_assoc|]. cbn [nesting]. by rewrite decide_True.
Qed.

(** The blocks of the output are well nested and the indentation follows
    the nesting: in the lines of every call that returns, every [end]
    closes the innermost open [subgraph], all the blocks are closed at the
    end, a line at depth [k] of the nesting is indented by [k + 1] times
    two spaces, and the lines of the frame and of the highlighting stand
    outside every block. *)
Theorem blocks_well_nested h flow namespace direction sd hl max_nodes ls ws :
  visualize_lines h flow namespace direction sd hl max_nodes = Ok (ls, ws) →
  nesting 0 ls = Some 0.
Proof.
  unfold visualize_lines, visualize_lines_in. case_decide; [|done].
  destruct (int_value max_nodes) as [n|]; [|done]. case_decide; [done|].
  destruct (namespace_items namespace) as [items ws0].
  intros (d & _ & Hv)%result_bind_inv.
  apply result_bind_inv in Hv as ([re est] & _ & Hv).
  apply result_bind_inv in Hv as (buckets & _ & Hv).
  apply result_bind_inv in Hv as (start & _ & Hv).
  apply result_bind_inv in Hv as (st1 & H1%render_top_flows_nested & Hv).
  apply result_bind_inv in Hv as (st2 & H2%render_top_nodes_nested & Hv).
  apply result_bind_inv in Hv as (st3 & H3 & Hv).
  apply result_bind_inv in Hv as (st4 & H4 & Hv).
  injection Hv as <- _.
  apply (fold_nested _ 0) in H3; [|intros; by eapply (emit_edge_line_nested _ _ 0)].
  assert (nested_step 0 st3 st4) as H5.
  { destruct hl; [by eapply render_highlights_nested|].
    injection H4 as <-. apply nested_step_refl. }
  destruct (nested_step_trans _ _ _ _
              (nested_step_trans _ _ _ _ (nested_step_trans _ _ _ _ H1 H2) H3) H5)
    as (added & -> & Hn).
  cbn [lines]. rewrite <- !app_assoc. cbn [app nesting].
  rewrite !decide_True by done. rewrite nesting_app, Hn. cbn.
  by rewrite decide_True.
Qed.

Lemma blocks_well_nested_witness :
  visualize_lines ex_nested 0 NsFalsy None false true (MaxInt 1000)
  = Ok ([LFence; LHeader "LR"; LStart "n2";
         LSubgraph "  " "subflow_n0" "Flow"; LNode "    " "n3" "N";
         LSubgraph "    " "subflow_n1" "Flow#2";
         LNode "      " "n2" "N#2"; LNode "      " "n4" "N#3";
         LEdge "      " "n2" None "n4"; LEnd "    ";
         LEdge "    " "n4" None "n3"; LEnd "  ";
         LClassDef; LClass "n2"; LFenceEnd],
        [MissingNamespace; MissingName "Flow"; MissingName "N";
         MissingName "Flow"; MissingName "N"; MissingName "N"])
  ∧ nesting 0 [LFence; LHeader "LR"; LStart "n2";
         LSubgraph "  " "subflow_n0" "Flow"; LNode "    " "n3" "N";
         LSubgraph "    " "subflow_n1" "Flow#2";
         LNode "      " "n2" "N#2"; LNode "      " "n4" "N#3";
         LEdge "      " "n2" None "n4"; LEnd "    ";
         LEdge "    " "n4" None "n3"; LEnd "  ";
         LClassDef; LClass "n2"; LFenceEnd] = Some 0.
Proof.
  assert (visualize_lines ex_nested 0 NsFalsy None false true (MaxInt 1000)
          = Ok ([LFence; LHeader "LR"; LStart "n2";
         LSubgraph "  " "subflow_n0" "Flow"; LNode "    " "n3" "N";
         LSubgraph "    " "subflow_n1" "Flow#2";
         LNode "      " "n2" "N#2"; LNode "      " "n4" "N#3";
         LEdge "      " "n2" None "n4"; LEnd "    ";
         LEdge "    " "n4" None "n3"; LEnd "  ";
         LClassDef; LClass "n2"; LFenceEnd],
        [MissingNamespace; MissingName "Flow"; MissingName "N";
         MissingName "Flow"; MissingName "N"; MissingName "N"]))
    as Hv by (vm_compute; reflexivity).
  split; [exact Hv|].
  exact (blocks_well_nested _ _ _ _ _ _ _ _ _ Hv).
Defined.
